(** * Heredity: exact inference over a family gene/trait network

    A shallow embedding of [heredity.py].  The program enumerates every
    hypothesis (who carries one copy of the gene, who carries two, who shows
    the trait), evaluates its joint probability, accumulates it in per-person
    buckets and finally normalises the buckets.

    Modelling choices.
    - Python numbers are kept abstract behind the class [Arith]: the functions
      are written once and run on two instances, exact rationals ([Qc]) and
      IEEE binary64 ([PrimFloat.float], the arithmetic Python executes).
      Statements about all families, all hypotheses or all tables are proved
      for exact rationals, the arithmetic the algorithm is designed for:
      rounding is not part of them.  Sample runs are evaluated on both
      instances.
    - A Python [dict] is an association list in insertion order (iteration
      order is insertion order); its keys are distinct, which theorems that
      need it assume as [NoDup].  A loop over the keys followed by a lookup
      of each key is a loop over the entries.
    - A Python [set] of names is a list of names used through membership only;
      [names - one_gene] is a filter.  [set(people)] is taken in the order of
      the dictionary keys.
    - [x / y] raises [ZeroDivisionError] when [y] is zero: functions that
      divide return a [result]. *)

From Stdlib Require Import List Ascii String ZArith QArith Qcanon Bool Lia.
From Stdlib Require Import Permutation PrimFloat Uint63 Field.
Import ListNotations.

Set Implicit Arguments.

(** ** Numbers *)

Class Arith (F : Type) := {
  lit : Z -> nat -> F;          (* the decimal literal [m * 10^-e] *)
  add : F -> F -> F;
  sub : F -> F -> F;
  mul : F -> F -> F;
  quot : F -> F -> F;           (* [x / y] for a non-zero [y] *)
  is_zero : F -> bool
}.

Declare Scope arith_scope.
Delimit Scope arith_scope with ar.
Infix "+" := add : arith_scope.
Infix "-" := sub : arith_scope.
Infix "*" := mul : arith_scope.

(** Exact rationals. *)
#[export] Instance Arith_Qc : Arith Qc := {
  lit m e := Q2Qc (m # Z.to_pos (10 ^ Z.of_nat e));
  add := Qcplus;
  sub := Qcminus;
  mul := Qcmult;
  quot := Qcdiv;
  is_zero x := if Qc_eq_dec x (Q2Qc 0) then true else false
}.

(** IEEE binary64.  A decimal literal with a small mantissa and exponent is
    the correctly rounded quotient of two exactly represented integers. *)
#[export] Instance Arith_float : Arith float := {
  lit m e := PrimFloat.div (PrimFloat.of_uint63 (Uint63.of_Z m))
                           (PrimFloat.of_uint63 (Uint63.of_Z (10 ^ Z.of_nat e)));
  add := PrimFloat.add;
  sub := PrimFloat.sub;
  mul := PrimFloat.mul;
  quot := PrimFloat.div;
  is_zero x := PrimFloat.eqb x PrimFloat.zero
}.

(** ** Errors *)

Inductive error := ZeroDivisionError.

Inductive result (A : Type) :=
| Ok (a : A)
| Raise (e : error).
Arguments Raise {A} e.

Definition bind {A B} (r : result A) (k : A -> result B) : result B :=
  match r with
  | Ok a => k a
  | Raise e => Raise e
  end.

Notation "x <- r ;; k" := (bind r (fun x => k))
  (at level 61, r at next level, right associativity).

(** ** Data *)

(** The number of copies of the gene: the keys [0], [1], [2] of the tables. *)
Inductive genes := G0 | G1 | G2.

(** One row of the family data: [people[name]]. *)
Record person := {
  mother : option string;
  father : option string;
  trait : option bool
}.

(** [people]: name -> row, in insertion order. *)
Definition family := list (string * person).

Definition names (people : family) : list string := map fst people.

Definition dict_get {A} (d : list (string * A)) (k : string) : option A :=
  match find (fun kv => String.eqb (fst kv) k) d with
  | Some kv => Some (snd kv)
  | None => None
  end.

(** [x in s] for a set of names. *)
Definition mem (x : string) (s : list string) : bool :=
  existsb (String.eqb x) s.

(** [x in s] where [x] is a parent field, possibly [None]. *)
Definition mem_opt (x : option string) (s : list string) : bool :=
  match x with
  | Some n => mem n s
  | None => false
  end.

(** [a - b] on sets. *)
Definition set_diff (a b : list string) : list string :=
  filter (fun x => negb (mem x b)) a.

(** ** powerset *)

(** [itertools.combinations(s, r)]: the [r]-element sub-sequences of [s], in
    lexicographic order of positions. *)
Fixpoint combinations {A} (s : list A) (r : nat) : list (list A) :=
  match r with
  | O => [[]]
  | S r' =>
      match s with
      | [] => []
      | x :: s' => map (cons x) (combinations s' r') ++ combinations s' r
      end
  end.

(** [powerset(s)]: combinations of every size [0 .. len(s)], chained. *)
Definition powerset {A} (s : list A) : list (list A) :=
  flat_map (combinations s) (seq 0 (List.length s + 1)).

(** ** The probability tables, the evaluator, the accumulator, the normaliser *)

Section Heredity.
Context {F : Type} {AF : Arith F}.
Local Open Scope arith_scope.

(** [PROBS["gene"]] *)
Definition PROBS_gene (g : genes) : F :=
  match g with
  | G2 => lit 1 2
  | G1 => lit 3 2
  | G0 => lit 96 2
  end.

(** [PROBS["trait"]] *)
Definition PROBS_trait (g : genes) (t : bool) : F :=
  match g, t with
  | G2, true => lit 65 2
  | G2, false => lit 35 2
  | G1, true => lit 56 2
  | G1, false => lit 44 2
  | G0, true => lit 1 2
  | G0, false => lit 99 2
  end.

(** [PROBS["mutation"]] *)
Definition PROBS_mutation : F := lit 1 2.

(** The gene count a hypothesis gives to a name: [two_genes] is tested
    first. *)
Definition genes_of (one_gene two_genes : list string) (x : string) : genes :=
  if mem x two_genes then G2
  else if mem x one_gene then G1
  else G0.

(** [pass_mother] / [pass_father]: the parent field may be [None]. *)
Definition pass_parent (one_gene two_genes : list string)
    (parent : option string) : F :=
  if mem_opt parent two_genes then lit 1 0 - PROBS_mutation
  else if mem_opt parent one_gene then lit 5 1
  else PROBS_mutation.

Definition is_none {A} (o : option A) : bool :=
  match o with None => true | Some _ => false end.

(** [gene_probability] for one person of the loop. *)
Definition gene_probability (one_gene two_genes : list string)
    (row : person) (g : genes) : F :=
  if is_none (mother row) && is_none (father row) then PROBS_gene g
  else
    let pass_mother := pass_parent one_gene two_genes (mother row) in
    let pass_father := pass_parent one_gene two_genes (father row) in
    match g with
    | G2 => pass_mother * pass_father
    | G1 => pass_mother * (lit 1 0 - pass_father)
            + (lit 1 0 - pass_mother) * pass_father
    | G0 => (lit 1 0 - pass_mother) * (lit 1 0 - pass_father)
    end.

(** The body of the loop of [joint_probability]: one person folded into the
    running product. *)
Definition joint_step (one_gene two_genes have_trait : list string)
    (probability : F) (kv : string * person) : F :=
  let person := fst kv in
  let g := genes_of one_gene two_genes person in
  let has_trait := mem person have_trait in
  let gene_probability := gene_probability one_gene two_genes (snd kv) g in
  let trait_probability := PROBS_trait g has_trait in
  probability * (gene_probability * trait_probability).

Definition joint_probability (people : family)
    (one_gene two_genes have_trait : list string) : F :=
  fold_left (joint_step one_gene two_genes have_trait) people (lit 10 1).

(** A person's two accumulators, [{"gene": {2:, 1:, 0:}, "trait": {True:,
    False:}}], the fields in the order of the dictionary literals. *)
Record dist := {
  gene2 : F; gene1 : F; gene0 : F;
  traitT : F; traitF : F
}.

Definition gene_bucket (d : dist) (g : genes) : F :=
  match g with G2 => gene2 d | G1 => gene1 d | G0 => gene0 d end.

Definition trait_bucket (d : dist) (t : bool) : F :=
  if t then traitT d else traitF d.

Definition add_gene (d : dist) (g : genes) (p : F) : dist :=
  match g with
  | G2 => {| gene2 := gene2 d + p; gene1 := gene1 d; gene0 := gene0 d;
             traitT := traitT d; traitF := traitF d |}
  | G1 => {| gene2 := gene2 d; gene1 := gene1 d + p; gene0 := gene0 d;
             traitT := traitT d; traitF := traitF d |}
  | G0 => {| gene2 := gene2 d; gene1 := gene1 d; gene0 := gene0 d + p;
             traitT := traitT d; traitF := traitF d |}
  end.

Definition add_trait (d : dist) (t : bool) (p : F) : dist :=
  if t then {| gene2 := gene2 d; gene1 := gene1 d; gene0 := gene0 d;
               traitT := traitT d + p; traitF := traitF d |}
  else {| gene2 := gene2 d; gene1 := gene1 d; gene0 := gene0 d;
          traitT := traitT d; traitF := traitF d + p |}.

(** [probabilities]: name -> accumulators. *)
Definition table := list (string * dist).

Definition zero_dist : dist :=
  {| gene2 := lit 0 0; gene1 := lit 0 0; gene0 := lit 0 0;
     traitT := lit 0 0; traitF := lit 0 0 |}.

(** The dictionary comprehension at the top of [main]. *)
Definition init_probabilities (people : family) : table :=
  map (fun kv => (fst kv, zero_dist)) people.

(** [update]: every person of [probabilities] gets [p] added to the gene
    bucket and to the trait bucket the hypothesis selects. *)
Definition update_person (one_gene two_genes have_trait : list string)
    (p : F) (kv : string * dist) : string * dist :=
  let person := fst kv in
  let g := genes_of one_gene two_genes person in
  let has_trait := mem person have_trait in
  (person, add_trait (add_gene (snd kv) g p) has_trait p).

Definition update (probabilities : table)
    (one_gene two_genes have_trait : list string) (p : F) : table :=
  map (update_person one_gene two_genes have_trait p) probabilities.

(** [x / y], raising on a zero divisor. *)
Definition div (x y : F) : result F :=
  if is_zero y then Raise ZeroDivisionError else Ok (quot x y).

(** [sum(d.values())]: the builtin starts from the integer [0]. *)
Definition sum_values (vs : list F) : F := fold_left add vs (lit 0 0).

(** [sum(probabilities[person]["gene"].values())] and the same for
    ["trait"]. *)
Definition gene_sum (d : dist) : F := sum_values [gene2 d; gene1 d; gene0 d].
Definition trait_sum (d : dist) : F := sum_values [traitT d; traitF d].

(** The body of the loop of [normalize]: each sum is taken once, before its
    buckets are divided. *)
Definition normalize_person (d : dist) : result dist :=
  let gene_sum := gene_sum d in
  g2 <- div (gene2 d) gene_sum ;;
  g1 <- div (gene1 d) gene_sum ;;
  g0 <- div (gene0 d) gene_sum ;;
  let trait_sum := trait_sum d in
  tT <- div (traitT d) trait_sum ;;
  tF <- div (traitF d) trait_sum ;;
  Ok {| gene2 := g2; gene1 := g1; gene0 := g0; traitT := tT; traitF := tF |}.

(** [normalize]: persons in dictionary order; the first zero sum raises. *)
Fixpoint normalize (probabilities : table) : result table :=
  match probabilities with
  | [] => Ok []
  | kv :: rest =>
      d <- normalize_person (snd kv) ;;
      rest' <- normalize rest ;;
      Ok ((fst kv, d) :: rest')
  end.

(** ** The enumeration of [main] *)

(** A hypothesis: [(one_gene, two_genes, have_trait)]. *)
Definition hypothesis := (list string * list string * list string)%type.

(** [fails_evidence]: some person's known trait differs from membership in
    [have_trait]. *)
Definition fails_evidence (people : family) (have_trait : list string) : bool :=
  existsb (fun kv =>
             match trait (snd kv) with
             | Some t => negb (Bool.eqb t (mem (fst kv) have_trait))
             | None => false
             end) people.

(** The two inner loops: every [one_gene], every [two_genes] among the
    others. *)
Definition gene_hypotheses (names : list string) (have_trait : list string)
    : list hypothesis :=
  flat_map (fun one_gene =>
              map (fun two_genes => (one_gene, two_genes, have_trait))
                  (powerset (set_diff names one_gene)))
           (powerset names).

(** The hypotheses that reach [joint_probability] and [update], in order. *)
Definition hypotheses (people : family) : list hypothesis :=
  flat_map (fun have_trait =>
              if fails_evidence people have_trait then []
              else gene_hypotheses (names people) have_trait)
           (powerset (names people)).

(** The whole hypothesis space, the evidence test left out. *)
Definition all_hypotheses (people : family) : list hypothesis :=
  flat_map (gene_hypotheses (names people)) (powerset (names people)).

(** One iteration of the innermost loop body. *)
Definition accumulate_step (people : family) (probabilities : table)
    (h : hypothesis) : table :=
  let '(one_gene, two_genes, have_trait) := h in
  let p := joint_probability people one_gene two_genes have_trait in
  update probabilities one_gene two_genes have_trait p.

Definition accumulate (people : family) (hs : list hypothesis) : table :=
  fold_left (accumulate_step people) hs (init_probabilities people).

(** [main] from the loaded [people] to the normalised table. *)
Definition main (people : family) : result table :=
  normalize (accumulate people (hypotheses people)).

End Heredity.


(** ** The family and the hypothesis of the source's examples *)

Local Open Scope string_scope.
Local Open Scope list_scope.

(** The [people] dictionary of the example after [joint_probability]. *)
Definition example_people : family :=
  [("Harry", {| mother := Some "Lily"; father := Some "James";
                trait := Some true |});
   ("James", {| mother := None; father := None; trait := Some true |});
   ("Lily", {| mother := None; father := None; trait := Some false |})].

Definition example_one_gene : list string := ["Harry"].
Definition example_two_genes : list string := ["James"].
Definition example_have_trait : list string := ["Harry"; "James"].

(** The zero-initialised [probabilities] of the example after [update]. *)
Definition example_probabilities {F} {AF : Arith F} : table (F:=F) :=
  [("Harry", zero_dist); ("James", zero_dist); ("Lily", zero_dist)].

(** ** Proof tools *)

(** Two canonical rationals are equal as soon as their fractions are. *)
Ltac qc_eq := apply Qc_is_canon; vm_compute; reflexivity.

Lemma genes_eq_dec (g h : genes) : {g = h} + {g <> h}.
Proof. decide equality. Defined.

Definition genes_eqb (g h : genes) : bool :=
  if genes_eq_dec g h then true else false.

(** ** C7, C10: the accumulator *)

(** C7.  Accumulating [p = 0.02] for the hypothesis one-gene = {Harry},
    two-gene = {James}, have-trait = {Harry, James} into zero-initialised
    distributions for Harry, James and Lily gives Harry.gene[1] = 0.02,
    James.gene[2] = 0.02, Harry.trait[True] = 0.02, James.trait[True] = 0.02
    and also Lily.gene[0] = 0.02 and Lily.trait[False] = 0.02 (Lily is in
    none of the sets, so her zero-copies and no-trait buckets are selected);
    every other bucket stays 0.  In binary64 and in exact arithmetic. *)
Theorem update_example :
  update (F:=float) example_probabilities
         example_one_gene example_two_genes example_have_trait (lit 2 2)
  = [("Harry", {| gene2 := lit 0 0; gene1 := lit 2 2; gene0 := lit 0 0;
                  traitT := lit 2 2; traitF := lit 0 0 |});
     ("James", {| gene2 := lit 2 2; gene1 := lit 0 0; gene0 := lit 0 0;
                  traitT := lit 2 2; traitF := lit 0 0 |});
     ("Lily", {| gene2 := lit 0 0; gene1 := lit 0 0; gene0 := lit 2 2;
                 traitT := lit 0 0; traitF := lit 2 2 |})]
  /\
  update (F:=Qc) example_probabilities
         example_one_gene example_two_genes example_have_trait (lit 2 2)
  = [("Harry", {| gene2 := lit 0 0; gene1 := lit 2 2; gene0 := lit 0 0;
                  traitT := lit 2 2; traitF := lit 0 0 |});
     ("James", {| gene2 := lit 2 2; gene1 := lit 0 0; gene0 := lit 0 0;
                  traitT := lit 2 2; traitF := lit 0 0 |});
     ("Lily", {| gene2 := lit 0 0; gene1 := lit 0 0; gene0 := lit 2 2;
                 traitT := lit 0 0; traitF := lit 2 2 |})].
Proof.
  split.
  - vm_compute. reflexivity.
  - unfold update, example_probabilities, update_person; simpl map.
    repeat (f_equal; try qc_eq).
Qed.

(** C7 as the specification words it (every bucket other than the four of
    Harry and James stays 0) fails on Lily: her zero-copies bucket and her
    no-trait bucket both receive 0.02, which is not 0. *)
Lemma update_example_lily :
  (option_map (fun d => (gene_bucket d G0, trait_bucket d false))
     (dict_get (update (F:=float) example_probabilities
                  example_one_gene example_two_genes example_have_trait
                  (lit 2 2)) "Lily")
   = Some (lit 2 2, lit 2 2)
   /\ is_zero (lit (F:=float) 2 2) = false)
  /\
  (option_map (fun d => (this (gene_bucket d G0), this (trait_bucket d false)))
     (dict_get (update (F:=Qc) example_probabilities
                  example_one_gene example_two_genes example_have_trait
                  (lit 2 2)) "Lily")
   = Some (1 # 50, 1 # 50)%Q
   /\ is_zero (lit (F:=Qc) 2 2) = false).
Proof. repeat split; vm_compute; reflexivity. Qed.

Section Accumulator.
Context {F : Type} {AF : Arith F}.
Local Open Scope arith_scope.

(** What [update] does to one entry [kv] of [probabilities], giving [kv']:
    the bucket of the person's gene count and the bucket of the person's
    trait membership grow by [p]; the other three buckets keep their
    values. *)
Definition bumped (one_gene two_genes have_trait : list string) (p : F)
    (kv kv' : string * dist (F:=F)) : Prop :=
  fst kv' = fst kv
  /\ (forall g,
        gene_bucket (snd kv') g
        = if genes_eqb g (genes_of one_gene two_genes (fst kv))
          then gene_bucket (snd kv) g + p
          else gene_bucket (snd kv) g)
  /\ (forall t,
        trait_bucket (snd kv') t
        = if Bool.eqb t (mem (fst kv) have_trait)
          then trait_bucket (snd kv) t + p
          else trait_bucket (snd kv) t)
  /\ (mem (fst kv) one_gene = false -> mem (fst kv) two_genes = false ->
      genes_of one_gene two_genes (fst kv) = G0).

Lemma update_person_bumped one_gene two_genes have_trait p kv :
  bumped one_gene two_genes have_trait p kv
         (update_person one_gene two_genes have_trait p kv).
Proof.
  unfold bumped, update_person; cbn [fst snd].
  split; [reflexivity|].
  split; [|split].
  - intro g.
    destruct (genes_of one_gene two_genes (fst kv)), g,
             (mem (fst kv) have_trait); reflexivity.
  - intro t.
    destruct (genes_of one_gene two_genes (fst kv)), t,
             (mem (fst kv) have_trait); reflexivity.
  - intros H1 H2. unfold genes_of. now rewrite H2, H1.
Qed.

(** C10.  [update] changes, for every person of the accumulator mapping,
    exactly the gene bucket of the person's hypothesised gene count (the
    zero-copies bucket for a person in neither gene set) and the trait bucket
    of the person's trait membership, each by [+ p]; every other bucket of
    every person is unchanged, and the persons and their order are kept.
    Holds for any arithmetic. *)
Theorem update_frame (probabilities : table) one_gene two_genes have_trait p :
  Forall2 (bumped one_gene two_genes have_trait p)
          probabilities
          (update probabilities one_gene two_genes have_trait p).
Proof.
  induction probabilities as [|kv rest IH]; simpl.
  - constructor.
  - constructor; [apply update_person_bumped | exact IH].
Qed.

End Accumulator.

(** ** Exact arithmetic: the class operations at [Qc] *)

Ltac to_qc :=
  change (@add Qc Arith_Qc) with Qcplus in *;
  change (@sub Qc Arith_Qc) with Qcminus in *;
  change (@mul Qc Arith_Qc) with Qcmult in *;
  change (@quot Qc Arith_Qc) with Qcdiv in *.

Local Open Scope Qc_scope.

Definition half : Qc := Q2Qc (1 # 2).

Lemma lit_0_0 : lit (F:=Qc) 0 0 = 0. Proof. qc_eq. Qed.
Lemma lit_1_0 : lit (F:=Qc) 1 0 = 1. Proof. qc_eq. Qed.
Lemma lit_10_1 : lit (F:=Qc) 10 1 = 1. Proof. qc_eq. Qed.
Lemma lit_5_1 : lit (F:=Qc) 5 1 = half. Proof. qc_eq. Qed.

(** Finite sums and products of rationals. *)
Definition Qsum (l : list Qc) : Qc := fold_right Qcplus 0 l.
Definition Qprod (l : list Qc) : Qc := fold_right Qcmult 1 l.

Lemma Qsum_nil : Qsum [] = 0.
Proof. reflexivity. Qed.

Lemma Qsum_cons (x : Qc) (l : list Qc) : Qsum (x :: l) = x + Qsum l.
Proof. reflexivity. Qed.

Lemma fold_left_mul_Qprod {A} (f : A -> Qc) (l : list A) (a : Qc) :
  fold_left (fun acc x => acc * f x) l a = a * Qprod (map f l).
Proof.
  revert a; induction l as [|x l IH]; intro a; simpl.
  - ring.
  - rewrite IH. ring.
Qed.

Lemma fold_left_add_Qsum (l : list Qc) (a : Qc) :
  fold_left Qcplus l a = a + Qsum l.
Proof.
  revert a; induction l as [|x l IH]; intro a; simpl.
  - ring.
  - rewrite IH. ring.
Qed.

(** ** C1, C5: the evaluator *)

(** The evaluator as section 4.2 of the specification words it. *)
Module Spec.

Definition genePrior : genes -> Qc := PROBS_gene.
Definition traitGivenGene : genes -> bool -> Qc := PROBS_trait.
Definition mutationRate : Qc := PROBS_mutation.

(** 2 if in the two-gene subset, 1 if in the one-gene subset, else 0. *)
Definition geneCount (one_gene two_genes : list string) (x : string) : genes :=
  if mem x two_genes then G2 else if mem x one_gene then G1 else G0.

(** The gene count of a parent reference; an absent parent is in neither
    subset. *)
Definition parentCount (one_gene two_genes : list string)
    (parent : option string) : genes :=
  match parent with
  | Some x => geneCount one_gene two_genes x
  | None => G0
  end.

(** 2 copies -> 1 - mutationRate; 1 copy -> 0.5; 0 copies -> mutationRate. *)
Definition passProbability (g : genes) : Qc :=
  match g with
  | G2 => 1 - mutationRate
  | G1 => half
  | G0 => mutationRate
  end.

Definition childProbability (g : genes) (passMother passFather : Qc) : Qc :=
  match g with
  | G2 => passMother * passFather
  | G1 => passMother * (1 - passFather) + (1 - passMother) * passFather
  | G0 => (1 - passMother) * (1 - passFather)
  end.

Definition founder (row : person) : bool :=
  match mother row, father row with
  | None, None => true
  | _, _ => false
  end.

Definition geneCountProbability (one_gene two_genes : list string)
    (row : person) (g : genes) : Qc :=
  if founder row then genePrior g
  else childProbability g
         (passProbability (parentCount one_gene two_genes (mother row)))
         (passProbability (parentCount one_gene two_genes (father row))).

Definition personProbability (one_gene two_genes have_trait : list string)
    (kv : string * person) : Qc :=
  let g := geneCount one_gene two_genes (fst kv) in
  geneCountProbability one_gene two_genes (snd kv) g
  * traitGivenGene g (mem (fst kv) have_trait).

End Spec.

Lemma pass_parent_spec one_gene two_genes parent :
  pass_parent (F:=Qc) one_gene two_genes parent
  = Spec.passProbability (Spec.parentCount one_gene two_genes parent).
Proof.
  unfold pass_parent, Spec.passProbability, Spec.parentCount, Spec.geneCount,
    Spec.mutationRate.
  destruct parent as [x|]; cbn [mem_opt].
  - destruct (mem x two_genes); [now rewrite lit_1_0|].
    destruct (mem x one_gene); [apply lit_5_1 | reflexivity].
  - reflexivity.
Qed.

Lemma gene_probability_spec one_gene two_genes row g :
  gene_probability (F:=Qc) one_gene two_genes row g
  = Spec.geneCountProbability one_gene two_genes row g.
Proof.
  unfold gene_probability, Spec.geneCountProbability, Spec.founder.
  rewrite !pass_parent_spec, lit_1_0.
  destruct (mother row), (father row); cbn [is_none andb];
    destruct g; reflexivity.
Qed.

Lemma joint_probability_Qprod people one_gene two_genes have_trait :
  joint_probability (F:=Qc) people one_gene two_genes have_trait
  = Qprod (map (fun kv =>
                  gene_probability one_gene two_genes (snd kv)
                    (genes_of one_gene two_genes (fst kv))
                  * PROBS_trait (genes_of one_gene two_genes (fst kv))
                      (mem (fst kv) have_trait)) people).
Proof.
  unfold joint_probability, joint_step. to_qc.
  rewrite (fold_left_mul_Qprod
             (fun kv => gene_probability one_gene two_genes (snd kv)
                          (genes_of one_gene two_genes (fst kv))
                        * PROBS_trait (genes_of one_gene two_genes (fst kv))
                            (mem (fst kv) have_trait))).
  rewrite lit_10_1. ring.
Qed.

(** C1.  For every hypothesis and every family graph, [joint_probability]
    is the product over all persons of gene-count probability times trait
    probability: [genePrior[geneCount]] for a founder; for a non-founder the
    combination of the two parents' pass probabilities (2 copies -> 1 -
    mutationRate, 1 copy -> 0.5, 0 copies -> mutationRate) into
    P(child = 2), P(child = 1), P(child = 0); and
    [traitGivenGene[geneCount][hasTrait]]. *)
Theorem joint_probability_product people one_gene two_genes have_trait :
  joint_probability (F:=Qc) people one_gene two_genes have_trait
  = Qprod (map (Spec.personProbability one_gene two_genes have_trait) people).
Proof.
  rewrite joint_probability_Qprod. f_equal.
  apply map_ext; intro kv.
  unfold Spec.personProbability. rewrite gene_probability_spec. reflexivity.
Qed.

(** C5.  On the example family (Harry with mother Lily and father James, both
    founders) and the hypothesis one-gene = {Harry}, two-gene = {James},
    have-trait = {Harry, James}, [joint_probability] returns 0.0033909587712
    (Harry 0.9802 * 0.56, James 0.01 * 0.65, Lily 0.96 * 0.99): the binary64
    run gives the double nearest to that decimal, exact arithmetic gives the
    decimal itself. *)
Theorem joint_probability_example :
  joint_probability (F:=float) example_people
    example_one_gene example_two_genes example_have_trait
  = lit 33909587712 13
  /\
  joint_probability (F:=Qc) example_people
    example_one_gene example_two_genes example_have_trait
  = lit 33909587712 13.
Proof.
  split.
  - vm_compute. reflexivity.
  - qc_eq.
Qed.

(** C5 with the value of the specification, 0.0026643247488, fails: the
    result differs from it in binary64 and in exact arithmetic (it is the
    value of the hypothesis in which only James shows the trait). *)
Lemma joint_probability_example_not_spec :
  (PrimFloat.eqb
     (joint_probability (F:=float) example_people
        example_one_gene example_two_genes example_have_trait)
     (lit 26643247488 13) = false
   /\ PrimFloat.ltb (lit 33 4)
        (joint_probability (F:=float) example_people
           example_one_gene example_two_genes example_have_trait) = true)
  /\
  (Qeq_bool
     (this (joint_probability (F:=Qc) example_people
              example_one_gene example_two_genes example_have_trait))
     (26643247488 # 10000000000000) = false
   /\ this (joint_probability (F:=Qc) example_people
              example_one_gene example_two_genes ["James"])
      = Qred (26643247488 # 10000000000000)).
Proof. repeat split; vm_compute; reflexivity. Qed.

(** ** C4: the evidence filter *)

Lemma fails_evidence_false people have_trait :
  fails_evidence people have_trait = false ->
  forall k row b, In (k, row) people -> trait row = Some b ->
                  mem k have_trait = b.
Proof.
  unfold fails_evidence. intros Hf k row b Hin Ht.
  assert (H := proj2 (Bool.not_true_iff_false _) Hf).
  destruct (mem k have_trait) eqn:Hm, b; try reflexivity; exfalso; apply H;
    apply existsb_exists; exists (k, row); cbn [fst snd];
    (split; [exact Hin | rewrite Ht, Hm; reflexivity]).
Qed.

Lemma in_gene_hypotheses names have_trait h :
  In h (gene_hypotheses names have_trait) ->
  snd h = have_trait
  /\ In (fst (fst h)) (powerset names)
  /\ In (snd (fst h)) (powerset (set_diff names (fst (fst h)))).
Proof.
  unfold gene_hypotheses. intro H.
  apply in_flat_map in H. destruct H as [one_gene [H1 H]].
  apply in_map_iff in H. destruct H as [two_genes [<- H2]].
  cbn [fst snd]. auto.
Qed.

Lemma in_hypotheses people h :
  In h (hypotheses people) ->
  fails_evidence people (snd h) = false
  /\ In (snd h) (powerset (names people))
  /\ In h (gene_hypotheses (names people) (snd h)).
Proof.
  unfold hypotheses. intro H.
  apply in_flat_map in H. destruct H as [have_trait [H1 H]].
  destruct (fails_evidence people have_trait) eqn:Hf; [contradiction|].
  destruct (in_gene_hypotheses _ _ _ H) as [-> _]. auto.
Qed.

(** C4.  Every hypothesis that reaches [joint_probability] and [update]
    gives each person whose trait is known a trait membership equal to the
    known value: the trait subsets that disagree are dropped before the
    gene loops start. *)
Theorem hypotheses_respect_evidence people one_gene two_genes have_trait :
  In (one_gene, two_genes, have_trait) (hypotheses people) ->
  forall person row known,
    In (person, row) people -> trait row = Some known ->
    mem person have_trait = known.
Proof.
  intros H person row known Hin Ht.
  destruct (in_hypotheses _ _ H) as [Hf _]. cbn [snd] in Hf.
  eapply fails_evidence_false; eassumption.
Qed.

Ltac in_list := repeat first [left; reflexivity | right].

Lemma hypotheses_respect_evidence_witness :
  mem "Lily" example_have_trait = false.
Proof.
  apply (@hypotheses_respect_evidence example_people
           example_one_gene example_two_genes example_have_trait)
    with (row := {| mother := None; father := None; trait := Some false |}).
  - vm_compute. in_list.
  - vm_compute. in_list.
  - reflexivity.
Defined.

(** ** Membership and the subsets that [powerset] yields *)

Lemma mem_In x s : mem x s = true <-> In x s.
Proof.
  unfold mem. rewrite existsb_exists. split.
  - intros [y [Hy He]]. apply String.eqb_eq in He. now subst.
  - intro H. exists x. split; [exact H | apply String.eqb_refl].
Qed.

Lemma mem_not_In x s : mem x s = false <-> ~ In x s.
Proof.
  rewrite <- mem_In. destruct (mem x s); split; congruence.
Qed.

Lemma combinations_incl {A} (l : list A) r s :
  In s (combinations l r) -> incl s l.
Proof.
  revert r s. induction l as [|x l IH]; intros [|r] s H; simpl in H.
  - destruct H as [<-|[]]. apply incl_nil_l.
  - contradiction.
  - destruct H as [<-|[]]. apply incl_nil_l.
  - apply in_app_or in H. destruct H as [H|H].
    + apply in_map_iff in H. destruct H as [s' [<- H]].
      apply incl_cons; [now left|]. apply incl_tl. eapply IH; eassumption.
    + apply incl_tl. eapply IH; eassumption.
Qed.

Lemma powerset_incl {A} (l s : list A) : In s (powerset l) -> incl s l.
Proof.
  unfold powerset. intro H. apply in_flat_map in H.
  destruct H as [r [_ H]]. eapply combinations_incl; eassumption.
Qed.

Lemma set_diff_incl a b : incl (set_diff a b) a.
Proof. unfold set_diff. intros x H. apply filter_In in H. tauto. Qed.

(** The two gene sets of an enumerated hypothesis are sets of persons. *)
Lemma hypotheses_incl people one_gene two_genes have_trait :
  In (one_gene, two_genes, have_trait) (hypotheses people) ->
  incl one_gene (names people) /\ incl two_genes (names people)
  /\ incl have_trait (names people).
Proof.
  intro H. destruct (in_hypotheses _ _ H) as [_ [Ht Hg]].
  destruct (in_gene_hypotheses _ _ _ Hg) as [_ [H1 H2]].
  cbn [fst snd] in *.
  split; [|split].
  - now apply powerset_incl.
  - intros x Hx. apply (set_diff_incl (names people) one_gene).
    revert x Hx. now apply powerset_incl.
  - now apply powerset_incl.
Qed.

(** ** C8: normalising untouched accumulators *)

Section EmptySpace.
Context {F : Type} {AF : Arith F}.

(** The sum of zero buckets tests as zero (true of both instances). *)
Hypothesis zero_sum3 :
  is_zero (sum_values [lit 0 0; lit 0 0; lit 0 0]) = true.

Lemma accumulate_nil people :
  accumulate (F:=F) people [] = init_probabilities people.
Proof. reflexivity. Qed.

Lemma init_probabilities_zero people :
  Forall (fun kv => snd kv = zero_dist) (init_probabilities (F:=F) people).
Proof.
  unfold init_probabilities. apply Forall_forall. intros kv H.
  apply in_map_iff in H. destruct H as [kv' [<- _]]. reflexivity.
Qed.

Lemma normalize_person_zero :
  normalize_person (zero_dist (F:=F)) = Raise ZeroDivisionError.
Proof.
  unfold normalize_person, gene_sum, zero_dist, div; cbn [gene2 gene1 gene0].
  rewrite zero_sum3. reflexivity.
Qed.

Lemma normalize_init_raises people :
  people <> [] ->
  normalize (init_probabilities (F:=F) people) = Raise ZeroDivisionError.
Proof.
  destruct people as [|kv rest]; [congruence|]. intros _.
  cbn [init_probabilities map normalize snd].
  rewrite normalize_person_zero. reflexivity.
Qed.

End EmptySpace.

(** C8.  When no hypothesis is accumulated, every person's buckets, hence
    every gene sum and trait sum, are still zero when [normalize] is reached,
    and [normalize] raises [ZeroDivisionError] instead of returning values;
    in binary64 and in exact arithmetic.  (With no person at all there is
    nothing to divide and nothing is raised.) *)
Theorem normalize_empty_space_raises (people : family) :
  people <> [] ->
  (Forall (fun kv => snd kv = zero_dist
                     /\ is_zero (gene_sum (snd kv)) = true
                     /\ is_zero (trait_sum (snd kv)) = true)
          (accumulate (F:=float) people [])
   /\ normalize (accumulate (F:=float) people []) = Raise ZeroDivisionError)
  /\
  (Forall (fun kv => snd kv = zero_dist
                     /\ is_zero (gene_sum (snd kv)) = true
                     /\ is_zero (trait_sum (snd kv)) = true)
          (accumulate (F:=Qc) people [])
   /\ normalize (accumulate (F:=Qc) people []) = Raise ZeroDivisionError).
Proof.
  intro Hne. rewrite !accumulate_nil. split; split.
  - eapply Forall_impl; [|apply init_probabilities_zero].
    intros kv ->. repeat split; vm_compute; reflexivity.
  - apply normalize_init_raises; [vm_compute; reflexivity | exact Hne].
  - eapply Forall_impl; [|apply init_probabilities_zero].
    intros kv ->. repeat split; vm_compute; reflexivity.
  - apply normalize_init_raises; [vm_compute; reflexivity | exact Hne].
Qed.

Lemma normalize_empty_space_raises_witness :
  normalize (accumulate (F:=float) example_people [])
  = Raise ZeroDivisionError.
Proof.
  apply (normalize_empty_space_raises (people := example_people)).
  discriminate.
Defined.

(** ** C9: graphs with missing parents *)

(** A malformed graph in the words of the specification: some person names a
    parent that is not in the person set, or has exactly one of mother and
    father. *)
Definition dangling (people : family) (parent : option string) : bool :=
  match parent with
  | Some n => negb (mem n (names people))
  | None => false
  end.

Definition malformed (people : family) : bool :=
  existsb (fun kv =>
             dangling people (mother (snd kv))
             || dangling people (father (snd kv))
             || xorb (is_none (mother (snd kv))) (is_none (father (snd kv))))
          people.

(** Harry names a mother who is not in the data and no father. *)
Definition orphan_people : family :=
  [("Harry", {| mother := Some "Lily"; father := None; trait := None |})].

Definition is_ok {A} (r : result A) : bool :=
  match r with Ok _ => true | Raise _ => false end.

(** The printed content of an exact result: each bucket as a fraction. *)
Definition fractions (r : result (table (F:=Qc)))
    : option (list (string * (Q * Q * Q) * (Q * Q))) :=
  match r with
  | Ok t =>
      Some (map (fun kv =>
                   (fst kv,
                    (this (gene2 (snd kv)), this (gene1 (snd kv)),
                     this (gene0 (snd kv))),
                    (this (traitT (snd kv)), this (traitF (snd kv))))) t)
  | Raise _ => None
  end.

(** C9 as the specification words it fails: a malformed graph is not
    rejected; [main] enumerates, evaluates and normalises it, the absent
    mother and the missing father both counted as carrying no copy
    (0.01 * 0.01 = 0.0001 for two copies, 0.99 * 0.99 = 0.9801 for none). *)
Lemma malformed_not_rejected :
  malformed orphan_people = true
  /\ is_ok (main (F:=float) orphan_people) = true
  /\ fractions (main (F:=Qc) orphan_people)
     = Some [("Harry", (1 # 10000, 99 # 5000, 9801 # 10000),
                       (10477 # 500000, 489523 # 500000))]%Q.
Proof. repeat split; vm_compute; reflexivity. Qed.

Section MissingParent.
Context {F : Type} {AF : Arith F}.

Lemma mem_opt_incl parent s l :
  incl s l -> mem_opt parent l = false -> mem_opt parent s = false.
Proof.
  destruct parent as [n|]; [|reflexivity]. cbn [mem_opt].
  rewrite !mem_not_In. intros Hi Hn H. apply Hn, Hi, H.
Qed.

(** For every hypothesis that [main] enumerates, a parent field that is
    empty or names nobody in the person set is evaluated as a parent with no
    copy of the gene: its pass probability is the mutation rate; and the
    founder's prior is used only when both parent fields are empty. *)
Lemma missing_parent_pass people one_gene two_genes have_trait :
  In (one_gene, two_genes, have_trait) (hypotheses people) ->
  forall parent,
    mem_opt parent (names people) = false ->
    pass_parent (F:=F) one_gene two_genes parent = PROBS_mutation
    /\ forall row g,
         mother row <> None \/ father row <> None ->
         gene_probability (F:=F) one_gene two_genes row g
         = let pass_mother := pass_parent one_gene two_genes (mother row) in
           let pass_father := pass_parent one_gene two_genes (father row) in
           match g with
           | G2 => mul pass_mother pass_father
           | G1 => add (mul pass_mother (sub (lit 1 0) pass_father))
                       (mul (sub (lit 1 0) pass_mother) pass_father)
           | G0 => mul (sub (lit 1 0) pass_mother) (sub (lit 1 0) pass_father)
           end.
Proof.
  intros H parent Hp.
  destruct (@hypotheses_incl people one_gene two_genes have_trait H)
    as [H1 [H2 _]].
  split.
  - unfold pass_parent.
    rewrite (@mem_opt_incl parent _ _ H2 Hp), (@mem_opt_incl parent _ _ H1 Hp).
    reflexivity.
  - intros row g Hr. unfold gene_probability.
    destruct (mother row), (father row); cbn [is_none andb];
      try reflexivity.
    destruct Hr; congruence.
Qed.

End MissingParent.

(** ** C2: the normaliser *)

Lemma sum_values_Qsum (vs : list Qc) : sum_values vs = Qsum vs.
Proof.
  unfold sum_values. to_qc. rewrite fold_left_add_Qsum, lit_0_0. ring.
Qed.

Lemma gene_sum_Qc (d : dist (F:=Qc)) :
  gene_sum d = gene2 d + gene1 d + gene0 d.
Proof. unfold gene_sum. rewrite sum_values_Qsum. simpl. ring. Qed.

Lemma trait_sum_Qc (d : dist (F:=Qc)) :
  trait_sum d = traitT d + traitF d.
Proof. unfold trait_sum. rewrite sum_values_Qsum. simpl. ring. Qed.

Lemma div_Qc_ok (x y : Qc) : y <> 0 -> div x y = Ok (x / y).
Proof.
  intro Hy. unfold div. cbn [is_zero Arith_Qc quot].
  destruct (Qc_eq_dec y 0); [contradiction | reflexivity].
Qed.

Lemma normalize_person_Qc_ok (d : dist (F:=Qc)) :
  gene_sum d <> 0 -> trait_sum d <> 0 ->
  normalize_person d
  = Ok {| gene2 := gene2 d / gene_sum d;
          gene1 := gene1 d / gene_sum d;
          gene0 := gene0 d / gene_sum d;
          traitT := traitT d / trait_sum d;
          traitF := traitF d / trait_sum d |}.
Proof.
  intros Hg Ht. unfold normalize_person.
  rewrite !(div_Qc_ok _ Hg), !(div_Qc_ok _ Ht). reflexivity.
Qed.






(** The distribution [{0: 1, 1: 1, 2: 2}] of the specification, with a trait
    distribution [{True: 1, False: 3}]. *)
Definition unnormalized_example : table (F:=Qc) :=
  [("Harry", {| gene2 := lit 2 0; gene1 := lit 1 0; gene0 := lit 1 0;
                traitT := lit 1 0; traitF := lit 3 0 |})].

Ltac qc_nonzero :=
  let H := fresh in
  intro H; apply (f_equal (fun v : Qc => Qnum (this v))) in H;
  vm_compute in H; discriminate H.


(** ** Finite sums *)

Lemma Qsum_app (l1 l2 : list Qc) : Qsum (l1 ++ l2) = Qsum l1 + Qsum l2.
Proof. induction l1 as [|x l1 IH]; simpl; [|rewrite IH]; ring. Qed.

Lemma Qsum_perm (l1 l2 : list Qc) : Permutation l1 l2 -> Qsum l1 = Qsum l2.
Proof.
  induction 1 as [|x l l' _ IH|x y l|l l' l'' _ IH1 _ IH2]; simpl.
  - reflexivity.
  - now rewrite IH.
  - ring.
  - now rewrite IH1.
Qed.

Lemma Qsum_map_ext_in {A} (f g : A -> Qc) (l : list A) :
  (forall x, In x l -> f x = g x) -> Qsum (map f l) = Qsum (map g l).
Proof. intro H. f_equal. now apply map_ext_in. Qed.

Lemma Qsum_map_ext {A} (f g : A -> Qc) (l : list A) :
  (forall x, f x = g x) -> Qsum (map f l) = Qsum (map g l).
Proof. intro H. apply Qsum_map_ext_in. auto. Qed.

Lemma Qsum_map_perm {A} (f : A -> Qc) (l1 l2 : list A) :
  Permutation l1 l2 -> Qsum (map f l1) = Qsum (map f l2).
Proof. intro H. apply Qsum_perm. now apply Permutation_map. Qed.

Lemma Qsum_flat_map {A B} (f : B -> Qc) (g : A -> list B) (l : list A) :
  Qsum (map f (flat_map g l)) = Qsum (map (fun x => Qsum (map f (g x))) l).
Proof.
  induction l as [|x l IH]; simpl; [reflexivity|].
  now rewrite map_app, Qsum_app, IH.
Qed.

Lemma Qsum_map_add {A} (f g : A -> Qc) (l : list A) :
  Qsum (map (fun x => f x + g x) l) = Qsum (map f l) + Qsum (map g l).
Proof. induction l as [|x l IH]; simpl; [|rewrite IH]; ring. Qed.

Lemma Qsum_map_mul_l {A} (c : Qc) (f : A -> Qc) (l : list A) :
  Qsum (map (fun x => c * f x) l) = c * Qsum (map f l).
Proof. induction l as [|x l IH]; simpl; [|rewrite IH]; ring. Qed.

Lemma Qsum_map_zero {A} (l : list A) : Qsum (map (fun _ => 0) l) = 0.
Proof. induction l as [|x l IH]; simpl; [|rewrite IH]; ring. Qed.

Lemma Qsum_swap {A B} (f : A -> B -> Qc) (l1 : list A) (l2 : list B) :
  Qsum (map (fun x => Qsum (map (fun y => f x y) l2)) l1)
  = Qsum (map (fun y => Qsum (map (fun x => f x y) l1)) l2).
Proof.
  induction l1 as [|x l1 IH]; simpl.
  - now rewrite Qsum_map_zero.
  - rewrite IH, <- Qsum_map_add. reflexivity.
Qed.

(** ** [powerset] enumerates the subsets *)

(** The subsets of a list by the usual recursion: with or without the
    head. *)
Fixpoint subsets {A} (l : list A) : list (list A) :=
  match l with
  | [] => [[]]
  | x :: l' => map (cons x) (subsets l') ++ subsets l'
  end.

Section Powerset.
Variable A : Type.

Lemma flat_map_app_perm {X} (f g : X -> list (list A)) (l : list X) :
  Permutation (flat_map (fun r => f r ++ g r) l)
              (flat_map f l ++ flat_map g l).
Proof.
  induction l as [|r l IH]; simpl; [constructor|].
  rewrite IH. rewrite <- !app_assoc. apply Permutation_app_head.
  rewrite !app_assoc. apply Permutation_app_tail.
  apply Permutation_app_comm.
Qed.

Lemma flat_map_map_cons (x : A) {X} (f : X -> list (list A)) (l : list X) :
  flat_map (fun r => map (cons x) (f r)) l = map (cons x) (flat_map f l).
Proof.
  induction l as [|r l IH]; simpl; [reflexivity|].
  now rewrite map_app, IH.
Qed.

Lemma flat_map_seq_S {X} (f : nat -> list X) (n s : nat) :
  flat_map f (seq (S s) n) = flat_map (fun r => f (S r)) (seq s n).
Proof.
  revert s. induction n as [|n IH]; intro s; simpl; [reflexivity|].
  now rewrite IH.
Qed.

Lemma flat_map_nil {X} (l : list X) :
  flat_map (fun _ => @nil (list A)) l = [].
Proof. induction l as [|r l IH]; simpl; [reflexivity | exact IH]. Qed.

(** Chaining the combinations of sizes [0 .. n-1], for [n] beyond the
    length, gives every subset once. *)
Lemma chain_combinations_subsets (l : list A) :
  forall n, (List.length l < n)%nat ->
            Permutation (flat_map (combinations l) (seq 0 n)) (subsets l).
Proof.
  induction l as [|x l IH]; intros n Hn.
  - destruct n as [|n]; [inversion Hn|].
    cbn [seq flat_map subsets]. rewrite flat_map_seq_S.
    cbn [combinations]. rewrite flat_map_nil. reflexivity.
  - destruct n as [|n]; [inversion Hn|]. simpl in Hn.
    assert (Hn' : (List.length l < n)%nat) by lia.
    cbn [seq flat_map subsets]. rewrite flat_map_seq_S.
    cbn [combinations].
    rewrite (flat_map_app_perm (fun r => map (cons x) (combinations l r))
               (fun r => combinations l (S r))).
    rewrite flat_map_map_cons.
    rewrite (Permutation_app_comm [[]]).
    rewrite <- app_assoc. apply Permutation_app.
    + apply Permutation_map. apply IH. exact Hn'.
    + rewrite Permutation_app_comm.
      specialize (IH (S n) ltac:(lia)).
      cbn [seq flat_map] in IH. rewrite flat_map_seq_S in IH.
      destruct l; exact IH.
Qed.

Lemma powerset_subsets (l : list A) : Permutation (powerset l) (subsets l).
Proof. unfold powerset. apply chain_combinations_subsets. lia. Qed.

Lemma subsets_incl (l s : list A) : In s (subsets l) -> incl s l.
Proof.
  revert s. induction l as [|x l IH]; intros s H; simpl in H.
  - destruct H as [<-|[]]. apply incl_refl.
  - apply in_app_or in H. destruct H as [H|H].
    + apply in_map_iff in H. destruct H as [s' [<- H]].
      apply incl_cons; [now left | apply incl_tl, IH, H].
    + apply incl_tl, IH, H.
Qed.

End Powerset.

(** ** Sums over assignments *)

(** A hypothesis is read by [joint_probability] and [update] through
    membership tests only: it is an assignment of a gene count and of a
    trait value to every name.  [isum vals l G base] sums [G] over all the
    assignments that give the names of [l] values of [vals] and agree with
    [base] elsewhere. *)
Section Assignments.
Variable V : Type.
Variable vals : list V.

Definition upd (a : string -> V) (x : string) (v : V) : string -> V :=
  fun k => if String.eqb k x then v else a k.

Definition extensional (G : (string -> V) -> Qc) : Prop :=
  forall a b, (forall k, a k = b k) -> G a = G b.

Fixpoint isum (l : list string) (G : (string -> V) -> Qc)
    (base : string -> V) : Qc :=
  match l with
  | [] => G base
  | x :: l' => Qsum (map (fun v => isum l' G (upd base x v)) vals)
  end.

Lemma upd_ext a b x v : (forall k, a k = b k) ->
                        forall k, upd a x v k = upd b x v k.
Proof. intros H k. unfold upd. destruct (String.eqb k x); auto. Qed.

Lemma upd_comm a x y v w : x <> y ->
  forall k, upd (upd a x v) y w k = upd (upd a y w) x v k.
Proof.
  intros Hxy k. unfold upd.
  destruct (String.eqb_spec k y), (String.eqb_spec k x); congruence.
Qed.

Lemma isum_ext_base l G : extensional G -> extensional (isum l G).
Proof.
  intro HG. induction l as [|x l IH]; intros a b Hab; simpl.
  - now apply HG.
  - apply Qsum_map_ext. intro v. apply IH. now apply upd_ext.
Qed.

Lemma isum_ext l G G' base :
  (forall a, G a = G' a) -> isum l G base = isum l G' base.
Proof.
  intro H. revert base. induction l as [|x l IH]; intro base; simpl.
  - apply H.
  - apply Qsum_map_ext. intro v. apply IH.
Qed.

(** A finite sum moves out of [isum]. *)
Lemma isum_Qsum {W} (ws : list W) l (G : W -> (string -> V) -> Qc) base :
  isum l (fun a => Qsum (map (fun w => G w a) ws)) base
  = Qsum (map (fun w => isum l (G w) base) ws).
Proof.
  revert base. induction l as [|x l IH]; intro base; simpl.
  - reflexivity.
  - rewrite (Qsum_map_ext _ _ vals (fun v => IH (upd base x v))).
    apply Qsum_swap.
Qed.

Lemma isum_mul_l l c G base :
  isum l (fun a => c * G a) base = c * isum l G base.
Proof.
  revert base. induction l as [|x l IH]; intro base; simpl.
  - reflexivity.
  - rewrite (Qsum_map_ext _ _ vals (fun v => IH (upd base x v))).
    apply Qsum_map_mul_l.
Qed.

(** The sum over the values of one name moves innermost. *)
Lemma isum_push x l G base :
  ~ In x l -> extensional G ->
  Qsum (map (fun v => isum l G (upd base x v)) vals)
  = isum l (fun a => Qsum (map (fun v => G (upd a x v)) vals)) base.
Proof.
  intros Hx HG. revert base. induction l as [|y l IH]; intro base; simpl.
  - reflexivity.
  - assert (Hxy : x <> y) by (intro; subst; apply Hx; now left).
    assert (Hxl : ~ In x l) by (intro; apply Hx; now right).
    rewrite Qsum_swap. apply Qsum_map_ext. intro w.
    rewrite <- (IH Hxl). apply Qsum_map_ext. intro v.
    apply isum_ext_base; [exact HG|]. now apply upd_comm.
Qed.

Lemma isum_marginal l1 x l2 G base :
  ~ In x l2 -> extensional G ->
  isum (l1 ++ x :: l2) G base
  = isum (l1 ++ l2) (fun a => Qsum (map (fun v => G (upd a x v)) vals)) base.
Proof.
  intros Hx HG. revert base. induction l1 as [|y l1 IH]; intro base.
  - simpl. now apply isum_push.
  - simpl. apply Qsum_map_ext. intro w. apply IH.
Qed.

(** [f] on the names of [l], [base] elsewhere. *)
Definition over (l : list string) (f : string -> V) (base : string -> V)
    : string -> V :=
  fun k => if mem k l then f k else base k.

End Assignments.

Lemma mem_cons k x l : mem k (x :: l) = String.eqb k x || mem k l.
Proof. reflexivity. Qed.

Lemma mem_incl_false x s l : incl s l -> ~ In x l -> mem x s = false.
Proof. intros Hi Hx. apply mem_not_In. intro H. apply Hx, Hi, H. Qed.

Lemma over_trait_in x l s base :
  ~ In x l ->
  forall k, over (x :: l) (fun k => mem k (x :: s)) base k
            = over l (fun k => mem k s) (upd base x true) k.
Proof.
  intros Hx k. unfold over, upd. rewrite !mem_cons.
  destruct (String.eqb_spec k x) as [->|Hk]; cbn [orb].
  - now rewrite (proj2 (mem_not_In x l) Hx).
  - reflexivity.
Qed.

Lemma over_trait_out x l s base :
  ~ In x l -> incl s l ->
  forall k, over (x :: l) (fun k => mem k s) base k
            = over l (fun k => mem k s) (upd base x false) k.
Proof.
  intros Hx Hs k. unfold over, upd. rewrite mem_cons.
  destruct (String.eqb_spec k x) as [->|Hk]; cbn [orb].
  - rewrite (proj2 (mem_not_In x l) Hx). now apply mem_incl_false with l.
  - reflexivity.
Qed.

(** The trait subsets are the assignments of [true] / [false]. *)
Lemma trait_sets_isum l G :
  NoDup l -> extensional G ->
  forall base,
    Qsum (map (fun s => G (over l (fun k => mem k s) base)) (subsets l))
    = isum [true; false] l G base.
Proof.
  intros Hnd HG. induction Hnd as [|x l Hx Hnd IH]; intro base.
  - simpl. rewrite Qcplus_0_r. apply HG. intro k. reflexivity.
  - cbn [subsets isum map].
    rewrite map_app, map_map, Qsum_app.
    change (Qsum [isum [true; false] l G (upd base x true);
                  isum [true; false] l G (upd base x false)])
      with (isum [true; false] l G (upd base x true)
            + (isum [true; false] l G (upd base x false) + 0)).
    rewrite Qcplus_0_r, <- !IH. f_equal.
    + apply Qsum_map_ext_in. intros s Hs. apply HG.
      now apply over_trait_in.
    + apply Qsum_map_ext_in. intros s Hs. apply HG.
      apply over_trait_out; [exact Hx | now apply subsets_incl].
Qed.

Lemma genes_of_cons_one k x one_gene two_genes :
  k <> x -> genes_of (x :: one_gene) two_genes k
            = genes_of one_gene two_genes k.
Proof.
  intro Hk. unfold genes_of. rewrite mem_cons.
  destruct (String.eqb_spec k x); [contradiction | reflexivity].
Qed.

Lemma genes_of_cons_two k x one_gene two_genes :
  k <> x -> genes_of one_gene (x :: two_genes) k
            = genes_of one_gene two_genes k.
Proof.
  intro Hk. unfold genes_of. rewrite mem_cons.
  destruct (String.eqb_spec k x); [contradiction | reflexivity].
Qed.

Lemma over_gene_one x l one_gene two_genes base :
  ~ In x l -> incl two_genes l ->
  forall k, over (x :: l) (genes_of (x :: one_gene) two_genes) base k
            = over l (genes_of one_gene two_genes) (upd base x G1) k.
Proof.
  intros Hx H2 k. unfold over, upd. rewrite mem_cons.
  destruct (String.eqb_spec k x) as [->|Hk]; cbn [orb].
  - rewrite (proj2 (mem_not_In x l) Hx). unfold genes_of.
    rewrite (@mem_incl_false x _ _ H2 Hx), mem_cons, String.eqb_refl.
    reflexivity.
  - now rewrite genes_of_cons_one.
Qed.

Lemma over_gene_two x l one_gene two_genes base :
  ~ In x l ->
  forall k, over (x :: l) (genes_of one_gene (x :: two_genes)) base k
            = over l (genes_of one_gene two_genes) (upd base x G2) k.
Proof.
  intros Hx k. unfold over, upd. rewrite mem_cons.
  destruct (String.eqb_spec k x) as [->|Hk]; cbn [orb].
  - rewrite (proj2 (mem_not_In x l) Hx). unfold genes_of.
    rewrite mem_cons, String.eqb_refl. reflexivity.
  - now rewrite genes_of_cons_two.
Qed.

Lemma over_gene_zero x l one_gene two_genes base :
  ~ In x l -> incl one_gene l -> incl two_genes l ->
  forall k, over (x :: l) (genes_of one_gene two_genes) base k
            = over l (genes_of one_gene two_genes) (upd base x G0) k.
Proof.
  intros Hx H1 H2 k. unfold over, upd. rewrite mem_cons.
  destruct (String.eqb_spec k x) as [->|Hk]; cbn [orb].
  - rewrite (proj2 (mem_not_In x l) Hx). unfold genes_of.
    now rewrite (@mem_incl_false x _ _ H2 Hx), (@mem_incl_false x _ _ H1 Hx).
  - reflexivity.
Qed.

Lemma set_diff_cons_in x l one_gene :
  ~ In x l -> set_diff (x :: l) (x :: one_gene) = set_diff l one_gene.
Proof.
  intro Hx. unfold set_diff. cbn [filter].
  rewrite mem_cons, String.eqb_refl. cbn [orb negb].
  apply filter_ext_in. intros k Hk. rewrite mem_cons.
  destruct (String.eqb_spec k x) as [->|_]; [contradiction | reflexivity].
Qed.

Lemma set_diff_cons_out x l one_gene :
  ~ In x one_gene -> set_diff (x :: l) one_gene = x :: set_diff l one_gene.
Proof.
  intro Hx. unfold set_diff. cbn [filter].
  now rewrite (proj2 (mem_not_In x one_gene) Hx).
Qed.

(** The order in which [isum] takes the three gene counts. *)
Definition gene_values : list genes := [G1; G2; G0].
Definition trait_values : list bool := [true; false].

(** The pairs (one-gene subset, two-gene subset of the others) are the
    assignments of a gene count. *)
Lemma gene_sets_isum l G :
  NoDup l -> extensional G ->
  forall base,
    Qsum (map (fun one_gene =>
                 Qsum (map (fun two_genes =>
                              G (over l (genes_of one_gene two_genes) base))
                           (subsets (set_diff l one_gene))))
              (subsets l))
    = isum gene_values l G base.
Proof.
  intros Hnd HG. induction Hnd as [|x l Hx Hnd IH]; intro base.
  - simpl. rewrite !Qcplus_0_r. apply HG. intro k. reflexivity.
  - cbn [subsets isum map]. rewrite map_app, map_map, Qsum_app.
    change (Qsum (map (fun v => isum gene_values l G (upd base x v))
                      gene_values))
      with (isum gene_values l G (upd base x G1)
            + (isum gene_values l G (upd base x G2)
               + (isum gene_values l G (upd base x G0) + 0))).
    rewrite Qcplus_0_r, <- !IH. f_equal.
    + apply Qsum_map_ext_in. intros one_gene H1.
      rewrite (@set_diff_cons_in x l one_gene Hx).
      apply Qsum_map_ext_in. intros two_genes H2. apply HG.
      apply over_gene_one; [exact Hx|].
      intros k Hk. apply (set_diff_incl l one_gene).
      revert k Hk. now apply subsets_incl.
    + rewrite <- Qsum_map_add.
      apply Qsum_map_ext_in. intros one_gene H1.
      assert (Hi1 : incl one_gene l) by now apply subsets_incl.
      rewrite (@set_diff_cons_out x l one_gene)
        by (intro H; apply Hx, Hi1, H).
      cbn [subsets]. rewrite map_app, map_map, Qsum_app. f_equal.
      * apply Qsum_map_ext_in. intros two_genes H2. apply HG.
        now apply over_gene_two.
      * apply Qsum_map_ext_in. intros two_genes H2. apply HG.
        apply over_gene_zero; [exact Hx | exact Hi1 |].
        intros k Hk. apply (set_diff_incl l one_gene).
        revert k Hk. now apply subsets_incl.
Qed.

(** ** The joint probability of an assignment *)

Definition parent_genes (gamma : string -> genes) (parent : option string)
    : genes :=
  match parent with
  | Some x => gamma x
  | None => G0
  end.

(** One person's factor under a gene assignment [gamma] and a trait
    assignment [tau]. *)
Definition factor (gamma : string -> genes) (tau : string -> bool)
    (kv : string * person) : Qc :=
  (if Spec.founder (snd kv) then Spec.genePrior (gamma (fst kv))
   else Spec.childProbability (gamma (fst kv))
          (Spec.passProbability (parent_genes gamma (mother (snd kv))))
          (Spec.passProbability (parent_genes gamma (father (snd kv)))))
  * Spec.traitGivenGene (gamma (fst kv)) (tau (fst kv)).

Definition joint (people : family) (gamma : string -> genes)
    (tau : string -> bool) : Qc :=
  Qprod (map (factor gamma tau) people).

Lemma joint_probability_joint people one_gene two_genes have_trait :
  joint_probability (F:=Qc) people one_gene two_genes have_trait
  = joint people (genes_of one_gene two_genes) (fun k => mem k have_trait).
Proof.
  rewrite joint_probability_Qprod. unfold joint. f_equal.
  apply map_ext. intro kv. rewrite gene_probability_spec.
  unfold factor, Spec.geneCountProbability.
  destruct (mother (snd kv)), (father (snd kv)); reflexivity.
Qed.

(** Functions of a gene and a trait assignment that look at values only. *)
Definition extensional2 (H : (string -> genes) -> (string -> bool) -> Qc)
    : Prop :=
  forall gamma gamma' tau tau',
    (forall k, gamma k = gamma' k) -> (forall k, tau k = tau' k) ->
    H gamma tau = H gamma' tau'.

Lemma factor_ext kv : extensional2 (fun gamma tau => factor gamma tau kv).
Proof.
  intros gamma gamma' tau tau' Hg Ht. unfold factor, parent_genes.
  rewrite Hg, Ht.
  destruct (mother (snd kv)), (father (snd kv)); rewrite ?Hg; reflexivity.
Qed.

Lemma joint_ext people : extensional2 (joint people).
Proof.
  intros gamma gamma' tau tau' Hg Ht. unfold joint. f_equal.
  apply map_ext. intro kv. now apply factor_ext.
Qed.

(** The sum over every trait assignment and every gene assignment of the
    names [l]. *)
Definition esum (l : list string)
    (H : (string -> genes) -> (string -> bool) -> Qc)
    (gamma0 : string -> genes) (tau0 : string -> bool) : Qc :=
  isum trait_values l
       (fun tau => isum gene_values l (fun gamma => H gamma tau) gamma0)
       tau0.

Lemma esum_ext l H H' gamma0 tau0 :
  (forall gamma tau, H gamma tau = H' gamma tau) ->
  esum l H gamma0 tau0 = esum l H' gamma0 tau0.
Proof.
  intro E. unfold esum. apply isum_ext. intro tau.
  apply isum_ext. intro gamma. apply E.
Qed.

Lemma esum_inner_ext l H gamma0 :
  extensional2 H ->
  extensional (fun tau => isum gene_values l (fun gamma => H gamma tau) gamma0).
Proof.
  intros HH tau tau' Ht. apply isum_ext. intro gamma.
  apply HH; [reflexivity | exact Ht].
Qed.

(** The three loops of [main], evidence test left out, visit every pair of a
    trait assignment and a gene assignment once. *)
Lemma all_hypotheses_esum people H :
  NoDup (names people) -> extensional2 H ->
  Qsum (map (fun h : hypothesis =>
               H (genes_of (fst (fst h)) (snd (fst h)))
                 (fun k => mem k (snd h)))
            (all_hypotheses people))
  = esum (names people) H (fun _ => G0) (fun _ => false).
Proof.
  intros Hnd HH. unfold all_hypotheses, esum.
  rewrite Qsum_flat_map.
  rewrite (Qsum_map_perm _ (powerset_subsets (names people))).
  rewrite <- (trait_sets_isum Hnd (esum_inner_ext _ _ HH)).
  apply Qsum_map_ext_in. intros have_trait Ht.
  assert (Hit : incl have_trait (names people)) by now apply subsets_incl.
  unfold gene_hypotheses. rewrite Qsum_flat_map.
  rewrite (Qsum_map_perm _ (powerset_subsets (names people))).
  rewrite <- (@gene_sets_isum (names people)
                (fun gamma => H gamma
                   (over (names people) (fun k => mem k have_trait)
                         (fun _ => false))) Hnd).
  - apply Qsum_map_ext_in. intros one_gene H1.
    assert (Hi1 : incl one_gene (names people)) by now apply subsets_incl.
    rewrite map_map. cbn [fst snd].
    rewrite (Qsum_map_perm _
               (powerset_subsets (set_diff (names people) one_gene))).
    apply Qsum_map_ext_in. intros two_genes H2.
    assert (Hi2 : incl two_genes (names people)).
    { intros k Hk. apply (set_diff_incl (names people) one_gene).
      revert k Hk. now apply subsets_incl. }
    apply HH; intro k; unfold over.
    + destruct (mem k (names people)) eqn:Hk; [reflexivity|].
      apply mem_not_In in Hk. unfold genes_of.
      now rewrite (@mem_incl_false k _ _ Hi2 Hk),
                  (@mem_incl_false k _ _ Hi1 Hk).
    + destruct (mem k (names people)) eqn:Hk; [reflexivity|].
      apply mem_not_In in Hk. apply (@mem_incl_false k _ _ Hit Hk).
  - intros gamma gamma' Hg. apply HH; [exact Hg | reflexivity].
Qed.

(** ** Summing a person out *)

(** Summing over the values of one name [x] can be done last. *)
Lemma esum_marginal l1 x l2 H gamma0 tau0 :
  ~ In x l2 -> extensional2 H ->
  esum (l1 ++ x :: l2) H gamma0 tau0
  = esum (l1 ++ l2)
         (fun gamma tau =>
            Qsum (map (fun b =>
                         Qsum (map (fun g => H (upd gamma x g) (upd tau x b))
                                   gene_values))
                      trait_values))
         gamma0 tau0.
Proof.
  intros Hx HH. unfold esum.
  rewrite (@isum_marginal bool trait_values l1 x l2 _ tau0 Hx
             (esum_inner_ext _ _ HH)).
  apply isum_ext. intro tau.
  rewrite isum_Qsum. apply Qsum_map_ext. intro b.
  apply isum_marginal; [exact Hx|].
  intros gamma gamma' Hg. apply HH; [exact Hg | reflexivity].
Qed.

(** Nobody in [people] names [x] as a parent. *)
Definition leaf (x : string) (people : family) : Prop :=
  forall kv, In kv people ->
             mother (snd kv) <> Some x /\ father (snd kv) <> Some x.

Lemma parent_genes_upd gamma x g parent :
  parent <> Some x -> parent_genes (upd gamma x g) parent
                      = parent_genes gamma parent.
Proof.
  intro Hp. destruct parent as [p|]; [|reflexivity]. cbn [parent_genes].
  unfold upd. destruct (String.eqb_spec p x); [congruence | reflexivity].
Qed.

(** The factor of a person other than [x] who does not descend from [x]
    ignores the values given to [x]. *)
Lemma factor_upd_other gamma tau x g b kv :
  fst kv <> x -> mother (snd kv) <> Some x -> father (snd kv) <> Some x ->
  factor (upd gamma x g) (upd tau x b) kv = factor gamma tau kv.
Proof.
  intros Hk Hm Hf. unfold factor.
  rewrite !parent_genes_upd by assumption.
  unfold upd. destruct (String.eqb_spec (fst kv) x); [contradiction|].
  reflexivity.
Qed.

Lemma joint_upd_others gamma tau x g b people :
  ~ In x (names people) -> leaf x people ->
  joint people (upd gamma x g) (upd tau x b) = joint people gamma tau.
Proof.
  intros Hx Hl. unfold joint. f_equal. apply map_ext_in. intros kv Hkv.
  destruct (Hl kv Hkv) as [Hm Hf].
  apply factor_upd_other; try assumption.
  intro E. apply Hx. rewrite <- E. unfold names. now apply in_map.
Qed.

Lemma trait_given_gene_total g :
  Spec.traitGivenGene g false = 1 - Spec.traitGivenGene g true.
Proof. destruct g; qc_eq. Qed.

Lemma gene_prior_total :
  Spec.genePrior G1 + Spec.genePrior G2 + Spec.genePrior G0 = 1.
Proof. qc_eq. Qed.

Lemma child_probability_total pm pf :
  Spec.childProbability G1 pm pf + Spec.childProbability G2 pm pf
  + Spec.childProbability G0 pm pf = 1.
Proof. unfold Spec.childProbability. ring. Qed.

(** The factors of [x] over its six (trait, gene count) values sum to 1
    when [x] is not its own parent. *)
Lemma factor_total gamma tau x row :
  mother row <> Some x -> father row <> Some x ->
  Qsum (map (fun b =>
               Qsum (map (fun g => factor (upd gamma x g) (upd tau x b)
                                          (x, row))
                         gene_values))
            trait_values) = 1.
Proof.
  intros Hm Hf. unfold factor. cbn [fst snd map gene_values trait_values Qsum
                                    fold_right].
  rewrite !parent_genes_upd by assumption.
  unfold upd. rewrite String.eqb_refl.
  rewrite !trait_given_gene_total.
  destruct (Spec.founder row).
  - generalize gene_prior_total. intro E.
    set (t1 := Spec.traitGivenGene G1 true).
    set (t2 := Spec.traitGivenGene G2 true).
    set (t0 := Spec.traitGivenGene G0 true).
    etransitivity; [|exact E]. ring.
  - set (pm := Spec.passProbability (parent_genes gamma (mother row))).
    set (pf := Spec.passProbability (parent_genes gamma (father row))).
    generalize (child_probability_total pm pf). intro E.
    set (t1 := Spec.traitGivenGene G1 true).
    set (t2 := Spec.traitGivenGene G2 true).
    set (t0 := Spec.traitGivenGene G0 true).
    etransitivity; [|exact E]. ring.
Qed.

Lemma Qprod_cons (x : Qc) (l : list Qc) : Qprod (x :: l) = x * Qprod l.
Proof. reflexivity. Qed.

Lemma Qprod_app (l1 l2 : list Qc) : Qprod (l1 ++ l2) = Qprod l1 * Qprod l2.
Proof. induction l1 as [|x l1 IH]; simpl; [|rewrite IH]; ring. Qed.

Lemma joint_app people1 people2 gamma tau :
  joint (people1 ++ people2) gamma tau
  = joint people1 gamma tau * joint people2 gamma tau.
Proof. unfold joint. now rewrite map_app, Qprod_app. Qed.

Lemma leaf_app_inv x people1 kv people2 :
  leaf x (people1 ++ kv :: people2) ->
  leaf x people1 /\ leaf x people2
  /\ mother (snd kv) <> Some x /\ father (snd kv) <> Some x.
Proof.
  intro H. split; [|split].
  - intros kv' Hkv'. apply H, in_or_app. now left.
  - intros kv' Hkv'. apply H, in_or_app. right. now right.
  - apply (H kv), in_or_app. right. now left.
Qed.

(** A leaf [x] of the family can be summed out: the weighted total over the
    family equals the weighted total over the family without [x], for a
    weight [W] that does not look at [x]. *)
Lemma eliminate_leaf people1 x row people2 W gamma0 tau0 :
  NoDup (names (people1 ++ (x, row) :: people2)) ->
  leaf x (people1 ++ (x, row) :: people2) ->
  extensional2 W ->
  (forall gamma tau g b, W (upd gamma x g) (upd tau x b) = W gamma tau) ->
  esum (names (people1 ++ (x, row) :: people2))
       (fun gamma tau =>
          W gamma tau * joint (people1 ++ (x, row) :: people2) gamma tau)
       gamma0 tau0
  = esum (names (people1 ++ people2))
         (fun gamma tau => W gamma tau * joint (people1 ++ people2) gamma tau)
         gamma0 tau0.
Proof.
  intros Hnd Hleaf HW Hind.
  unfold names in *. rewrite !map_app in *. cbn [map fst] in *.
  assert (Hx := NoDup_remove_2 _ _ _ Hnd).
  assert (Hx1 : ~ In x (map fst people1))
    by (intro; apply Hx, in_or_app; now left).
  assert (Hx2 : ~ In x (map fst people2))
    by (intro; apply Hx, in_or_app; now right).
  destruct (leaf_app_inv _ _ _ Hleaf) as [Hl1 [Hl2 [Hm Hf]]].
  cbn [snd] in Hm, Hf.
  rewrite esum_marginal; [|exact Hx2|].
  - apply esum_ext. intros gamma tau.
    rewrite joint_app.
    rewrite (Qsum_map_ext
               (fun b => Qsum (map (fun g =>
                   W (upd gamma x g) (upd tau x b)
                   * joint (people1 ++ (x, row) :: people2)
                           (upd gamma x g) (upd tau x b)) gene_values))
               (fun b => (W gamma tau * joint people1 gamma tau
                          * joint people2 gamma tau)
                         * Qsum (map (fun g => factor (upd gamma x g)
                                                 (upd tau x b) (x, row))
                                     gene_values))).
    + rewrite Qsum_map_mul_l, (@factor_total gamma tau x row Hm Hf). ring.
    + intro b. rewrite <- Qsum_map_mul_l. apply Qsum_map_ext. intro g.
      rewrite Hind, joint_app.
      change (joint ((x, row) :: people2) (upd gamma x g) (upd tau x b))
        with (factor (upd gamma x g) (upd tau x b) (x, row)
              * joint people2 (upd gamma x g) (upd tau x b)).
      rewrite (@joint_upd_others gamma tau x g b people1 Hx1 Hl1).
      rewrite (@joint_upd_others gamma tau x g b people2 Hx2 Hl2).
      ring.
  - intros gamma gamma' tau tau' Hg Ht.
    rewrite (HW _ _ _ _ Hg Ht), (@joint_ext _ _ _ _ _ Hg Ht). reflexivity.
Qed.

(** ** Acyclic families *)

(** [rank] numbers the generations: every parent named by a person of
    [people] has a smaller number than the person. *)
Definition ranked (rank : string -> nat) (people : family) : Prop :=
  forall k row, In (k, row) people ->
    forall p, mother row = Some p \/ father row = Some p ->
              (rank p < rank k)%nat.

Lemma ranked_incl rank people people' :
  incl people' people -> ranked rank people -> ranked rank people'.
Proof. intros Hi Hr k row Hin. apply Hr. apply Hi, Hin. Qed.

(** A non-empty family has a person of greatest rank. *)
Lemma max_rank_split (rank : string -> nat) (people : family) :
  people <> [] ->
  exists people1 x row people2,
    people = people1 ++ (x, row) :: people2
    /\ forall kv, In kv people -> (rank (fst kv) <= rank x)%nat.
Proof.
  induction people as [|[k row] rest IH]; [congruence|]. intros _.
  destruct rest as [|kv' rest'].
  - exists [], k, row, []. split; [reflexivity|].
    intros kv [<-|[]]. cbn [fst]. lia.
  - destruct IH as [p1 [x [r [p2 [E Hmax]]]]]; [discriminate|].
    destruct (Nat.le_gt_cases (rank k) (rank x)) as [Hle|Hgt].
    + exists ((k, row) :: p1), x, r, p2. split.
      * rewrite E. reflexivity.
      * intros kv [<-|Hin]; [exact Hle | apply Hmax, Hin].
    + exists [], k, row, (kv' :: rest'). split; [reflexivity|].
      intros kv [<-|Hin]; [cbn [fst]; lia|].
      specialize (Hmax kv Hin). lia.
Qed.

(** A person of greatest rank is nobody's parent. *)
Lemma max_rank_leaf rank people x :
  ranked rank people ->
  (forall kv, In kv people -> (rank (fst kv) <= rank x)%nat) ->
  leaf x people.
Proof.
  intros Hr Hmax [k row] Hin. cbn [snd].
  specialize (Hmax _ Hin). cbn [fst] in Hmax.
  split; intro E.
  - specialize (Hr k row Hin x (or_introl E)). lia.
  - specialize (Hr k row Hin x (or_intror E)). lia.
Qed.

(** Probability mass conservation: over an acyclic family the joint
    probabilities of all assignments sum to 1. *)
Lemma esum_joint_total rank :
  forall n people, List.length people = n ->
    NoDup (names people) -> ranked rank people ->
    forall gamma0 tau0,
      esum (names people) (fun gamma tau => 1 * joint people gamma tau)
           gamma0 tau0 = 1.
Proof.
  induction n as [|n IH]; intros people Hlen Hnd Hr gamma0 tau0.
  - destruct people; [|discriminate]. unfold esum, joint. simpl. ring.
  - destruct (@max_rank_split rank people) as [p1 [x [row [p2 [E Hmax]]]]].
    { intro; subst; discriminate. }
    assert (Hleaf := @max_rank_leaf rank people x Hr Hmax). subst people.
    rewrite eliminate_leaf; try assumption.
    + apply IH.
      * rewrite length_app in *. cbn [List.length] in Hlen. lia.
      * unfold names in *. rewrite map_app in *. cbn [map] in Hnd.
        now apply NoDup_remove_1 in Hnd.
      * eapply ranked_incl; [|exact Hr].
        intros kv Hkv. apply in_app_or in Hkv. apply in_or_app.
        destruct Hkv; [now left | right; now right].
    + intros gamma gamma' tau tau' _ _. reflexivity.
    + reflexivity.
Qed.

(** ** C3: probability mass conservation *)

Section Total.
Context {F : Type} {AF : Arith F}.

(** The sum of [joint_probability] over the whole hypothesis space, taken in
    the order of the loops of [main]. *)
Definition total_probability (people : family) : F :=
  sum_values
    (map (fun h : hypothesis =>
            joint_probability people (fst (fst h)) (snd (fst h)) (snd h))
         (all_hypotheses people)).

End Total.

(** A valid family graph in the words of the claim: every person is a
    founder or has two parents present in the graph. *)
Definition valid (people : family) : bool :=
  forallb (fun kv =>
             match mother (snd kv), father (snd kv) with
             | None, None => true
             | Some m, Some f =>
                 mem m (names people) && mem f (names people)
             | _, _ => false
             end) people.

Lemma total_probability_esum people :
  NoDup (names people) ->
  total_probability (F:=Qc) people
  = esum (names people) (fun gamma tau => 1 * joint people gamma tau)
         (fun _ => G0) (fun _ => false).
Proof.
  intro Hnd. unfold total_probability. rewrite sum_values_Qsum.
  rewrite <- (@all_hypotheses_esum people
                (fun gamma tau => 1 * joint people gamma tau) Hnd).
  - apply Qsum_map_ext. intro h. rewrite joint_probability_joint. ring.
  - intros gamma gamma' tau tau' Hg Ht.
    now rewrite (@joint_ext people _ _ _ _ Hg Ht).
Qed.

(** C3, amended.  For every valid family graph whose parent links are
    acyclic (some numbering of the generations gives every parent a smaller
    number than the child), the sum of [joint_probability] over the whole
    unfiltered hypothesis space equals 1, in exact arithmetic. *)
Theorem total_probability_one (people : family) (rank : string -> nat) :
  NoDup (names people) ->
  valid people = true ->
  ranked rank people ->
  total_probability (F:=Qc) people = 1.
Proof.
  intros Hnd _ Hr. rewrite (@total_probability_esum people Hnd).
  now apply (@esum_joint_total rank (List.length people)).
Qed.

Definition example_rank (x : string) : nat :=
  if String.eqb x "Harry" then 1 else 0.

Lemma example_people_ranked : ranked example_rank example_people.
Proof.
  intros k row Hin p Hp.
  destruct Hin as [E|[E|[E|[]]]]; inversion E; subst; cbn in Hp;
    destruct Hp as [Hp|Hp]; inversion Hp; subst; vm_compute; lia.
Qed.

Lemma example_people_nodup : NoDup (names example_people).
Proof.
  repeat constructor; cbn; intuition discriminate.
Qed.

Lemma total_probability_one_witness :
  total_probability (F:=Qc) example_people = 1.
Proof.
  apply (@total_probability_one example_people example_rank).
  - exact example_people_nodup.
  - reflexivity.
  - exact example_people_ranked.
Defined.

(** A person recorded as their own mother and father: every person has two
    parents present in the graph, yet the links form a cycle. *)
Definition self_parent : family :=
  [("A", {| mother := Some "A"; father := Some "A"; trait := None |})].

(** C3 as the specification words it fails on a graph that is valid in its
    sense but cyclic: the six joint probabilities sum to 2.4602
    (0.9801 + 0.5 + 0.9801), in exact arithmetic and, up to rounding, in
    binary64.  On the acyclic example family the binary64 sum is
    0.99999999999999889: within 1e-12 of 1.0, not equal to it. *)
Lemma total_probability_cyclic :
  (valid self_parent = true
   /\ this (total_probability (F:=Qc) self_parent) = (12301 # 5000)%Q
   /\ PrimFloat.ltb (lit 246 2) (total_probability (F:=float) self_parent)
      = true)
  /\ (PrimFloat.ltb (total_probability (F:=float) example_people) (lit 10 1)
      = true
      /\ PrimFloat.ltb (sub (lit 10 1) (lit 1 12))
           (total_probability (F:=float) example_people) = true).
Proof. repeat split; vm_compute; reflexivity. Qed.

(** ** The accumulated buckets as sums over the hypotheses *)

Section Entries.
Context {F : Type} {AF : Arith F}.

(** What one hypothesis does to one entry of [probabilities]. *)
Definition entry_step (people : family) (kv : string * dist (F:=F))
    (h : hypothesis) : string * dist :=
  update_person (fst (fst h)) (snd (fst h)) (snd h)
    (joint_probability people (fst (fst h)) (snd (fst h)) (snd h)) kv.

Lemma accumulate_step_map people (t : table) h :
  accumulate_step people t h = map (fun kv => entry_step people kv h) t.
Proof. destruct h as [[one_gene two_genes] have_trait]. reflexivity. Qed.

(** The loops treat the entries independently of each other. *)
Lemma fold_accumulate_entries people hs (t : table) :
  fold_left (accumulate_step people) hs t
  = map (fun kv => fold_left (entry_step people) hs kv) t.
Proof.
  revert t. induction hs as [|h hs IH]; intro t; cbn [fold_left].
  - symmetry. apply map_id.
  - rewrite IH, accumulate_step_map, map_map. reflexivity.
Qed.

Lemma fold_entry_key people hs kv :
  fst (fold_left (entry_step people) hs kv) = fst kv.
Proof.
  revert kv. induction hs as [|h hs IH]; intro kv; cbn [fold_left].
  - reflexivity.
  - rewrite IH. reflexivity.
Qed.

End Entries.

(** The share of hypothesis [h] in the bucket [g] (resp. [b]) of person
    [k]. *)
Definition contrib_gene (people : family) (k : string) (g : genes)
    (h : hypothesis) : Qc :=
  if genes_eqb g (genes_of (fst (fst h)) (snd (fst h)) k)
  then joint_probability people (fst (fst h)) (snd (fst h)) (snd h)
  else 0.

Definition contrib_trait (people : family) (k : string) (b : bool)
    (h : hypothesis) : Qc :=
  if Bool.eqb b (mem k (snd h))
  then joint_probability people (fst (fst h)) (snd (fst h)) (snd h)
  else 0.

Lemma fold_entry_buckets people hs k (d : dist (F:=Qc)) :
  (forall g,
     gene_bucket (snd (fold_left (entry_step people) hs (k, d))) g
     = gene_bucket d g + Qsum (map (contrib_gene people k g) hs))
  /\ (forall b,
        trait_bucket (snd (fold_left (entry_step people) hs (k, d))) b
        = trait_bucket d b + Qsum (map (contrib_trait people k b) hs)).
Proof.
  revert d. induction hs as [|h hs IH]; intro d; cbn [fold_left map].
  - split; intros; cbn [snd]; rewrite Qsum_nil; ring.
  - unfold entry_step at 2 4. unfold update_person. cbn [fst snd].
    destruct (IH (add_trait
                    (add_gene d (genes_of (fst (fst h)) (snd (fst h)) k)
                       (joint_probability people (fst (fst h))
                          (snd (fst h)) (snd h)))
                    (mem k (snd h))
                    (joint_probability people (fst (fst h))
                       (snd (fst h)) (snd h)))) as [IHg IHt].
    destruct (update_person_bumped (fst (fst h)) (snd (fst h)) (snd h)
                (joint_probability people (fst (fst h)) (snd (fst h))
                   (snd h)) (k, d)) as [_ [Bg [Bt _]]].
    unfold update_person in Bg, Bt. cbn [fst snd] in Bg, Bt.
    split.
    + intro g. rewrite Qsum_cons, IHg, Bg. unfold contrib_gene. to_qc.
      destruct (genes_eqb g (genes_of (fst (fst h)) (snd (fst h)) k)); ring.
    + intro b. rewrite Qsum_cons, IHt, Bt. unfold contrib_trait. to_qc.
      destruct (Bool.eqb b (mem k (snd h))); ring.
Qed.

Lemma contrib_gene_total people k h :
  contrib_gene people k G2 h + contrib_gene people k G1 h
  + contrib_gene people k G0 h
  = joint_probability people (fst (fst h)) (snd (fst h)) (snd h).
Proof.
  unfold contrib_gene.
  destruct (genes_of (fst (fst h)) (snd (fst h)) k); cbn; ring.
Qed.

Lemma contrib_trait_total people k h :
  contrib_trait people k true h + contrib_trait people k false h
  = joint_probability people (fst (fst h)) (snd (fst h)) (snd h).
Proof.
  unfold contrib_trait. destruct (mem k (snd h)); cbn; ring.
Qed.

(** ** Allele systems

    A gene count is the sum of two alleles, one drawn from each parent.  The
    sum of the joint probabilities of a family is studied on this finer
    level: binary variables (one per allele), each with a factor
    [1/2 + s (c + lin)] where [s] is the sign of the variable, [c] a
    constant and [lin] a linear form in the signs of other variables.  The
    total of such a system does not depend on the constants, whatever the
    references between the variables (cycles included). *)

Definition sgn (b : bool) : Qc := if b then 1 else - (1).

Lemma sgn_square b : sgn b * sgn b = 1.
Proof. destruct b; unfold sgn; ring. Qed.

Inductive slot :=
| Lone
| Full (c : Qc) (ws : list (Qc * string)).

Definition lin (ws : list (Qc * string)) (sigma : string -> bool) : Qc :=
  Qsum (map (fun lw => fst lw * sgn (sigma (snd lw))) ws).

Definition slot_val (sigma : string -> bool) (e : string * slot) : Qc :=
  match snd e with
  | Lone => sgn (sigma (fst e))
  | Full c ws => half + sgn (sigma (fst e)) * (c + lin ws sigma)
  end.

Definition slots_val (fs : list (string * slot)) (sigma : string -> bool)
    : Qc :=
  Qprod (map (slot_val sigma) fs).

Definition slots_total (fs : list (string * slot)) (base : string -> bool)
    : Qc :=
  isum trait_values (map fst fs) (slots_val fs) base.

(** The references to [t] taken out of an entry: what is left, and the
    coefficient they carried. *)
Definition strip (t : string) (e : string * slot) : string * slot :=
  (fst e,
   match snd e with
   | Lone => Lone
   | Full c ws => Full c (filter (fun lw => negb (String.eqb (snd lw) t)) ws)
   end).

Definition coeff (t : string) (e : string * slot) : Qc :=
  match snd e with
  | Lone => 0
  | Full c ws =>
      Qsum (map fst (filter (fun lw => String.eqb (snd lw) t) ws))
  end.

Definition lone (e : string * slot) : string * slot := (fst e, Lone).

Lemma lin_ext ws sigma sigma' :
  (forall k, sigma k = sigma' k) -> lin ws sigma = lin ws sigma'.
Proof.
  intro H. unfold lin. apply Qsum_map_ext. intro lw. now rewrite H.
Qed.

Lemma slot_val_ext e sigma sigma' :
  (forall k, sigma k = sigma' k) -> slot_val sigma e = slot_val sigma' e.
Proof.
  intro H. unfold slot_val. destruct (snd e) as [|c ws].
  - now rewrite H.
  - now rewrite H, (lin_ext ws _ _ H).
Qed.

Lemma slots_val_ext fs : extensional (slots_val fs).
Proof.
  intros sigma sigma' H. unfold slots_val. f_equal.
  apply map_ext. intro e. now apply slot_val_ext.
Qed.

Lemma lin_upd ws sigma t b :
  lin ws (upd sigma t b)
  = lin (filter (fun lw => negb (String.eqb (snd lw) t)) ws) sigma
    + Qsum (map fst (filter (fun lw => String.eqb (snd lw) t) ws)) * sgn b.
Proof.
  unfold lin. induction ws as [|[l w] ws IH]; cbn [map filter fst snd].
  - rewrite !Qsum_nil. ring.
  - rewrite Qsum_cons, IH. unfold upd at 1.
    destruct (String.eqb w t); cbn [negb map fst snd];
      rewrite ?Qsum_cons; cbn [fst snd]; ring.
Qed.

Lemma slot_val_upd sigma t b e :
  fst e <> t ->
  slot_val (upd sigma t b) e
  = slot_val sigma (strip t e)
    + coeff t e * (sgn b * slot_val sigma (lone e)).
Proof.
  intro Hk. unfold slot_val, strip, coeff, lone. cbn [fst snd].
  assert (E : upd sigma t b (fst e) = sigma (fst e)).
  { unfold upd. destruct (String.eqb_spec (fst e) t); [contradiction|].
    reflexivity. }
  rewrite E. destruct (snd e) as [|c ws].
  - ring.
  - rewrite lin_upd. ring.
Qed.

(** The product of the entries of [fs] as a function of the sign of [t]:
    the part that is even in that sign and the part that is odd. *)
Fixpoint even_odd (t : string) (fs : list (string * slot))
    (sigma : string -> bool) : Qc * Qc :=
  match fs with
  | [] => (1, 0)
  | e :: r =>
      let a := slot_val sigma (strip t e) in
      let l := coeff t e * slot_val sigma (lone e) in
      (a * fst (even_odd t r sigma) + l * snd (even_odd t r sigma),
       a * snd (even_odd t r sigma) + l * fst (even_odd t r sigma))
  end.

Lemma slots_val_upd sigma t b fs :
  ~ In t (map fst fs) ->
  slots_val fs (upd sigma t b)
  = fst (even_odd t fs sigma) + sgn b * snd (even_odd t fs sigma).
Proof.
  unfold slots_val. induction fs as [|e r IH]; intro Ht;
    cbn [map Qprod fold_right even_odd fst snd].
  - ring.
  - change (fold_right Qcmult 1 (map (slot_val (upd sigma t b)) r))
      with (Qprod (map (slot_val (upd sigma t b)) r)).
    rewrite IH by (intro H; apply Ht; now right).
    rewrite slot_val_upd by (intro H; apply Ht; now left).
    generalize (sgn_square b). intro Hs.
    set (s := sgn b) in *.
    set (a := slot_val sigma (strip t e)).
    set (l := slot_val sigma (lone e)).
    set (E := fst (even_odd t r sigma)).
    set (O := snd (even_odd t r sigma)).
    transitivity (a * E + coeff t e * l * O * (s * s)
                  + s * (a * O + coeff t e * l * E)); [ring|].
    rewrite Hs. ring.
Qed.

Lemma isum_add {V} (vals : list V) l (G G' : (string -> V) -> Qc) base :
  isum vals l (fun a => G a + G' a) base
  = isum vals l G base + isum vals l G' base.
Proof.
  revert base. induction l as [|x l IH]; intro base; simpl.
  - reflexivity.
  - rewrite (Qsum_map_ext _ _ vals (fun v => IH (upd base x v))).
    apply Qsum_map_add.
Qed.

Lemma isum_zero {V} (vals : list V) l (base : string -> V) :
  isum vals l (fun _ => 0) base = 0.
Proof.
  revert base. induction l as [|x l IH]; intro base; simpl.
  - reflexivity.
  - rewrite (Qsum_map_ext _ _ vals (fun v => IH (upd base x v))).
    apply Qsum_map_zero.
Qed.

Lemma slots_val_snoc fs e sigma :
  slots_val (fs ++ [e]) sigma = slots_val fs sigma * slot_val sigma e.
Proof.
  unfold slots_val. rewrite map_app, Qprod_app. simpl. ring.
Qed.

Lemma keys_snoc (fs : list (string * slot)) e e' r :
  fst e' = fst e ->
  map fst ((fs ++ [e']) ++ r) = map fst (fs ++ e :: r).
Proof.
  intro H. rewrite <- app_assoc. cbn [app]. rewrite !map_app. cbn [map].
  now rewrite H.
Qed.

Section LoneVanishes.
Variable n : nat.
Hypothesis IHn :
  forall fs, List.length fs = n -> NoDup (map fst fs) ->
             (exists u, In (u, Lone) fs) ->
             forall base, slots_total fs base = 0.
Variable t : string.

(** Every branch of the odd part carries an entry reduced to its sign. *)
Lemma lone_branches todo :
  forall done base,
    List.length (done ++ todo) = n ->
    NoDup (map fst (done ++ todo)) ->
    isum trait_values (map fst (done ++ todo))
         (fun sigma => slots_val done sigma * snd (even_odd t todo sigma))
         base = 0
    /\ ((exists u, In (u, Lone) done) ->
        isum trait_values (map fst (done ++ todo))
             (fun sigma => slots_val done sigma * fst (even_odd t todo sigma))
             base = 0).
Proof.
  induction todo as [|e r IH]; intros done base Hlen Hnd.
  - rewrite app_nil_r in *. cbn [even_odd fst snd]. split.
    + rewrite (isum_ext _ _ _ (fun _ => 0)) by (intro; ring).
      apply isum_zero.
    + intro HL.
      rewrite (isum_ext _ _ _ (slots_val done)) by (intro; ring).
      now apply IHn.
  - assert (Hs : fst (strip t e) = fst e) by reflexivity.
    assert (Hl : fst (lone e) = fst e) by reflexivity.
    assert (Ks := keys_snoc done e (strip t e) r Hs).
    assert (Kl := keys_snoc done e (lone e) r Hl).
    assert (Ls : List.length ((done ++ [strip t e]) ++ r) = n).
    { rewrite <- Hlen, !length_app. cbn [List.length]. lia. }
    assert (Ll : List.length ((done ++ [lone e]) ++ r) = n).
    { rewrite <- Hlen, !length_app. cbn [List.length]. lia. }
    destruct (IH (done ++ [strip t e]) base Ls) as [So Se];
      [rewrite Ks; exact Hnd|].
    destruct (IH (done ++ [lone e]) base Ll) as [Lo Le];
      [rewrite Kl; exact Hnd|].
    rewrite Ks in So, Se. rewrite Kl in Lo, Le.
    cbn [even_odd fst snd]. split.
    + rewrite (isum_ext _ _ _
                 (fun sigma =>
                    slots_val (done ++ [strip t e]) sigma
                    * snd (even_odd t r sigma)
                    + coeff t e
                      * (slots_val (done ++ [lone e]) sigma
                         * fst (even_odd t r sigma))))
        by (intro; rewrite !slots_val_snoc; ring).
      rewrite isum_add, isum_mul_l, So, Le; [ring|].
      exists (fst e). apply in_or_app. right. now left.
    + intros [u Hu].
      rewrite (isum_ext _ _ _
                 (fun sigma =>
                    slots_val (done ++ [strip t e]) sigma
                    * fst (even_odd t r sigma)
                    + coeff t e
                      * (slots_val (done ++ [lone e]) sigma
                         * snd (even_odd t r sigma))))
        by (intro; rewrite !slots_val_snoc; ring).
      rewrite isum_add, isum_mul_l, Lo, Se; [ring|].
      exists u. apply in_or_app. now left.
Qed.

End LoneVanishes.

(** A system in which some entry is reduced to the sign of its variable
    sums to zero. *)
Lemma lone_vanishes :
  forall n fs, List.length fs = n -> NoDup (map fst fs) ->
               (exists u, In (u, Lone) fs) ->
               forall base, slots_total fs base = 0.
Proof.
  induction n as [|n IH]; intros fs Hlen Hnd [t Ht] base.
  - destruct fs; [contradiction | discriminate].
  - destruct (in_split _ _ Ht) as [fs1 [fs2 E]]. subst fs.
    unfold slots_total. rewrite map_app. cbn [map fst].
    rewrite map_app in Hnd. cbn [map fst] in Hnd.
    assert (Hx := NoDup_remove_2 _ _ _ Hnd).
    assert (Hnd' := NoDup_remove_1 _ _ _ Hnd).
    rewrite (@isum_marginal bool trait_values (map fst fs1) t (map fst fs2)
               _ base).
    + rewrite <- map_app in *.
      rewrite (isum_ext _ _ _
                 (fun sigma =>
                    (1 + 1) * (slots_val [] sigma
                               * snd (even_odd t (fs1 ++ fs2) sigma)))).
      * rewrite isum_mul_l.
        destruct (@lone_branches n IH t (fs1 ++ fs2) [] base) as [Z _].
        -- rewrite length_app in Hlen. cbn [List.length] in Hlen.
           cbn [app]. rewrite length_app. lia.
        -- exact Hnd'.
        -- cbn [app] in Z. rewrite Z. ring.
      * intro sigma. cbn [trait_values map].
        rewrite !Qsum_cons, Qsum_nil.
        assert (P : forall b,
                   slots_val (fs1 ++ (t, Lone) :: fs2) (upd sigma t b)
                   = sgn b * slots_val (fs1 ++ fs2) (upd sigma t b)).
        { intro b. unfold slots_val. rewrite !map_app, !Qprod_app.
          cbn [map Qprod fold_right]. unfold slot_val at 2. cbn [fst snd].
          unfold upd at 2. rewrite String.eqb_refl.
          change (fold_right Qcmult 1 (map (slot_val (upd sigma t b)) fs2))
            with (Qprod (map (slot_val (upd sigma t b)) fs2)).
          ring. }
        rewrite !P, !(@slots_val_upd sigma t _ (fs1 ++ fs2) Hx).
        unfold slots_val, sgn. cbn [map Qprod fold_right]. ring.
    + intro H. apply Hx. apply in_or_app. now right.
    + apply slots_val_ext.
Qed.

Lemma isum_ext_on {V} (vals : list V) l (G G' : (string -> V) -> Qc) :
  forall base,
    (forall a, (forall k, ~ In k l -> a k = base k) -> G a = G' a) ->
    isum vals l G base = isum vals l G' base.
Proof.
  induction l as [|x l IH]; intros base H; simpl.
  - apply H. reflexivity.
  - apply Qsum_map_ext. intro v. apply IH. intros a Ha. apply H.
    intros k Hk. rewrite Ha by (intro; apply Hk; now right).
    unfold upd. destruct (String.eqb_spec k x) as [->|]; [|reflexivity].
    exfalso. apply Hk. now left.
Qed.

Lemma isum_base_on {V} (vals : list V) (L : list string)
    (G : (string -> V) -> Qc) :
  (forall a a', (forall k, In k L -> a k = a' k) -> G a = G a') ->
  forall l base base',
    (forall k, In k L -> ~ In k l -> base k = base' k) ->
    isum vals l G base = isum vals l G base'.
Proof.
  intros HG. induction l as [|x l IH]; intros base base' H; simpl.
  - apply HG. intros k Hk. apply H; [exact Hk | intros []].
  - apply Qsum_map_ext. intro v. apply IH. intros k Hk Hkl.
    unfold upd. destruct (String.eqb_spec k x) as [->|Hne]; [reflexivity|].
    apply H; [exact Hk|]. intros [E|Hin]; [congruence | contradiction].
Qed.

(** Changing the constant of one entry does not change the total. *)
Lemma slots_total_constant fs1 v c c' ws fs2 base :
  NoDup (map fst (fs1 ++ (v, Full c ws) :: fs2)) ->
  slots_total (fs1 ++ (v, Full c ws) :: fs2) base
  = slots_total (fs1 ++ (v, Full c' ws) :: fs2) base.
Proof.
  intro Hnd. unfold slots_total.
  assert (K : forall s, map fst (fs1 ++ (v, s) :: fs2)
                        = map fst (fs1 ++ (v, Full c ws) :: fs2)).
  { intro s. rewrite !map_app. reflexivity. }
  rewrite (K (Full c' ws)).
  rewrite (isum_ext _ _ _
             (fun sigma =>
                slots_val (fs1 ++ (v, Full c' ws) :: fs2) sigma
                + (c - c') * slots_val (fs1 ++ (v, Lone) :: fs2) sigma)).
  - rewrite isum_add, isum_mul_l.
    assert (Z := @lone_vanishes _ (fs1 ++ (v, Lone) :: fs2) eq_refl).
    unfold slots_total in Z. rewrite (K Lone) in Z. rewrite Z.
    + ring.
    + exact Hnd.
    + exists v. apply in_or_app. right. now left.
  - intro sigma. unfold slots_val. rewrite !map_app, !Qprod_app.
    cbn [map]. rewrite !Qprod_cons.
    change (slot_val sigma (v, Full c ws))
      with (half + sgn (sigma v) * (c + lin ws sigma)).
    change (slot_val sigma (v, Full c' ws))
      with (half + sgn (sigma v) * (c' + lin ws sigma)).
    change (slot_val sigma (v, Lone)) with (sgn (sigma v)).
    generalize (Qprod (map (slot_val sigma) fs1)),
               (Qprod (map (slot_val sigma) fs2)),
               (sgn (sigma v)), (lin ws sigma), half.
    intros. ring.
Qed.

(** Two entries with the same variable and the same references. *)
Definition same_shape (e e' : string * slot) : Prop :=
  fst e = fst e'
  /\ match snd e, snd e' with
     | Full _ ws, Full _ ws' => ws = ws'
     | _, _ => False
     end.

Lemma same_shape_keys fs fs' :
  Forall2 same_shape fs fs' -> map fst fs = map fst fs'.
Proof.
  induction 1 as [|e e' fs fs' [H _] _ IH]; cbn [map]; congruence.
Qed.

Lemma slots_total_shape_from pre fs fs' base :
  Forall2 same_shape fs fs' ->
  NoDup (map fst (pre ++ fs)) ->
  slots_total (pre ++ fs) base = slots_total (pre ++ fs') base.
Proof.
  intro H. revert pre.
  induction H as [|[v s] [v' s'] fs fs' [Hk Hs] _ IH]; intros pre Hnd.
  - reflexivity.
  - cbn [fst snd] in Hk, Hs. subst v'.
    destruct s as [|c ws], s' as [|c' ws']; try contradiction. subst ws'.
    rewrite (@slots_total_constant pre v c c' ws fs base Hnd).
    assert (E : forall l, pre ++ (v, Full c' ws) :: l
                          = (pre ++ [(v, Full c' ws)]) ++ l).
    { intro l. rewrite <- app_assoc. reflexivity. }
    rewrite (E fs), (E fs'). apply IH. rewrite <- (E fs).
    rewrite !map_app in *. exact Hnd.
Qed.

(** The total depends on the references only, not on the constants. *)
Lemma slots_total_shape fs fs' base :
  Forall2 same_shape fs fs' -> NoDup (map fst fs) ->
  slots_total fs base = slots_total fs' base.
Proof. intros H Hnd. now apply (@slots_total_shape_from [] fs fs' base). Qed.

(** References to variables outside [K] read the base assignment: they can
    be moved into the constant. *)
Definition fold_out (K : list string) (base : string -> bool)
    (e : string * slot) : string * slot :=
  (fst e,
   match snd e with
   | Lone => Lone
   | Full c ws =>
       Full (c + lin (filter (fun lw => negb (mem (snd lw) K)) ws) base)
            (filter (fun lw => mem (snd lw) K) ws)
   end).

Lemma lin_split K ws sigma :
  lin ws sigma
  = lin (filter (fun lw => mem (snd lw) K) ws) sigma
    + lin (filter (fun lw => negb (mem (snd lw) K)) ws) sigma.
Proof.
  unfold lin. induction ws as [|lw ws IH]; cbn [filter map].
  - rewrite Qsum_nil. ring.
  - rewrite Qsum_cons, IH.
    destruct (mem (snd lw) K); cbn [negb map]; rewrite Qsum_cons; ring.
Qed.

Lemma lin_outside K ws sigma base :
  (forall k, ~ In k K -> sigma k = base k) ->
  lin (filter (fun lw => negb (mem (snd lw) K)) ws) sigma
  = lin (filter (fun lw => negb (mem (snd lw) K)) ws) base.
Proof.
  intro H. unfold lin. apply Qsum_map_ext_in. intros lw Hlw.
  apply filter_In in Hlw. destruct Hlw as [_ Hm].
  apply negb_true_iff, mem_not_In in Hm. now rewrite (H _ Hm).
Qed.

Lemma lin_inside K ws sigma sigma' :
  (forall k, In k K -> sigma k = sigma' k) ->
  lin (filter (fun lw => mem (snd lw) K) ws) sigma
  = lin (filter (fun lw => mem (snd lw) K) ws) sigma'.
Proof.
  intro H. unfold lin. apply Qsum_map_ext_in. intros lw Hlw.
  apply filter_In in Hlw. destruct Hlw as [_ Hm].
  apply mem_In in Hm. now rewrite (H _ Hm).
Qed.

Lemma slot_val_fold_out K base sigma e :
  (forall k, ~ In k K -> sigma k = base k) ->
  slot_val sigma (fold_out K base e) = slot_val sigma e.
Proof.
  intro H. unfold slot_val, fold_out. cbn [fst snd].
  destruct (snd e) as [|c ws]; [reflexivity|].
  rewrite (lin_split K ws sigma), (lin_outside K ws sigma base H). ring.
Qed.

Lemma fold_out_keys K base fs :
  map fst (map (fold_out K base) fs) = map fst fs.
Proof. rewrite map_map. reflexivity. Qed.

Lemma slots_total_fold_out fs base :
  slots_total (map (fold_out (map fst fs) base) fs) base
  = slots_total fs base.
Proof.
  unfold slots_total. rewrite fold_out_keys.
  apply isum_ext_on. intros sigma H. unfold slots_val.
  rewrite map_map. f_equal. apply map_ext. intro e.
  now apply slot_val_fold_out.
Qed.

Lemma slots_val_fold_out_inside K base fs sigma sigma' :
  incl (map fst fs) K ->
  (forall k, In k K -> sigma k = sigma' k) ->
  slots_val (map (fold_out K base) fs) sigma
  = slots_val (map (fold_out K base) fs) sigma'.
Proof.
  intros Hi H. unfold slots_val. rewrite !map_map. f_equal.
  apply map_ext_in. intros e He.
  assert (Hk : In (fst e) K) by (apply Hi; now apply in_map).
  unfold slot_val, fold_out. cbn [fst snd].
  destruct (snd e) as [|c ws]; rewrite (H _ Hk); [reflexivity|].
  now rewrite (lin_inside K ws sigma sigma' H).
Qed.

Definition is_full (e : string * slot) : Prop :=
  match snd e with Full _ _ => True | Lone => False end.

Lemma fold_out_same_shape K base base' fs :
  Forall is_full fs ->
  Forall2 same_shape (map (fold_out K base) fs) (map (fold_out K base') fs).
Proof.
  induction 1 as [|e fs He _ IH]; cbn [map]; constructor; [|exact IH].
  unfold same_shape, fold_out, is_full in *. cbn [fst snd].
  destruct (snd e); [contradiction|]. split; reflexivity.
Qed.

(** The total of a system does not depend on the base assignment. *)
Lemma slots_total_base fs base base' :
  NoDup (map fst fs) -> Forall is_full fs ->
  slots_total fs base = slots_total fs base'.
Proof.
  intros Hnd Hfull.
  rewrite <- (slots_total_fold_out fs base),
          <- (slots_total_fold_out fs base').
  transitivity
    (slots_total (map (fold_out (map fst fs) base) fs) base').
  - unfold slots_total. rewrite fold_out_keys.
    apply (@isum_base_on bool trait_values (map fst fs)).
    + intros a a' H.
      apply slots_val_fold_out_inside; [apply incl_refl | exact H].
    + intros k Hk Hn. contradiction.
  - apply slots_total_shape.
    + now apply fold_out_same_shape.
    + now rewrite fold_out_keys.
Qed.

(** ** From gene counts to alleles *)

(** The two alleles of a person, as variables of an allele system. *)
Definition allele_m (p : string) : string := String "m"%char p.
Definition allele_f (p : string) : string := String "f"%char p.

Definition cnt (bm bf : bool) : genes :=
  match bm, bf with
  | true, true => G2
  | false, false => G0
  | _, _ => G1
  end.

Definition count_of (alpha : string -> bool) : string -> genes :=
  fun p => cnt (alpha (allele_m p)) (alpha (allele_f p)).

(** Some alleles with the given gene counts. *)
Definition alleles_of (gamma : string -> genes) : string -> bool :=
  fun s =>
    match s with
    | String c p =>
        if Ascii.eqb c "m"
        then match gamma p with G0 => false | _ => true end
        else match gamma p with G2 => true | _ => false end
    | EmptyString => false
    end.

Lemma count_of_alleles_of gamma p : count_of (alleles_of gamma) p = gamma p.
Proof. unfold count_of, alleles_of, allele_m, allele_f. cbn.
       destruct (gamma p); reflexivity. Qed.

Lemma allele_m_f x y : allele_m x <> allele_f y.
Proof. unfold allele_m, allele_f. intro H. inversion H. Qed.

Lemma allele_m_inj x y : allele_m x = allele_m y -> x = y.
Proof. unfold allele_m. intro H. now inversion H. Qed.

Lemma allele_f_inj x y : allele_f x = allele_f y -> x = y.
Proof. unfold allele_f. intro H. now inversion H. Qed.

Definition slots_of (l : list string) : list string :=
  flat_map (fun x => [allele_m x; allele_f x]) l.

Lemma in_slots_of s l :
  In s (slots_of l) -> exists x, In x l /\ (s = allele_m x \/ s = allele_f x).
Proof.
  unfold slots_of. intro H. apply in_flat_map in H.
  destruct H as [x [Hx [E|[E|[]]]]]; exists x; auto.
Qed.

Lemma slots_of_nodup l : NoDup l -> NoDup (slots_of l).
Proof.
  induction 1 as [|x l Hx _ IH]; cbn; [constructor|].
  constructor; [|constructor; [|exact IH]].
  - intros [E|H]; [symmetry in E; now apply allele_m_f in E|].
    apply in_slots_of in H. destruct H as [y [Hy [E|E]]].
    + apply allele_m_inj in E. now subst.
    + now apply allele_m_f in E.
  - intro H. apply in_slots_of in H. destruct H as [y [Hy [E|E]]].
    + symmetry in E. now apply allele_m_f in E.
    + apply allele_f_inj in E. now subst.
Qed.

(** The chance of an allele value when the parent passes the gene with
    probability [p]. *)
Definition bern (p : Qc) (b : bool) : Qc := if b then p else 1 - p.

Lemma child_probability_alleles bm bf pm pf :
  bern pm bm * bern pf bf
  = match bm, bf with
    | true, true => Spec.childProbability G2 pm pf
    | false, false => Spec.childProbability G0 pm pf
    | true, false => pm * (1 - pf)
    | false, true => (1 - pm) * pf
    end.
Proof. destruct bm, bf; reflexivity. Qed.

Definition pass_of (gamma : string -> genes) (parent : option string) : Qc :=
  Spec.passProbability (parent_genes gamma parent).

(** The factor of a person with parents, on gene counts and on alleles. *)
Definition child_factor (gamma : string -> genes) (kv : string * person)
    : Qc :=
  Spec.childProbability (gamma (fst kv))
    (pass_of gamma (mother (snd kv))) (pass_of gamma (father (snd kv))).

Definition allele_factor (alpha : string -> bool) (kv : string * person)
    : Qc :=
  bern (pass_of (count_of alpha) (mother (snd kv))) (alpha (allele_m (fst kv)))
  * bern (pass_of (count_of alpha) (father (snd kv)))
         (alpha (allele_f (fst kv))).

Lemma pass_of_ext gamma gamma' parent :
  (forall k, gamma k = gamma' k) -> pass_of gamma parent = pass_of gamma' parent.
Proof.
  intro H. unfold pass_of, parent_genes. destruct parent; now rewrite ?H.
Qed.

Lemma child_factor_ext gamma gamma' kv :
  (forall k, gamma k = gamma' k) -> child_factor gamma kv = child_factor gamma' kv.
Proof.
  intro H. unfold child_factor.
  now rewrite H, (@pass_of_ext gamma gamma' (mother (snd kv)) H),
              (@pass_of_ext gamma gamma' (father (snd kv)) H).
Qed.

Lemma allele_eqb_mm k x : String.eqb (allele_m k) (allele_m x) = String.eqb k x.
Proof. reflexivity. Qed.

Lemma allele_eqb_ff k x : String.eqb (allele_f k) (allele_f x) = String.eqb k x.
Proof. reflexivity. Qed.

Lemma allele_eqb_mf k x : String.eqb (allele_m k) (allele_f x) = false.
Proof. reflexivity. Qed.

Lemma allele_eqb_fm k x : String.eqb (allele_f k) (allele_m x) = false.
Proof. reflexivity. Qed.

(** Giving [x] the alleles [bm], [bf] gives [x] the gene count
    [cnt bm bf]. *)
Lemma count_of_upd alpha x bm bf k :
  count_of (upd (upd alpha (allele_m x) bm) (allele_f x) bf) k
  = upd (count_of alpha) x (cnt bm bf) k.
Proof.
  unfold count_of, upd.
  rewrite allele_eqb_mm, allele_eqb_ff, allele_eqb_mf, allele_eqb_fm.
  destruct (String.eqb k x); reflexivity.
Qed.

Lemma not_in_slots_of_m x l : ~ In x l -> ~ In (allele_m x) (slots_of l).
Proof.
  intros Hx H. apply in_slots_of in H. destruct H as [y [Hy [E|E]]].
  - apply allele_m_inj in E. now subst.
  - now apply allele_m_f in E.
Qed.

Lemma not_in_slots_of_f x l : ~ In x l -> ~ In (allele_f x) (slots_of l).
Proof.
  intros Hx H. apply in_slots_of in H. destruct H as [y [Hy [E|E]]].
  - symmetry in E. now apply allele_m_f in E.
  - apply allele_f_inj in E. now subst.
Qed.

Lemma upd_same {V} (a : string -> V) x v : upd a x v x = v.
Proof. unfold upd. now rewrite String.eqb_refl. Qed.

Lemma upd_other {V} (a : string -> V) x v k : k <> x -> upd a x v k = a k.
Proof.
  intro H. unfold upd. destruct (String.eqb_spec k x); [contradiction|].
  reflexivity.
Qed.

(** The sum over the gene counts of persons with parents is the sum over
    their alleles: a gene count is reached by the allele pairs that add up
    to it. *)
Lemma genes_to_alleles people :
  NoDup (names people) ->
  forall Q alpha0,
    extensional Q ->
    isum gene_values (names people)
         (fun gamma => Q gamma * Qprod (map (child_factor gamma) people))
         (count_of alpha0)
    = isum trait_values (slots_of (names people))
           (fun alpha =>
              Q (count_of alpha) * Qprod (map (allele_factor alpha) people))
           alpha0.
Proof.
  induction people as [|[x r] rest IH]; intros Hnd Q alpha0 HQ.
  - reflexivity.
  - cbn [names map fst] in Hnd. inversion Hnd as [|? ? Hx Hnd']; subst.
    fold (names rest) in *.
    assert (Hm := @not_in_slots_of_m x (names rest) Hx).
    assert (Hf := @not_in_slots_of_f x (names rest) Hx).
    pose (A := fun (bm bf : bool) (gamma : string -> genes) =>
                 Q gamma * (bern (pass_of gamma (mother r)) bm
                            * bern (pass_of gamma (father r)) bf)
                 * Qprod (map (child_factor gamma) rest)).
    pose (C := fun (g : genes) (gamma : string -> genes) =>
                 Q gamma
                 * (Spec.childProbability g (pass_of gamma (mother r))
                      (pass_of gamma (father r))
                    * Qprod (map (child_factor gamma) rest))).
    (* one pair of alleles of [x], seen from both sides *)
    assert (U : forall bm bf,
      isum trait_values (slots_of (names rest))
           (fun alpha =>
              Q (count_of alpha)
              * Qprod (map (allele_factor alpha) ((x, r) :: rest)))
           (upd (upd alpha0 (allele_m x) bm) (allele_f x) bf)
      = isum gene_values (names rest) (A bm bf)
             (upd (count_of alpha0) x (cnt bm bf))).
    { intros bm bf.
      pose (Q' := fun gamma =>
                    Q gamma * (bern (pass_of gamma (mother r)) bm
                               * bern (pass_of gamma (father r)) bf)).
      assert (HQ' : extensional Q').
      { intros g g' Hg. unfold Q'.
        now rewrite (HQ _ _ Hg),
                    (@pass_of_ext g g' (mother r) Hg),
                    (@pass_of_ext g g' (father r) Hg). }
      assert (HG : extensional (A bm bf)).
      { intros g g' Hg. unfold A. fold (Q' g). fold (Q' g').
        rewrite (HQ' _ _ Hg). f_equal. f_equal.
        apply map_ext. intro kv. now apply child_factor_ext. }
      transitivity
        (isum gene_values (names rest) (A bm bf)
           (count_of (upd (upd alpha0 (allele_m x) bm) (allele_f x) bf))).
      2: { apply (@isum_ext_base genes gene_values (names rest) _ HG).
           apply count_of_upd. }
      change (A bm bf)
        with (fun gamma => Q' gamma * Qprod (map (child_factor gamma) rest)).
      rewrite (IH Hnd' Q' _ HQ').
      apply isum_ext_on. intros alpha Ha.
      rewrite map_cons, Qprod_cons. unfold allele_factor at 1, Q'.
      cbn [fst snd].
      rewrite (Ha _ Hm), (Ha _ Hf).
      rewrite upd_other by (apply allele_m_f).
      rewrite !upd_same. ring. }
    (* one gene count of [x] *)
    assert (L : forall g,
      isum gene_values (names rest)
           (fun gamma =>
              Q gamma * Qprod (map (child_factor gamma) ((x, r) :: rest)))
           (upd (count_of alpha0) x g)
      = isum gene_values (names rest) (C g) (upd (count_of alpha0) x g)).
    { intro g. apply isum_ext_on. intros gamma Hg.
      rewrite map_cons, Qprod_cons. unfold child_factor at 1, C.
      cbn [fst snd]. now rewrite (Hg _ Hx), upd_same. }
    cbn [names map fst slots_of flat_map app isum].
    fold (names rest). fold (slots_of (names rest)).
    cbn [gene_values trait_values map].
    rewrite !Qsum_cons, !Qsum_nil, !L, !U. cbn [cnt].
    rewrite (isum_ext gene_values (names rest) (C G1)
               (fun gamma => A true false gamma + A false true gamma))
      by (intro; unfold C, A, Spec.childProbability, bern; ring).
    rewrite isum_add.
    rewrite (isum_ext gene_values (names rest) (C G2) (A true true))
      by (intro; unfold C, A, Spec.childProbability, bern; ring).
    rewrite (isum_ext gene_values (names rest) (C G0) (A false false))
      by (intro; unfold C, A, Spec.childProbability, bern; ring).
    ring.
Qed.

(** The allele system of a family in which every person has parents: the
    allele drawn from a parent has the parent's pass probability, which is
    [1/2] plus [spread / 2] for each copy the parent's own alleles carry and
    minus [spread / 2] for each they lack. *)
Definition spread : Qc := half - Spec.mutationRate.

Definition parent_slot (parent : option string) : slot :=
  match parent with
  | Some y => Full 0 [(spread * half, allele_m y); (spread * half, allele_f y)]
  | None => Full (- spread) []
  end.

Definition person_slots (kv : string * person) : list (string * slot) :=
  [(allele_m (fst kv), parent_slot (mother (snd kv)));
   (allele_f (fst kv), parent_slot (father (snd kv)))].

Definition family_slots (people : family) : list (string * slot) :=
  flat_map person_slots people.

Lemma parent_slot_val alpha v parent :
  slot_val alpha (v, parent_slot parent)
  = bern (pass_of (count_of alpha) parent) (alpha v).
Proof.
  unfold slot_val, parent_slot, pass_of, parent_genes, count_of, lin.
  destruct parent as [y|]; cbn [fst snd map].
  - rewrite !Qsum_cons, Qsum_nil. cbn [fst snd].
    destruct (alpha v), (alpha (allele_m y)), (alpha (allele_f y)); qc_eq.
  - rewrite Qsum_nil. destruct (alpha v); qc_eq.
Qed.

Lemma family_slots_keys people :
  map fst (family_slots people) = slots_of (names people).
Proof.
  induction people as [|kv rest IH]; [reflexivity|].
  cbn [family_slots flat_map person_slots app map fst names slots_of].
  fold (family_slots rest). fold (names rest). fold (slots_of (names rest)).
  now rewrite IH.
Qed.

Lemma family_slots_val people alpha :
  slots_val (family_slots people) alpha
  = Qprod (map (allele_factor alpha) people).
Proof.
  unfold slots_val.
  induction people as [|kv rest IH]; cbn [family_slots flat_map map app
                                           person_slots]; [reflexivity|].
  fold (family_slots rest). rewrite !Qprod_cons, IH.
  rewrite !parent_slot_val. unfold allele_factor. ring.
Qed.

Lemma family_slots_full people : Forall is_full (family_slots people).
Proof.
  apply Forall_forall. intros e He. unfold family_slots in He.
  apply in_flat_map in He. destruct He as [kv [_ [E|[E|[]]]]]; subst e;
    unfold is_full, parent_slot; cbn [snd].
  - destruct (mother (snd kv)); exact I.
  - destruct (father (snd kv)); exact I.
Qed.

(** The total over a family whose members all have parents does not depend
    on the gene counts of the persons outside the family. *)
Lemma child_total_base people gamma0 gamma0' :
  NoDup (names people) ->
  isum gene_values (names people)
       (fun gamma => Qprod (map (child_factor gamma) people)) gamma0
  = isum gene_values (names people)
         (fun gamma => Qprod (map (child_factor gamma) people)) gamma0'.
Proof.
  intro Hnd.
  assert (HG : extensional
                 (fun gamma => Qprod (map (child_factor gamma) people))).
  { intros g g' Hg. f_equal. apply map_ext. intro kv.
    now apply child_factor_ext. }
  assert (T : forall g0,
    isum gene_values (names people)
         (fun gamma => Qprod (map (child_factor gamma) people)) g0
    = slots_total (family_slots people) (alleles_of g0)).
  { intro g0.
    rewrite <- (@isum_ext_base genes gene_values (names people) _ HG _ _
                  (count_of_alleles_of g0)).
    rewrite (isum_ext gene_values (names people) _
               (fun gamma => (fun _ => 1) gamma
                             * Qprod (map (child_factor gamma) people)))
      by (intro; ring).
    rewrite (@genes_to_alleles people Hnd (fun _ => 1) (alleles_of g0))
      by (intros g g' _; reflexivity).
    unfold slots_total. rewrite family_slots_keys.
    apply isum_ext. intro alpha. rewrite family_slots_val. ring. }
  rewrite !T. apply slots_total_base.
  - rewrite family_slots_keys. now apply slots_of_nodup.
  - apply family_slots_full.
Qed.

(** ** Founders *)

(** The gene part of a person's factor. *)
Definition gene_factor (gamma : string -> genes) (kv : string * person) : Qc :=
  if Spec.founder (snd kv) then Spec.genePrior (gamma (fst kv))
  else child_factor gamma kv.

Definition gene_joint (people : family) (gamma : string -> genes) : Qc :=
  Qprod (map (gene_factor gamma) people).

Lemma factor_gene_factor gamma tau kv :
  factor gamma tau kv
  = gene_factor gamma kv
    * Spec.traitGivenGene (gamma (fst kv)) (tau (fst kv)).
Proof. reflexivity. Qed.

Lemma gene_factor_ext gamma gamma' kv :
  (forall k, gamma k = gamma' k) ->
  gene_factor gamma kv = gene_factor gamma' kv.
Proof.
  intro H. unfold gene_factor.
  now rewrite H, (@child_factor_ext gamma gamma' kv H).
Qed.

Lemma gene_joint_ext people : extensional (gene_joint people).
Proof.
  intros g g' H. unfold gene_joint. f_equal. apply map_ext. intro kv.
  now apply gene_factor_ext.
Qed.

Lemma gene_joint_app people1 people2 gamma :
  gene_joint (people1 ++ people2) gamma
  = gene_joint people1 gamma * gene_joint people2 gamma.
Proof. unfold gene_joint. now rewrite map_app, Qprod_app. Qed.

(** Fixing the value of a name that is not summed over. *)
Lemma isum_upd_base {V} (vals : list V) x v l (G : (string -> V) -> Qc) :
  ~ In x l -> extensional G ->
  forall base,
    isum vals l (fun a => G (upd a x v)) base = isum vals l G (upd base x v).
Proof.
  intros Hx HG. induction l as [|y l IH]; intro base; simpl.
  - reflexivity.
  - assert (Hxy : x <> y) by (intro; subst; apply Hx; now left).
    apply Qsum_map_ext. intro w.
    rewrite IH by (intro; apply Hx; now right).
    apply isum_ext_base; [exact HG|]. intro k. symmetry.
    now apply upd_comm.
Qed.

(** A founder [x] summed out of the gene sum: its prior times the total of
    the others, for each of its gene counts. *)
Lemma founder_out people1 x row people2 (W : genes -> Qc) gamma0 :
  NoDup (names (people1 ++ (x, row) :: people2)) ->
  Spec.founder row = true ->
  isum gene_values (names (people1 ++ (x, row) :: people2))
       (fun gamma =>
          W (gamma x) * gene_joint (people1 ++ (x, row) :: people2) gamma)
       gamma0
  = Qsum (map (fun g =>
                 (W g * Spec.genePrior g)
                 * isum gene_values (names (people1 ++ people2))
                        (gene_joint (people1 ++ people2))
                        (upd gamma0 x g))
              gene_values).
Proof.
  intros Hnd Hf. unfold names in *. rewrite !map_app in *.
  cbn [map fst] in *.
  assert (Hx := NoDup_remove_2 _ _ _ Hnd).
  assert (Hx2 : ~ In x (map fst people2))
    by (intro; apply Hx, in_or_app; now right).
  rewrite (@isum_marginal genes gene_values (map fst people1) x
             (map fst people2) _ gamma0 Hx2).
  - rewrite isum_Qsum. apply Qsum_map_ext. intro g.
    rewrite <- isum_mul_l.
    rewrite <- (@isum_upd_base genes gene_values x g
                  (map fst people1 ++ map fst people2)
                  (fun gamma => W g * Spec.genePrior g
                                * gene_joint (people1 ++ people2) gamma)
                  Hx).
    + apply isum_ext. intro gamma.
      rewrite upd_same, !gene_joint_app.
      unfold gene_joint at 2. rewrite map_cons, Qprod_cons.
      unfold gene_factor at 1. cbn [fst snd]. rewrite Hf, upd_same.
      fold (gene_joint people2 (upd gamma x g)). ring.
    + intros a b Hab. now rewrite (@gene_joint_ext _ a b Hab).
  - intros a b Hab. now rewrite Hab, (@gene_joint_ext _ a b Hab).
Qed.

Lemma Qsum_gene_prior (W : genes -> Qc) (z : Qc) :
  Qsum (map (fun g => (W g * Spec.genePrior g) * z) gene_values)
  = (W G1 * Spec.genePrior G1 + W G2 * Spec.genePrior G2
     + W G0 * Spec.genePrior G0) * z.
Proof. cbn [gene_values map]. rewrite !Qsum_cons, Qsum_nil. ring. Qed.

Lemma no_founder_child people :
  existsb (fun kv => Spec.founder (snd kv)) people = false ->
  forall gamma, gene_joint people gamma
                = Qprod (map (child_factor gamma) people).
Proof.
  intros H gamma. unfold gene_joint. f_equal. apply map_ext_in.
  intros kv Hkv. unfold gene_factor.
  destruct (Spec.founder (snd kv)) eqn:E; [|reflexivity].
  assert (X : existsb (fun kv => Spec.founder (snd kv)) people = true)
    by (apply existsb_exists; exists kv; auto).
  congruence.
Qed.

(** The total of the gene factors of any family, cyclic or not, does not
    depend on the gene counts of the persons outside the family. *)
Lemma gene_total_base :
  forall n people, List.length people = n -> NoDup (names people) ->
    forall gamma0 gamma0',
      isum gene_values (names people) (gene_joint people) gamma0
      = isum gene_values (names people) (gene_joint people) gamma0'.
Proof.
  induction n as [|n IH]; intros people Hlen Hnd gamma0 gamma0'.
  - destruct people; [reflexivity | discriminate].
  - destruct (existsb (fun kv => Spec.founder (snd kv)) people) eqn:E.
    + apply existsb_exists in E. destruct E as [[x row] [Hin Hf]].
      cbn [snd] in Hf.
      destruct (in_split _ _ Hin) as [p1 [p2 Ep]]. subst people.
      assert (Hlen' : List.length (p1 ++ p2) = n).
      { rewrite length_app in *. cbn [List.length] in Hlen. lia. }
      assert (Hnd' : NoDup (names (p1 ++ p2))).
      { unfold names in *. rewrite map_app in *. cbn [map] in Hnd.
        now apply NoDup_remove_1 in Hnd. }
      assert (F : forall g0,
        isum gene_values (names (p1 ++ (x, row) :: p2))
             (gene_joint (p1 ++ (x, row) :: p2)) g0
        = isum gene_values (names (p1 ++ p2)) (gene_joint (p1 ++ p2))
               gamma0).
      { intro g0.
        rewrite (isum_ext gene_values _ _
                   (fun gamma => (fun _ => 1) (gamma x)
                                 * gene_joint (p1 ++ (x, row) :: p2) gamma))
          by (intro; ring).
        rewrite (@founder_out p1 x row p2 (fun _ => 1) g0 Hnd Hf).
        rewrite (Qsum_map_ext _
                   (fun g => (1 * Spec.genePrior g)
                             * isum gene_values (names (p1 ++ p2))
                                    (gene_joint (p1 ++ p2)) gamma0))
          by (intro g; f_equal; apply (IH _ Hlen' Hnd')).
        rewrite (Qsum_gene_prior (fun _ => 1)).
        generalize gene_prior_total. intro P.
        transitivity ((Spec.genePrior G1 + Spec.genePrior G2
                       + Spec.genePrior G0)
                      * isum gene_values (names (p1 ++ p2))
                             (gene_joint (p1 ++ p2)) gamma0); [ring|].
        rewrite P. ring. }
      now rewrite !F.
    + rewrite (isum_ext gene_values _ _ _ gamma0 (no_founder_child people E)).
      rewrite (isum_ext gene_values _ _ _ gamma0' (no_founder_child people E)).
      now apply child_total_base.
Qed.

Definition indicator (g g' : genes) : Qc :=
  if genes_eqb g g' then 1 else 0.

(** The share of the assignments that give a founder [k] the gene count [g]
    is the prior of [g] times the whole, in any family. *)
Lemma founder_marginal people k row g gamma0 :
  NoDup (names people) -> In (k, row) people -> Spec.founder row = true ->
  isum gene_values (names people)
       (fun gamma => indicator g (gamma k) * gene_joint people gamma) gamma0
  = Spec.genePrior g
    * isum gene_values (names people) (gene_joint people) gamma0.
Proof.
  intros Hnd Hin Hf.
  destruct (in_split _ _ Hin) as [p1 [p2 Ep]]. subst people.
  assert (Hnd' : NoDup (names (p1 ++ p2))).
  { unfold names in *. rewrite map_app in *. cbn [map] in Hnd.
    now apply NoDup_remove_1 in Hnd. }
  set (Z := isum gene_values (names (p1 ++ p2)) (gene_joint (p1 ++ p2))
                 gamma0).
  assert (B : forall g',
             isum gene_values (names (p1 ++ p2)) (gene_joint (p1 ++ p2))
                  (upd gamma0 k g') = Z).
  { intro g'. apply (@gene_total_base _ (p1 ++ p2) eq_refl Hnd'). }
  rewrite (@founder_out p1 k row p2 (indicator g) gamma0 Hnd Hf).
  rewrite (isum_ext gene_values _ (gene_joint (p1 ++ (k, row) :: p2))
             (fun gamma => (fun _ => 1) (gamma k)
                           * gene_joint (p1 ++ (k, row) :: p2) gamma))
    by (intro; ring).
  rewrite (@founder_out p1 k row p2 (fun _ => 1) gamma0 Hnd Hf).
  rewrite (Qsum_map_ext _ (fun g' => (indicator g g' * Spec.genePrior g') * Z))
    by (intro g'; now rewrite B).
  rewrite (Qsum_map_ext
             (fun g' =>
                1 * Spec.genePrior g'
                * isum gene_values (names (p1 ++ p2))
                       (gene_joint (p1 ++ p2)) (upd gamma0 k g'))
             (fun g' => ((fun _ => 1) g' * Spec.genePrior g') * Z))
    by (intro g'; now rewrite B).
  rewrite !Qsum_gene_prior.
  generalize gene_prior_total. intro P.
  transitivity (Spec.genePrior g
                * ((Spec.genePrior G1 + Spec.genePrior G2
                    + Spec.genePrior G0) * Z)); [|ring].
  rewrite P. unfold indicator, genes_eqb.
  destruct g; cbn; ring.
Qed.

(** The trait factors sum to 1 for each person, whatever the genes. *)
Definition trait_joint (people : family) (gamma : string -> genes)
    (tau : string -> bool) : Qc :=
  Qprod (map (fun kv => Spec.traitGivenGene (gamma (fst kv)) (tau (fst kv)))
             people).

Lemma joint_gene_trait people gamma tau :
  joint people gamma tau
  = gene_joint people gamma * trait_joint people gamma tau.
Proof.
  unfold joint, gene_joint, trait_joint.
  induction people as [|kv rest IH]; cbn [map]; rewrite ?Qprod_cons.
  - unfold Qprod. cbn. ring.
  - rewrite IH, factor_gene_factor. ring.
Qed.

Lemma traits_out l gamma0 (some : family) :
  NoDup (names some) ->
  forall (H : (string -> genes) -> Qc) tau0,
    isum trait_values (names some)
         (fun tau =>
            isum gene_values l
                 (fun gamma => H gamma * trait_joint some gamma tau) gamma0)
         tau0
    = isum gene_values l H gamma0.
Proof.
  induction some as [|[x r] rest IH]; intros Hnd H tau0.
  - cbn [names map isum]. apply isum_ext. intro gamma.
    unfold trait_joint, Qprod. cbn. ring.
  - cbn [names map fst] in Hnd. inversion Hnd as [|? ? Hx Hnd']; subst.
    fold (names rest) in *.
    assert (S : forall b,
      isum trait_values (names rest)
           (fun tau =>
              isum gene_values l
                   (fun gamma => H gamma
                                 * trait_joint ((x, r) :: rest) gamma tau)
                   gamma0)
           (upd tau0 x b)
      = isum gene_values l
             (fun gamma => H gamma * Spec.traitGivenGene (gamma x) b)
             gamma0).
    { intro b.
      rewrite <- (IH Hnd'
                    (fun gamma => H gamma * Spec.traitGivenGene (gamma x) b)
                    (upd tau0 x b)).
      apply isum_ext_on. intros tau Ht. apply isum_ext. intro gamma.
      unfold trait_joint. rewrite map_cons, Qprod_cons. cbn [fst].
      rewrite (Ht _ Hx), upd_same. ring. }
    cbn [names map fst isum]. fold (names rest).
    cbn [trait_values map]. rewrite !Qsum_cons, Qsum_nil, !S.
    rewrite Qcplus_0_r, <- isum_add. apply isum_ext. intro gamma.
    rewrite trait_given_gene_total. ring.
Qed.

(** The sum over all hypotheses with a weight on the genes only is a sum
    over the gene assignments. *)
Lemma esum_genes people (W : (string -> genes) -> Qc) gamma0 tau0 :
  NoDup (names people) ->
  esum (names people) (fun gamma tau => W gamma * joint people gamma tau)
       gamma0 tau0
  = isum gene_values (names people)
         (fun gamma => W gamma * gene_joint people gamma) gamma0.
Proof.
  intro Hnd. unfold esum.
  rewrite <- (@traits_out (names people) gamma0 people Hnd
                (fun gamma => W gamma * gene_joint people gamma) tau0).
  apply isum_ext. intro tau. apply isum_ext. intro gamma.
  rewrite joint_gene_trait. ring.
Qed.

(** ** Positivity *)

Lemma Qc_mul_pos (a b : Qc) : 0 < a -> 0 < b -> 0 < a * b.
Proof.
  unfold Qclt. intros Ha Hb.
  change (this (a * b)) with (Qred (this a * this b)).
  rewrite Qred_correct. now apply Qmult_lt_0_compat.
Qed.

Lemma Qc_add_pos (a b : Qc) : 0 < a -> 0 < b -> 0 < a + b.
Proof.
  unfold Qclt. intros Ha Hb.
  change (this (a + b)) with (Qred (this a + this b)).
  rewrite Qred_correct.
  apply Qlt_le_trans with (this a + 0)%Q.
  - now rewrite Qplus_0_r.
  - apply Qplus_le_compat; [apply Qle_refl | now apply Qlt_le_weak].
Qed.

Lemma Qprod_pos (l : list Qc) : Forall (fun x => 0 < x) l -> 0 < Qprod l.
Proof.
  induction 1 as [|x l Hx _ IH].
  - reflexivity.
  - rewrite Qprod_cons. now apply Qc_mul_pos.
Qed.

Lemma Qsum_pos (l : list Qc) :
  l <> [] -> Forall (fun x => 0 < x) l -> 0 < Qsum l.
Proof.
  intros Hne H. induction H as [|x l Hx Hl IH]; [congruence|].
  rewrite Qsum_cons. destruct l as [|y l'].
  - now rewrite Qsum_nil, Qcplus_0_r.
  - apply Qc_add_pos; [exact Hx | apply IH; discriminate].
Qed.

Lemma pass_probability_pos g :
  0 < Spec.passProbability g /\ 0 < 1 - Spec.passProbability g.
Proof. destruct g; split; reflexivity. Qed.

Lemma child_probability_pos g pm pf :
  0 < pm -> 0 < 1 - pm -> 0 < pf -> 0 < 1 - pf ->
  0 < Spec.childProbability g pm pf.
Proof.
  intros. destruct g; cbn [Spec.childProbability].
  - now apply Qc_mul_pos.
  - apply Qc_add_pos; now apply Qc_mul_pos.
  - now apply Qc_mul_pos.
Qed.

Lemma factor_pos gamma tau kv : 0 < factor gamma tau kv.
Proof.
  unfold factor. apply Qc_mul_pos.
  - destruct (Spec.founder (snd kv)).
    + destruct (gamma (fst kv)); reflexivity.
    + apply child_probability_pos; apply pass_probability_pos.
  - destruct (gamma (fst kv)), (tau (fst kv)); reflexivity.
Qed.

Lemma joint_pos people gamma tau : 0 < joint people gamma tau.
Proof.
  unfold joint. apply Qprod_pos. apply Forall_forall. intros x Hx.
  apply in_map_iff in Hx. destruct Hx as [kv [<- _]]. apply factor_pos.
Qed.

Lemma nil_in_powerset {A} (l : list A) : In [] (powerset l).
Proof.
  unfold powerset. rewrite Nat.add_1_r. cbn [seq flat_map].
  apply in_or_app. left. destruct l; now left.
Qed.

Lemma all_hypotheses_nonempty people : all_hypotheses people <> [].
Proof.
  assert (H : In ([], [], []) (all_hypotheses people)).
  { unfold all_hypotheses. apply in_flat_map. exists [].
    split; [apply nil_in_powerset|].
    unfold gene_hypotheses. apply in_flat_map. exists [].
    split; [apply nil_in_powerset|].
    apply in_map_iff. exists []. split; [reflexivity|].
    apply nil_in_powerset. }
  intro E. rewrite E in H. contradiction.
Qed.

(** ** C6: the marginal of a founder *)

Lemma fails_evidence_none people have_trait :
  (forall kv, In kv people -> trait (snd kv) = None) ->
  fails_evidence people have_trait = false.
Proof.
  intro H. unfold fails_evidence.
  apply Bool.not_true_iff_false. intro E. apply existsb_exists in E.
  destruct E as [kv [Hin E]]. rewrite (H kv Hin) in E. discriminate.
Qed.

Lemma hypotheses_no_evidence people :
  (forall kv, In kv people -> trait (snd kv) = None) ->
  hypotheses people = all_hypotheses people.
Proof.
  intro H. unfold hypotheses, all_hypotheses. apply flat_map_ext.
  intro have_trait. now rewrite fails_evidence_none.
Qed.

(** The normalised accumulators of one person. *)
Definition scaled (d : dist (F:=Qc)) : dist :=
  {| gene2 := gene2 d / gene_sum d;
     gene1 := gene1 d / gene_sum d;
     gene0 := gene0 d / gene_sum d;
     traitT := traitT d / trait_sum d;
     traitF := traitF d / trait_sum d |}.

Lemma normalize_scaled (t : table (F:=Qc)) :
  Forall (fun kv => gene_sum (snd kv) <> 0 /\ trait_sum (snd kv) <> 0) t ->
  normalize t = Ok (map (fun kv => (fst kv, scaled (snd kv))) t).
Proof.
  induction 1 as [|kv t [Hg Ht] _ IH]; [reflexivity|].
  cbn [normalize map]. rewrite (@normalize_person_Qc_ok (snd kv) Hg Ht).
  cbn [bind]. rewrite IH. reflexivity.
Qed.

Lemma accumulate_entries people hs :
  accumulate (F:=Qc) people hs
  = map (fun kv => fold_left (entry_step people) hs (fst kv, zero_dist))
        people.
Proof.
  unfold accumulate. rewrite fold_accumulate_entries.
  unfold init_probabilities. now rewrite map_map.
Qed.

(** The accumulated buckets of person [k] after the hypotheses [hs]. *)
Definition accumulated (people : family) (hs : list hypothesis) (k : string)
    : dist (F:=Qc) :=
  snd (fold_left (entry_step people) hs (k, zero_dist)).

Lemma accumulated_gene people hs k g :
  gene_bucket (accumulated people hs k) g
  = Qsum (map (contrib_gene people k g) hs).
Proof.
  unfold accumulated.
  destruct (fold_entry_buckets people hs k zero_dist) as [Hg _].
  rewrite Hg. destruct g; cbn [gene_bucket zero_dist gene2 gene1 gene0];
    rewrite lit_0_0; ring.
Qed.

Lemma accumulated_trait people hs k b :
  trait_bucket (accumulated people hs k) b
  = Qsum (map (contrib_trait people k b) hs).
Proof.
  unfold accumulated.
  destruct (fold_entry_buckets people hs k zero_dist) as [_ Ht].
  rewrite Ht. destruct b; cbn [trait_bucket zero_dist traitT traitF];
    rewrite lit_0_0; ring.
Qed.

(** The sum of the joint probabilities of the hypotheses [hs]. *)
Definition mass (people : family) (hs : list hypothesis) : Qc :=
  Qsum (map (fun h : hypothesis =>
               joint_probability people (fst (fst h)) (snd (fst h)) (snd h))
            hs).

Lemma total_probability_mass people :
  total_probability (F:=Qc) people = mass people (all_hypotheses people).
Proof. unfold total_probability. apply sum_values_Qsum. Qed.

(** Every person's gene buckets, and trait buckets, add up to the mass of
    the accumulated hypotheses. *)
Lemma accumulated_gene_sum people hs k :
  gene_sum (accumulated people hs k) = mass people hs.
Proof.
  rewrite gene_sum_Qc. unfold mass.
  change (gene2 (accumulated people hs k))
    with (gene_bucket (accumulated people hs k) G2).
  change (gene1 (accumulated people hs k))
    with (gene_bucket (accumulated people hs k) G1).
  change (gene0 (accumulated people hs k))
    with (gene_bucket (accumulated people hs k) G0).
  rewrite !accumulated_gene, <- !Qsum_map_add.
  apply Qsum_map_ext. intro h. apply contrib_gene_total.
Qed.

Lemma accumulated_trait_sum people hs k :
  trait_sum (accumulated people hs k) = mass people hs.
Proof.
  rewrite trait_sum_Qc. unfold mass.
  change (traitT (accumulated people hs k))
    with (trait_bucket (accumulated people hs k) true).
  change (traitF (accumulated people hs k))
    with (trait_bucket (accumulated people hs k) false).
  rewrite !accumulated_trait, <- !Qsum_map_add.
  apply Qsum_map_ext. intro h. apply contrib_trait_total.
Qed.

(** A non-empty list of hypotheses has a positive mass. *)
Lemma mass_pos people hs : hs <> [] -> 0 < mass people hs.
Proof.
  intro Hne. unfold mass. apply Qsum_pos.
  - intro E. apply map_eq_nil in E. contradiction.
  - apply Forall_forall. intros x Hx. apply in_map_iff in Hx.
    destruct Hx as [h [<- _]]. rewrite joint_probability_joint.
    apply joint_pos.
Qed.

(** [main] completes as soon as one hypothesis is accumulated. *)
Lemma normalize_accumulate people hs :
  hs <> [] ->
  normalize (accumulate (F:=Qc) people hs)
  = Ok (map (fun kv => (fst kv, scaled (accumulated people hs (fst kv))))
            people).
Proof.
  intro Hne.
  assert (Zne : mass people hs <> 0).
  { intro E. generalize (mass_pos people Hne). rewrite E. discriminate. }
  rewrite accumulate_entries, normalize_scaled.
  - rewrite map_map. f_equal. apply map_ext. intro kv. cbn [fst snd].
    now rewrite fold_entry_key.
  - apply Forall_forall. intros e He. apply in_map_iff in He.
    destruct He as [kv [<- _]]. cbn [snd fst].
    fold (accumulated people hs (fst kv)).
    now rewrite accumulated_gene_sum, accumulated_trait_sum.
Qed.

Lemma total_probability_genes people :
  NoDup (names people) ->
  total_probability (F:=Qc) people
  = isum gene_values (names people) (gene_joint people) (fun _ => G0).
Proof.
  intro Hnd.
  rewrite (@total_probability_esum people Hnd).
  rewrite (@esum_genes people (fun _ => 1) _ _ Hnd).
  apply isum_ext. intro gamma. ring.
Qed.

(** The gene bucket [g] of a founder holds the prior of [g] times the total
    probability: in any family, with or without cycles. *)
Lemma accumulated_founder people k row g :
  NoDup (names people) -> In (k, row) people -> Spec.founder row = true ->
  gene_bucket (accumulated people (all_hypotheses people) k) g
  = Spec.genePrior g * mass people (all_hypotheses people).
Proof.
  intros Hnd Hin Hf.
  rewrite accumulated_gene, <- total_probability_mass,
          (@total_probability_genes people Hnd).
  rewrite <- (@founder_marginal people k row g (fun _ => G0) Hnd Hin Hf).
  rewrite <- (@esum_genes people (fun gamma => indicator g (gamma k))
                (fun _ => G0) (fun _ => false) Hnd).
  rewrite <- (@all_hypotheses_esum people
                (fun gamma tau =>
                   indicator g (gamma k) * joint people gamma tau) Hnd).
  - apply Qsum_map_ext. intro h. unfold contrib_gene, indicator.
    rewrite joint_probability_joint.
    destruct (genes_eqb g (genes_of (fst (fst h)) (snd (fst h)) k)); ring.
  - intros gamma gamma' tau tau' Hg Ht.
    now rewrite Hg, (@joint_ext people _ _ _ _ Hg Ht).
Qed.

Definition founder_row (row : person) : Prop :=
  mother row = None /\ father row = None.

(** What C6 says of the entry of a person in the final table. *)
Definition prior_if_founder (kv : string * person)
    (entry : string * dist (F:=Qc)) : Prop :=
  fst entry = fst kv
  /\ (founder_row (snd kv) ->
      forall g, gene_bucket (snd entry) g = PROBS_gene g).

Lemma Forall2_map_in {A B} (P : A -> B -> Prop) (f : A -> B) (l : list A) :
  (forall a, In a l -> P a (f a)) -> Forall2 P l (map f l).
Proof.
  induction l as [|a l IH]; intro H; cbn [map]; constructor.
  - apply H. now left.
  - apply IH. intros b Hb. apply H. now right.
Qed.

Lemma main_no_evidence people :
  NoDup (names people) ->
  (forall kv, In kv people -> trait (snd kv) = None) ->
  exists table,
    main (F:=Qc) people = Ok table
    /\ Forall2 prior_if_founder people table.
Proof.
  intros Hnd Hev.
  assert (Hne := all_hypotheses_nonempty people).
  assert (Zne : mass people (all_hypotheses people) <> 0).
  { intro E. generalize (mass_pos people Hne). rewrite E. discriminate. }
  unfold main. rewrite (hypotheses_no_evidence people Hev).
  rewrite (normalize_accumulate people Hne).
  eexists. split; [reflexivity|].
  apply Forall2_map_in. intros [k row] Hin.
  unfold prior_if_founder. cbn [fst snd]. split; [reflexivity|].
  intros [Hm Hf] g.
  assert (Hfd : Spec.founder row = true)
    by (unfold Spec.founder; now rewrite Hm, Hf).
  assert (E : forall d : dist (F:=Qc),
             gene_bucket (scaled d) g = gene_bucket d g / gene_sum d)
    by (intro d; destruct g; reflexivity).
  rewrite E, accumulated_gene_sum.
  rewrite (@accumulated_founder people k row g Hnd Hin Hfd).
  change (PROBS_gene g) with (Spec.genePrior g).
  field. exact Zne.
Qed.

(** C6, amended.  In a graph with no trait evidence, [main] completes and,
    in exact arithmetic, the normalised gene distribution of every founder
    is exactly the unconditional prior table (0.96, 0.03, 0.01 for 0, 1, 2
    copies), whatever the parent links of the other persons. *)
Theorem founder_marginal_is_prior (people : family) :
  NoDup (names people) ->
  (forall kv, In kv people -> trait (snd kv) = None) ->
  exists table,
    main (F:=Qc) people = Ok table
    /\ Forall2 prior_if_founder people table.
Proof. exact (@main_no_evidence people). Qed.

(** The example family with every trait unknown. *)
Definition example_no_evidence : family :=
  [("Harry", {| mother := Some "Lily"; father := Some "James";
                trait := None |});
   ("James", {| mother := None; father := None; trait := None |});
   ("Lily", {| mother := None; father := None; trait := None |})].

Lemma founder_marginal_is_prior_witness :
  exists table,
    main (F:=Qc) example_no_evidence = Ok table
    /\ Forall2 prior_if_founder example_no_evidence table.
Proof.
  apply (@founder_marginal_is_prior example_no_evidence).
  - exact example_people_nodup.
  - intros kv [<-|[<-|[<-|[]]]]; reflexivity.
Defined.

(** A single founder with unknown trait. *)
Definition lone_founder : family :=
  [("A", {| mother := None; father := None; trait := None |})].

(** C6 as the specification words it (equality with the table, exactly)
    fails in binary64: for a lone founder the one-copy bucket accumulates
    0.03 * 0.44 + 0.03 * 0.56, which rounds to 0.030000000000000002, the
    gene sum is 1.0, and the normalised bucket is not the double 0.03; it
    lies within 1e-15 of it. *)
Lemma founder_marginal_binary64 :
  match main (F:=float) lone_founder with
  | Ok table =>
      option_map (fun d => (PrimFloat.eqb (gene_bucket d G1) (PROBS_gene G1),
                            PrimFloat.ltb (PROBS_gene G1) (gene_bucket d G1),
                            PrimFloat.ltb (gene_bucket d G1)
                                          (add (PROBS_gene G1) (lit 1 15))))
                 (dict_get table "A")
  | Raise _ => None
  end = Some (false, true, true).
Proof. vm_compute. reflexivity. Qed.

(** ** Some hypothesis always survives the evidence test *)

(** The persons known to show the trait. *)
Definition known_trait (people : family) : list string :=
  map fst (filter (fun kv => match trait (snd kv) with
                             | Some true => true
                             | _ => false
                             end) people).

Lemma known_trait_subset people :
  In (known_trait people) (subsets (names people)).
Proof.
  unfold known_trait, names.
  induction people as [|kv rest IH]; cbn [filter map subsets].
  - now left.
  - apply in_or_app.
    destruct (trait (snd kv)) as [[|]|]; cbn [map];
      [left; now apply in_map | right; exact IH | right; exact IH].
Qed.

Lemma dict_unique {A} (d : list (string * A)) k a b :
  NoDup (map fst d) -> In (k, a) d -> In (k, b) d -> a = b.
Proof.
  induction d as [|[k' c] d IH]; intros Hnd Ha Hb; [contradiction|].
  cbn [map fst] in Hnd. inversion Hnd as [|? ? Hk Hnd']; subst.
  destruct Ha as [Ea|Ha], Hb as [Eb|Hb].
  - congruence.
  - inversion Ea; subst. exfalso. apply Hk.
    change k with (fst (k, b)). now apply in_map.
  - inversion Eb; subst. exfalso. apply Hk.
    change k with (fst (k, a)). now apply in_map.
  - now apply IH.
Qed.

Lemma known_trait_passes people :
  NoDup (names people) ->
  fails_evidence people (known_trait people) = false.
Proof.
  intro Hnd. unfold fails_evidence.
  apply Bool.not_true_iff_false. intro E. apply existsb_exists in E.
  destruct E as [[k row] [Hin E]]. cbn [fst snd] in E.
  destruct (trait row) as [t|] eqn:Ht; [|discriminate].
  destruct (mem k (known_trait people)) eqn:Hm.
  - apply mem_In in Hm. unfold known_trait in Hm.
    apply in_map_iff in Hm. destruct Hm as [[k' row'] [Ek Hf]].
    cbn [fst] in Ek. subst k'. apply filter_In in Hf.
    destruct Hf as [Hin' Hf]. cbn [snd] in Hf.
    assert (Er : row = row')
      by (eapply dict_unique; [exact Hnd | exact Hin | exact Hin']).
    subst row'. rewrite Ht in Hf. destruct t; discriminate.
  - apply mem_not_In in Hm. destruct t; [|discriminate].
    apply Hm. unfold known_trait.
    change k with (fst (k, row)). apply in_map. apply filter_In.
    split; [exact Hin|]. cbn [snd]. now rewrite Ht.
Qed.

(** With one trait value per person the evidence cannot contradict itself:
    the hypothesis space of [main] is never empty. *)
Lemma hypotheses_nonempty people :
  NoDup (names people) -> hypotheses people <> [].
Proof.
  intro Hnd.
  assert (H : In ([], [], known_trait people) (hypotheses people)).
  { unfold hypotheses. apply in_flat_map. exists (known_trait people). split.
    - apply (Permutation_in _ (Permutation_sym (powerset_subsets _))).
      apply known_trait_subset.
    - rewrite (@known_trait_passes people Hnd).
      unfold gene_hypotheses. apply in_flat_map. exists [].
      split; [apply nil_in_powerset|].
      apply in_map_iff. exists []. split; [reflexivity|].
      apply nil_in_powerset. }
  intro E. rewrite E in H. contradiction.
Qed.

(** [main] returns a table for every family, well formed or not. *)
Lemma main_returns people :
  NoDup (names people) ->
  main (F:=Qc) people
  = Ok (map (fun kv =>
               (fst kv,
                scaled (accumulated people (hypotheses people) (fst kv))))
            people).
Proof.
  intro Hnd. unfold main. apply normalize_accumulate.
  now apply hypotheses_nonempty.
Qed.

(** ** C9: malformed graphs are evaluated *)

(** C9, amended.  No graph is rejected at construction time: for every
    family mapping with distinct names, malformed or not, [main] enumerates
    the hypotheses and returns the normalised table; and in every hypothesis
    it enumerates, a parent field that is empty or names nobody in the
    person set is evaluated as a parent with no copy of the gene (pass
    probability = mutation rate), the founder's prior being used only when
    both parent fields are empty. *)
Theorem malformed_graph_is_evaluated (people : family) :
  NoDup (names people) ->
  (exists table, main (F:=Qc) people = Ok table)
  /\ forall one_gene two_genes have_trait,
       In (one_gene, two_genes, have_trait) (hypotheses people) ->
       forall parent,
         mem_opt parent (names people) = false ->
         pass_parent (F:=Qc) one_gene two_genes parent = PROBS_mutation
         /\ forall row g,
              mother row <> None \/ father row <> None ->
              gene_probability (F:=Qc) one_gene two_genes row g
              = let pass_mother :=
                    pass_parent one_gene two_genes (mother row) in
                let pass_father :=
                    pass_parent one_gene two_genes (father row) in
                match g with
                | G2 => mul pass_mother pass_father
                | G1 => add (mul pass_mother (sub (lit 1 0) pass_father))
                            (mul (sub (lit 1 0) pass_mother) pass_father)
                | G0 => mul (sub (lit 1 0) pass_mother)
                            (sub (lit 1 0) pass_father)
                end.
Proof.
  intro Hnd. split.
  - eexists. now apply main_returns.
  - intros one_gene two_genes have_trait H parent Hp.
    exact (@missing_parent_pass Qc _ people one_gene two_genes have_trait
             H parent Hp).
Qed.

Lemma orphan_people_nodup : NoDup (names orphan_people).
Proof. repeat constructor. intros []. Qed.

Lemma malformed_graph_is_evaluated_witness :
  (exists table, main (F:=Qc) orphan_people = Ok table)
  /\ forall one_gene two_genes have_trait,
       In (one_gene, two_genes, have_trait) (hypotheses orphan_people) ->
       forall parent,
         mem_opt parent (names orphan_people) = false ->
         pass_parent (F:=Qc) one_gene two_genes parent = PROBS_mutation
         /\ forall row g,
              mother row <> None \/ father row <> None ->
              gene_probability (F:=Qc) one_gene two_genes row g
              = let pass_mother :=
                    pass_parent one_gene two_genes (mother row) in
                let pass_father :=
                    pass_parent one_gene two_genes (father row) in
                match g with
                | G2 => mul pass_mother pass_father
                | G1 => add (mul pass_mother (sub (lit 1 0) pass_father))
                            (mul (sub (lit 1 0) pass_mother) pass_father)
                | G0 => mul (sub (lit 1 0) pass_mother)
                            (sub (lit 1 0) pass_father)
                end.
Proof.
  apply (@malformed_graph_is_evaluated orphan_people).
  exact orphan_people_nodup.
Defined.

(** * Further properties of the code *)

From Stdlib Require Import Sorted.

(** ** powerset: how many subsets, which ones, in which order *)

Lemma subsets_length {A} (l : list A) :
  List.length (subsets l) = (2 ^ List.length l)%nat.
Proof.
  induction l as [|x l IH]; [reflexivity|].
  cbn [subsets]. rewrite length_app, length_map, IH.
  cbn [List.length Nat.pow]. lia.
Qed.

(** X1.  [powerset(s)] returns [2 ** len(s)] subsets, whatever [s] holds. *)
Theorem powerset_length {A} (s : list A) :
  List.length (powerset s) = (2 ^ List.length s)%nat.
Proof.
  rewrite (Permutation_length (@powerset_subsets A s)).
  apply subsets_length.
Qed.

Lemma combinations_length {A} (s : list A) :
  forall r t, In t (combinations s r) -> List.length t = r.
Proof.
  induction s as [|x s IH]; intros [|r] t H; cbn [combinations] in H.
  - destruct H as [<-|[]]. reflexivity.
  - destruct H.
  - destruct H as [<-|[]]. reflexivity.
  - apply in_app_or in H. destruct H as [H|H].
    + apply in_map_iff in H. destruct H as [t' [<- H]].
      cbn [List.length]. f_equal. now apply IH.
    + now apply IH.
Qed.

(** Chaining blocks whose members have the size of their index gives sizes
    in ascending order. *)
Lemma chain_sizes_sorted {A} (f : nat -> list (list A)) :
  (forall r t, In t (f r) -> List.length t = r) ->
  forall n a,
    StronglySorted le (map (@List.length A) (flat_map f (seq a n))).
Proof.
  intros Hf n. induction n as [|n IH]; intro a; cbn [seq flat_map map].
  - constructor.
  - rewrite map_app.
    assert (Hrest : Forall (le a)
                      (map (@List.length A) (flat_map f (seq (S a) n)))).
    { apply Forall_forall. intros m Hm.
      apply in_map_iff in Hm. destruct Hm as [t [<- Ht]].
      apply in_flat_map in Ht. destruct Ht as [r [Hr Ht]].
      apply in_seq in Hr. rewrite (Hf r t Ht). lia. }
    specialize (IH (S a)).
    assert (Hblock : forall b, (forall t, In t b -> List.length t = a) ->
              StronglySorted le
                (map (@List.length A) b
                 ++ map (@List.length A) (flat_map f (seq (S a) n)))).
    { induction b as [|t b IHb]; intro Hb; cbn [map app]; [exact IH|].
      constructor.
      - apply IHb. intros t' Ht'. apply Hb. now right.
      - apply Forall_app. split.
        + apply Forall_forall. intros m Hm.
          apply in_map_iff in Hm. destruct Hm as [t' [<- Ht']].
          rewrite (Hb t (or_introl eq_refl)),
                  (Hb t' (or_intror Ht')). lia.
        + rewrite (Hb t (or_introl eq_refl)). exact Hrest. }
    apply Hblock. intros t Ht. now apply Hf.
Qed.

Lemma combinations_all {A} (s : list A) :
  combinations s (List.length s) = [s].
Proof.
  induction s as [|x s IH]; [reflexivity|].
  cbn [List.length combinations]. rewrite IH.
  assert (E : forall (l : list A) r, (List.length l < r)%nat ->
                combinations l r = []).
  { clear. induction l as [|y l IHl]; intros [|r] H; cbn in *; try lia;
      [reflexivity|].
    rewrite (IHl r), (IHl (S r)) by lia. reflexivity. }
  rewrite (E s (S (List.length s))) by lia. reflexivity.
Qed.

(** X2.  [powerset(s)] lists the subsets by size: the empty set first, the
    sizes never decreasing, [s] itself last. *)
Theorem powerset_order {A} (s : list A) :
  hd_error (powerset s) = Some []
  /\ StronglySorted le (map (@List.length A) (powerset s))
  /\ last (powerset s) [] = s.
Proof.
  unfold powerset. split; [|split].
  - rewrite Nat.add_1_r. cbn [seq flat_map].
    destruct s; reflexivity.
  - apply chain_sizes_sorted. intros r t. apply combinations_length.
  - rewrite Nat.add_1_r, seq_S, flat_map_app. cbn [flat_map Nat.add].
    rewrite app_nil_r, combinations_all. apply last_last.
Qed.

(** [t] is [s] with some elements left out, the others in their order. *)
Inductive subseq {A} : list A -> list A -> Prop :=
| subseq_nil : subseq [] []
| subseq_take x t s : subseq t s -> subseq (x :: t) (x :: s)
| subseq_skip x t s : subseq t s -> subseq t (x :: s).

Lemma subsets_subseq {A} (s t : list A) : In t (subsets s) <-> subseq t s.
Proof.
  revert t. induction s as [|x s IH]; intro t; cbn [subsets].
  - split.
    + intros [<-|[]]. constructor.
    + intro H. inversion H. now left.
  - rewrite in_app_iff, in_map_iff. split.
    + intros [[t' [<- H]]|H].
      * apply subseq_take. now apply IH.
      * apply subseq_skip. now apply IH.
    + intro H. inversion H as [|y t' s' H'|y t' s' H']; subst.
      * left. exists t'. split; [reflexivity|]. now apply IH.
      * right. now apply IH.
Qed.

(** X3.  The members of [powerset(s)] are the sub-sequences of [s]: every
    selection of positions of [s], and nothing else. *)
Theorem powerset_members {A} (s t : list A) :
  In t (powerset s) <-> subseq t s.
Proof.
  rewrite <- subsets_subseq. split; apply Permutation_in.
  - apply powerset_subsets.
  - apply Permutation_sym, powerset_subsets.
Qed.

Lemma subsets_nodup {A} (s : list A) : NoDup s -> NoDup (subsets s).
Proof.
  induction 1 as [|x s Hx Hnd IH]; cbn [subsets].
  - repeat constructor. intros [].
  - apply NoDup_app; [| exact IH |].
    + clear -IH. induction IH as [|t l Ht _ IHl]; cbn [map]; constructor;
        [|exact IHl].
      intro H. apply in_map_iff in H. destruct H as [t' [E H]].
      inversion E; subst. exact (Ht H).
    + intros t Ht Ht'. apply in_map_iff in Ht. destruct Ht as [t' [<- _]].
      apply Hx. apply (@subsets_incl _ _ _ Ht'). now left.
Qed.

(** X4.  When [s] has no repeated element, as for a Python set, no subset
    comes twice in [powerset(s)]. *)
Theorem powerset_nodup {A} (s : list A) :
  NoDup s -> NoDup (powerset s).
Proof.
  intro H.
  apply (Permutation_NoDup (Permutation_sym (@powerset_subsets A s))).
  now apply subsets_nodup.
Qed.

Lemma powerset_nodup_witness : NoDup (powerset ["Harry"; "James"; "Lily"]).
Proof.
  apply (@powerset_nodup string ["Harry"; "James"; "Lily"]).
  repeat constructor; cbn; intuition discriminate.
Defined.

(** ** The enumeration of [main]: what it visits and how often *)

(** X5.  In every hypothesis that [main] evaluates the three sets hold names
    of [people] only, and nobody is in both [one_gene] and [two_genes]:
    [two_genes] is drawn from [names - one_gene]. *)
Theorem hypotheses_partition people one_gene two_genes have_trait :
  In (one_gene, two_genes, have_trait) (hypotheses people) ->
  incl one_gene (names people)
  /\ incl two_genes (names people)
  /\ incl have_trait (names people)
  /\ forall x, mem x one_gene && mem x two_genes = false.
Proof.
  intro H. destruct (hypotheses_incl _ _ _ _ H) as [H1 [H2 H3]].
  repeat split; try assumption.
  intro x. destruct (mem x two_genes) eqn:E2; [|apply andb_false_r].
  rewrite andb_true_r.
  destruct (in_hypotheses _ _ H) as [_ [_ Hg]].
  destruct (in_gene_hypotheses _ _ _ Hg) as [_ [_ Ht]].
  cbn [fst snd] in Ht. apply powerset_incl in Ht.
  apply mem_In in E2. apply Ht in E2. unfold set_diff in E2.
  apply filter_In in E2. destruct E2 as [_ E2].
  now apply negb_true_iff in E2.
Qed.

Lemma hypotheses_partition_witness :
  incl example_one_gene (names example_people)
  /\ incl example_two_genes (names example_people)
  /\ incl example_have_trait (names example_people)
  /\ forall x, mem x example_one_gene && mem x example_two_genes = false.
Proof.
  apply (@hypotheses_partition example_people
           example_one_gene example_two_genes example_have_trait).
  vm_compute. in_list.
Defined.

(** The persons whose trait is not recorded. *)
Definition unknown_traits (people : family) : nat :=
  List.length (filter (fun kv => is_none (trait (snd kv))) people).

Section Counting.
Local Open Scope nat_scope.

Lemma list_sum_perm (l1 l2 : list nat) :
  Permutation l1 l2 -> list_sum l1 = list_sum l2.
Proof. induction 1; unfold list_sum in *; cbn [fold_right]; lia. Qed.

Lemma list_sum_map_ext_in {A} (f g : A -> nat) (l : list A) :
  (forall x, In x l -> f x = g x) ->
  list_sum (map f l) = list_sum (map g l).
Proof. intro H. f_equal. now apply map_ext_in. Qed.

Lemma list_sum_map_mul {A} (f : A -> nat) (c : nat) (l : list A) :
  list_sum (map (fun x => c * f x) l) = c * list_sum (map f l).
Proof.
  induction l as [|x l IH]; unfold list_sum in *; cbn [map fold_right];
    lia.
Qed.

Lemma flat_map_length {A B} (f : A -> list B) (l : list A) :
  List.length (flat_map f l)
  = list_sum (map (fun x => List.length (f x)) l).
Proof.
  induction l as [|x l IH]; [reflexivity|].
  cbn [flat_map map]. rewrite length_app, IH. reflexivity.
Qed.

(** One-gene sets with the two-gene sets of the others: three choices per
    name. *)
Lemma gene_sets_count (l : list string) :
  NoDup l ->
  list_sum (map (fun one_gene => 2 ^ List.length (set_diff l one_gene))
                (subsets l))
  = 3 ^ List.length l.
Proof.
  induction 1 as [|x l Hx Hnd IH]; [reflexivity|].
  cbn [subsets]. rewrite map_app, list_sum_app, map_map.
  rewrite (@list_sum_map_ext_in _
             (fun o => 2 ^ List.length (set_diff (x :: l) (x :: o)))
             (fun o => 2 ^ List.length (set_diff l o))).
  2:{ intros o _. now rewrite set_diff_cons_in. }
  rewrite (@list_sum_map_ext_in _
             (fun o => 2 ^ List.length (set_diff (x :: l) o))
             (fun o => 2 * 2 ^ List.length (set_diff l o))).
  2:{ intros o Ho. rewrite set_diff_cons_out; [reflexivity|].
      intro Hin. apply Hx. exact (@subsets_incl _ _ _ Ho x Hin). }
  rewrite list_sum_map_mul, IH. cbn [List.length Nat.pow]. lia.
Qed.

Lemma gene_hypotheses_length (l have_trait : list string) :
  NoDup l ->
  List.length (gene_hypotheses l have_trait) = 3 ^ List.length l.
Proof.
  intro Hnd. unfold gene_hypotheses. rewrite flat_map_length.
  rewrite (@list_sum_map_ext_in _ _
             (fun o => 2 ^ List.length (set_diff l o))).
  2:{ intros o _. rewrite length_map.
      rewrite (Permutation_length (@powerset_subsets string (set_diff l o))).
      apply subsets_length. }
  rewrite (list_sum_perm
             (Permutation_map _ (@powerset_subsets string l))).
  now apply gene_sets_count.
Qed.

Lemma fails_evidence_cons_other rest k have_trait :
  ~ In k (names rest) ->
  fails_evidence rest (k :: have_trait) = fails_evidence rest have_trait.
Proof.
  unfold fails_evidence, names.
  induction rest as [|kv rest IH]; intro Hk; [reflexivity|].
  cbn [existsb map] in *.
  rewrite IH by (intro H; apply Hk; now right). f_equal.
  rewrite mem_cons.
  destruct (String.eqb_spec (fst kv) k) as [E|_]; [|reflexivity].
  exfalso. apply Hk. now left.
Qed.

(** The trait sets that pass the evidence test: two choices per person of
    unknown trait, one for the others. *)
Lemma trait_sets_count (people : family) (c : nat) :
  NoDup (names people) ->
  list_sum (map (fun have_trait =>
                   if fails_evidence people have_trait then 0 else c)
                (subsets (names people)))
  = c * 2 ^ unknown_traits people.
Proof.
  unfold unknown_traits.
  induction people as [|[k row] rest IH]; intro Hnd.
  - cbn. lia.
  - cbn [names map fst] in Hnd. inversion Hnd as [|? ? Hk Hnd']; subst.
    specialize (IH Hnd').
    change (names ((k, row) :: rest)) with (k :: names rest).
    cbn [subsets]. rewrite map_app, list_sum_app, map_map.
    rewrite (@list_sum_map_ext_in _
               (fun ht => if fails_evidence ((k, row) :: rest) (k :: ht)
                          then 0 else c)
               (fun ht => if match trait row with
                             | Some false => true
                             | _ => false
                             end
                          then 0
                          else if fails_evidence rest ht then 0 else c)).
    2:{ intros ht _.
        change (fails_evidence ((k, row) :: rest) (k :: ht))
          with (match trait row with
                | Some t => negb (Bool.eqb t (mem k (k :: ht)))
                | None => false
                end || fails_evidence rest (k :: ht)).
        rewrite fails_evidence_cons_other by exact Hk.
        rewrite mem_cons, String.eqb_refl.
        destruct (trait row) as [[|]|]; reflexivity. }
    rewrite (@list_sum_map_ext_in _
               (fun ht => if fails_evidence ((k, row) :: rest) ht
                          then 0 else c)
               (fun ht => if match trait row with
                             | Some true => true
                             | _ => false
                             end
                          then 0
                          else if fails_evidence rest ht then 0 else c)).
    2:{ intros ht Hht.
        change (fails_evidence ((k, row) :: rest) ht)
          with (match trait row with
                | Some t => negb (Bool.eqb t (mem k ht))
                | None => false
                end || fails_evidence rest ht).
        assert (E : mem k ht = false).
        { apply mem_not_In. intro Hin. apply Hk.
          exact (@subsets_incl _ _ _ Hht k Hin). }
        rewrite E. destruct (trait row) as [[|]|]; reflexivity. }
    cbn [filter snd trait].
    destruct (trait row) as [[|]|]; cbn [is_none List.length Nat.pow];
      rewrite ?IH;
      try (rewrite (@list_sum_map_ext_in _ _ (fun _ => 0 * 0))
             by reflexivity;
           rewrite list_sum_map_mul);
      lia.
Qed.

End Counting.

(** X6.  With distinct names, [main] evaluates [joint_probability] and calls
    [update] exactly [3^n * 2^u] times, for [n] persons of whom [u] have no
    recorded trait. *)
Theorem hypotheses_count (people : family) :
  NoDup (names people) ->
  List.length (hypotheses people)
  = (3 ^ List.length people * 2 ^ unknown_traits people)%nat.
Proof.
  intro Hnd. unfold hypotheses. rewrite flat_map_length.
  rewrite (@list_sum_map_ext_in _ _
             (fun have_trait =>
                if fails_evidence people have_trait then 0%nat
                else (3 ^ List.length people)%nat)).
  2:{ intros ht _. destruct (fails_evidence people ht); [reflexivity|].
      rewrite (@gene_hypotheses_length (names people) ht Hnd).
      unfold names. now rewrite length_map. }
  rewrite (list_sum_perm
             (Permutation_map _ (@powerset_subsets string (names people)))).
  now apply trait_sets_count.
Qed.

Lemma hypotheses_count_witness :
  List.length (hypotheses example_people)
  = (3 ^ List.length example_people * 2 ^ unknown_traits example_people)%nat.
Proof.
  apply (@hypotheses_count example_people). exact example_people_nodup.
Defined.

(** ** joint_probability: the tables are distributions, the result a
    probability *)

(** X7.  Whatever the parents' fields and the hypothesis, the three values of
    [gene_probability] computed for a person (zero, one, two copies) add up
    to 1, and so do the two trait probabilities of every gene count.  Exact
    arithmetic. *)
Theorem gene_probability_total one_gene two_genes row :
  gene_probability (F:=Qc) one_gene two_genes row G0
  + gene_probability one_gene two_genes row G1
  + gene_probability one_gene two_genes row G2 = 1
  /\ forall g, PROBS_trait (F:=Qc) g true + PROBS_trait g false = 1.
Proof.
  split.
  - unfold gene_probability, pass_parent.
    destruct (is_none (mother row) && is_none (father row)),
             (mem_opt (mother row) two_genes),
             (mem_opt (mother row) one_gene),
             (mem_opt (father row) two_genes),
             (mem_opt (father row) one_gene); qc_eq.
  - intros [| |]; qc_eq.
Qed.




(** The same row with the mother and the father exchanged. *)
Definition swap_parents (row : person) : person :=
  {| mother := father row; father := mother row; trait := trait row |}.

(** X9.  Exchanging the mother and the father of every person leaves
    [joint_probability] unchanged: the two parents enter the formulas
    symmetrically.  Exact arithmetic. *)
Theorem joint_probability_swap_parents people one_gene two_genes have_trait :
  joint_probability (F:=Qc)
    (map (fun kv => (fst kv, swap_parents (snd kv))) people)
    one_gene two_genes have_trait
  = joint_probability people one_gene two_genes have_trait.
Proof.
  rewrite !joint_probability_Qprod, map_map. f_equal.
  apply map_ext. intro kv. cbn [fst snd]. f_equal.
  unfold gene_probability, swap_parents. cbn [mother father].
  rewrite andb_comm.
  destruct (is_none (mother (snd kv)) && is_none (father (snd kv)));
    [reflexivity|].
  destruct (genes_of one_gene two_genes (fst kv)); to_qc; ring.
Qed.

(** ** update: the order of the calls, the totals *)

(** X10.  Two calls of [update] can be exchanged: accumulating one hypothesis
    and then another gives the same [probabilities] as the other order.
    Exact arithmetic (in binary64 the rounding depends on the order). *)
Theorem update_commute (probabilities : table (F:=Qc))
    one_gene two_genes have_trait p one_gene' two_genes' have_trait' p' :
  update (update probabilities one_gene two_genes have_trait p)
         one_gene' two_genes' have_trait' p'
  = update (update probabilities one_gene' two_genes' have_trait' p')
           one_gene two_genes have_trait p.
Proof.
  unfold update. rewrite !map_map. apply map_ext. intros [k d].
  unfold update_person. cbn [fst snd]. f_equal.
  destruct (genes_of one_gene two_genes k),
           (genes_of one_gene' two_genes' k),
           (mem k have_trait), (mem k have_trait');
    cbn [add_gene add_trait gene2 gene1 gene0 traitT traitF];
    f_equal; to_qc; ring.
Qed.

(** X11.  After any sequence of hypotheses has been accumulated from the
    zero-initialised table, every person's gene buckets and every person's
    trait buckets add up to one and the same number, the sum of the joint
    probabilities of those hypotheses: [normalize] divides everybody by the
    same constant.  Exact arithmetic. *)
Theorem accumulate_totals (people : family) (hs : list hypothesis) :
  Forall (fun kv =>
            gene_sum (snd kv)
            = Qsum (map (fun h : hypothesis =>
                           joint_probability people (fst (fst h))
                             (snd (fst h)) (snd h)) hs)
            /\ trait_sum (snd kv) = gene_sum (snd kv))
         (accumulate (F:=Qc) people hs).
Proof.
  rewrite accumulate_entries. apply Forall_forall. intros kv Hkv.
  apply in_map_iff in Hkv. destruct Hkv as [[k row] [<- _]]. cbn [fst].
  change (snd (fold_left (entry_step people) hs (k, zero_dist)))
    with (accumulated people hs k).
  rewrite accumulated_gene_sum, accumulated_trait_sum. split; reflexivity.
Qed.

(** ** normalize: when it raises, what it leaves unchanged *)

Section NormalizeErrors.
Context {F : Type} {AF : Arith F}.

Lemma normalize_person_cases (d : dist (F:=F)) :
  (is_zero (gene_sum d) = false /\ is_zero (trait_sum d) = false
   /\ exists d', normalize_person d = Ok d')
  \/ ((is_zero (gene_sum d) = true \/ is_zero (trait_sum d) = true)
      /\ normalize_person d = Raise ZeroDivisionError).
Proof.
  unfold normalize_person, div.
  destruct (is_zero (gene_sum d)) eqn:Eg; cbn [bind].
  - right. split; [now left | reflexivity].
  - destruct (is_zero (trait_sum d)) eqn:Et; cbn [bind].
    + right. split; [now right | reflexivity].
    + left. repeat split. eexists. reflexivity.
Qed.

(** X12.  [normalize] raises [ZeroDivisionError] exactly when some person's
    gene buckets or trait buckets sum to zero; otherwise it returns.  Any
    arithmetic. *)
Theorem normalize_raises_iff (probabilities : table (F:=F)) :
  normalize probabilities = Raise ZeroDivisionError
  <-> Exists (fun kv => is_zero (gene_sum (snd kv)) = true
                        \/ is_zero (trait_sum (snd kv)) = true)
             probabilities.
Proof.
  induction probabilities as [|kv rest IH]; cbn [normalize].
  - split; [discriminate | intro H; inversion H].
  - destruct (normalize_person_cases (snd kv))
      as [[Hg [Ht [d' E]]]|[Hz E]]; rewrite E; cbn [bind].
    + split.
      * intro H. apply Exists_cons_tl. apply IH.
        destruct (normalize rest) as [rest'|[]]; [discriminate|reflexivity].
      * intro H. inversion H as [? ? [Hz|Hz]|? ? Hz]; subst;
          [congruence | congruence |].
        apply IH in Hz. now rewrite Hz.
    + split; [|reflexivity]. intros _. now apply Exists_cons_hd.
Qed.

End NormalizeErrors.

Lemma scaled_gene_sum (d : dist (F:=Qc)) :
  gene_sum d <> 0 -> gene_sum (scaled d) = 1.
Proof.
  intro H. rewrite gene_sum_Qc. unfold scaled. cbn [gene2 gene1 gene0].
  rewrite gene_sum_Qc in *. field. exact H.
Qed.

Lemma scaled_trait_sum (d : dist (F:=Qc)) :
  trait_sum d <> 0 -> trait_sum (scaled d) = 1.
Proof.
  intro H. rewrite trait_sum_Qc. unfold scaled. cbn [traitT traitF].
  rewrite trait_sum_Qc in *. field. exact H.
Qed.

Lemma is_zero_Qc (x : Qc) : is_zero x = false <-> x <> 0.
Proof.
  cbn [is_zero Arith_Qc]. destruct (Qc_eq_dec x 0) as [E|E].
  - split; [discriminate | contradiction].
  - split; [intros _; exact E | reflexivity].
Qed.

Lemma normalize_ok_nonzero (t t' : table (F:=Qc)) :
  normalize t = Ok t' ->
  Forall (fun kv => gene_sum (snd kv) <> 0 /\ trait_sum (snd kv) <> 0) t.
Proof.
  revert t'. induction t as [|kv rest IH]; intros t' E; [constructor|].
  cbn [normalize] in E.
  destruct (normalize_person_cases (snd kv)) as [[Hg [Ht [d' E']]]|[_ E']];
    rewrite E' in E; cbn [bind] in E; [|discriminate].
  destruct (normalize rest) as [rest'|] eqn:Er; [|discriminate].
  constructor.
  - split; now apply is_zero_Qc.
  - eapply IH. reflexivity.
Qed.

Lemma scaled_idempotent (d : dist (F:=Qc)) :
  gene_sum d <> 0 -> trait_sum d <> 0 -> scaled (scaled d) = scaled d.
Proof.
  intros Hg Ht. unfold scaled at 1.
  rewrite (scaled_gene_sum Hg), (scaled_trait_sum Ht).
  unfold scaled. cbn [gene2 gene1 gene0 traitT traitF].
  f_equal; field; (split; [assumption | discriminate]).
Qed.

(** X13.  Normalising twice changes nothing more: when the sums are not zero,
    [normalize] returns a table on which [normalize] returns that same
    table.  Exact arithmetic. *)
Theorem normalize_idempotent (probabilities : table (F:=Qc)) :
  Forall (fun kv => gene_sum (snd kv) <> 0 /\ trait_sum (snd kv) <> 0)
         probabilities ->
  exists normalized,
    normalize probabilities = Ok normalized
    /\ normalize normalized = Ok normalized.
Proof.
  intro H. eexists. split; [now apply normalize_scaled|].
  rewrite normalize_scaled.
  - rewrite map_map. cbn [fst snd]. f_equal.
    apply map_ext_in. intros kv Hkv.
    rewrite Forall_forall in H. destruct (H kv Hkv) as [Hg Ht].
    now rewrite scaled_idempotent.
  - apply Forall_forall. intros kv Hkv. apply in_map_iff in Hkv.
    destruct Hkv as [kv0 [<- Hkv0]]. cbn [snd].
    rewrite Forall_forall in H. destruct (H kv0 Hkv0) as [Hg Ht].
    rewrite (scaled_gene_sum Hg), (scaled_trait_sum Ht).
    split; discriminate.
Qed.

Lemma normalize_idempotent_witness :
  exists normalized,
    normalize unnormalized_example = Ok normalized
    /\ normalize normalized = Ok normalized.
Proof.
  apply (@normalize_idempotent unnormalized_example).
  repeat constructor; cbn [snd]; qc_nonzero.
Defined.

(** Every bucket of a person multiplied by [c]. *)
Definition scale_dist (c : Qc) (d : dist (F:=Qc)) : dist :=
  {| gene2 := c * gene2 d; gene1 := c * gene1 d; gene0 := c * gene0 d;
     traitT := c * traitT d; traitF := c * traitF d |}.

Lemma normalize_person_scale (c : Qc) (d : dist (F:=Qc)) :
  c <> 0 -> normalize_person (scale_dist c d) = normalize_person d.
Proof.
  intro Hc.
  assert (Eg : gene_sum (scale_dist c d) = c * gene_sum d)
    by (rewrite !gene_sum_Qc; cbn [scale_dist gene2 gene1 gene0]; ring).
  assert (Et : trait_sum (scale_dist c d) = c * trait_sum d)
    by (rewrite !trait_sum_Qc; cbn [scale_dist traitT traitF]; ring).
  assert (Hprod : forall s : Qc, s <> 0 -> c * s <> 0).
  { intros s Hs E. apply Qcmult_integral in E. tauto. }
  destruct (Qc_eq_dec (gene_sum d) 0) as [Zg|Ng].
  - unfold normalize_person, div. rewrite Eg, Zg, Qcmult_0_r.
    reflexivity.
  - destruct (Qc_eq_dec (trait_sum d) 0) as [Zt|Nt].
    + unfold normalize_person, div. rewrite Eg, Et, Zt, Qcmult_0_r.
      destruct (is_zero (c * gene_sum d)), (is_zero (gene_sum d));
        reflexivity.
    + rewrite (@normalize_person_Qc_ok d Ng Nt).
      rewrite (@normalize_person_Qc_ok (scale_dist c d)).
      * rewrite Eg, Et. cbn [scale_dist gene2 gene1 gene0 traitT traitF].
        f_equal. f_equal; field; auto.
      * rewrite Eg. now apply Hprod.
      * rewrite Et. now apply Hprod.
Qed.

(** X14.  [normalize] does not see a common factor: multiplying every bucket
    of every person by the same non-zero number gives the same result, error
    included.  Exact arithmetic. *)
Theorem normalize_scale_invariant (c : Qc) (probabilities : table (F:=Qc)) :
  c <> 0 ->
  normalize (map (fun kv => (fst kv, scale_dist c (snd kv))) probabilities)
  = normalize probabilities.
Proof.
  intro Hc. induction probabilities as [|kv rest IH]; [reflexivity|].
  cbn [map normalize fst snd].
  rewrite (normalize_person_scale (snd kv) Hc), IH. reflexivity.
Qed.

Lemma normalize_scale_invariant_witness :
  normalize (map (fun kv => (fst kv, scale_dist (lit 25 1) (snd kv)))
                 unnormalized_example)
  = normalize unnormalized_example.
Proof.
  apply (@normalize_scale_invariant (lit 25 1) unnormalized_example).
  qc_nonzero.
Defined.

(** ** main: what the returned table looks like *)

Lemma Qc_inv_pos (s : Qc) : 0 < s -> 0 < / s.
Proof.
  unfold Qclt. intro H.
  change (this (/ s)) with (Qred (/ this s)). rewrite Qred_correct.
  now apply Qinv_lt_0_compat.
Qed.

Lemma Qc_div_nonneg (x s : Qc) : 0 <= x -> 0 < s -> 0 <= x / s.
Proof.
  intros Hx Hs. unfold Qcdiv.
  rewrite <- (Qcmult_0_l (/ s)).
  apply Qcmult_le_compat_r; [exact Hx|].
  apply Qclt_le_weak. now apply Qc_inv_pos.
Qed.

Lemma Qsum_nonneg (l : list Qc) : Forall (fun x => 0 <= x) l -> 0 <= Qsum l.
Proof.
  induction 1 as [|x l Hx _ IH].
  - rewrite Qsum_nil. apply Qcle_refl.
  - rewrite Qsum_cons. rewrite <- (Qcplus_0_l 0).
    now apply Qcplus_le_compat.
Qed.

Lemma contrib_gene_nonneg people k g h : 0 <= contrib_gene people k g h.
Proof.
  unfold contrib_gene.
  destruct (genes_eqb g (genes_of (fst (fst h)) (snd (fst h)) k)).
  - apply Qclt_le_weak. rewrite joint_probability_joint. apply joint_pos.
  - apply Qcle_refl.
Qed.

Lemma contrib_trait_nonneg people k b h : 0 <= contrib_trait people k b h.
Proof.
  unfold contrib_trait. destruct (Bool.eqb b (mem k (snd h))).
  - apply Qclt_le_weak. rewrite joint_probability_joint. apply joint_pos.
  - apply Qcle_refl.
Qed.

Lemma accumulated_gene_nonneg people hs k g :
  0 <= gene_bucket (accumulated people hs k) g.
Proof.
  rewrite accumulated_gene. apply Qsum_nonneg, Forall_forall.
  intros x Hx. apply in_map_iff in Hx. destruct Hx as [h [<- _]].
  apply contrib_gene_nonneg.
Qed.

Lemma accumulated_trait_nonneg people hs k b :
  0 <= trait_bucket (accumulated people hs k) b.
Proof.
  rewrite accumulated_trait. apply Qsum_nonneg, Forall_forall.
  intros x Hx. apply in_map_iff in Hx. destruct Hx as [h [<- _]].
  apply contrib_trait_nonneg.
Qed.

Lemma Qc_le_sum3 (a b c : Qc) :
  0 <= a -> 0 <= b -> 0 <= c -> a + b + c = 1 ->
  a <= 1 /\ b <= 1 /\ c <= 1.
Proof.
  intros Ha Hb Hc E. rewrite <- E. repeat split.
  - rewrite <- (Qcplus_0_r a) at 1. rewrite <- Qcplus_assoc.
    apply Qcplus_le_compat; [apply Qcle_refl|].
    rewrite <- (Qcplus_0_l 0). now apply Qcplus_le_compat.
  - rewrite <- (Qcplus_0_l b) at 1. rewrite <- (Qcplus_0_r (0 + b)).
    apply Qcplus_le_compat; [|exact Hc].
    apply Qcplus_le_compat; [exact Ha | apply Qcle_refl].
  - rewrite <- (Qcplus_0_l c) at 1.
    apply Qcplus_le_compat; [|apply Qcle_refl].
    rewrite <- (Qcplus_0_l 0). now apply Qcplus_le_compat.
Qed.

(** What [main] returns for one person: two distributions. *)
Definition is_distribution (d : dist (F:=Qc)) : Prop :=
  gene_sum d = 1 /\ trait_sum d = 1
  /\ (forall g, 0 <= gene_bucket d g /\ gene_bucket d g <= 1)
  /\ (forall b, 0 <= trait_bucket d b /\ trait_bucket d b <= 1).

Lemma scaled_accumulated_distribution people hs k :
  hs <> [] -> is_distribution (scaled (accumulated people hs k)).
Proof.
  intro Hne. set (d := accumulated people hs k).
  assert (Hm := mass_pos people Hne).
  assert (Hg : gene_sum d = mass people hs)
    by apply accumulated_gene_sum.
  assert (Ht : trait_sum d = mass people hs)
    by apply accumulated_trait_sum.
  assert (Hgn : gene_sum d <> 0).
  { rewrite Hg. intro E. rewrite E in Hm. discriminate. }
  assert (Htn : trait_sum d <> 0).
  { rewrite Ht. intro E. rewrite E in Hm. discriminate. }
  assert (Gpos : forall g, 0 <= gene_bucket (scaled d) g).
  { intro g.
    replace (gene_bucket (scaled d) g) with (gene_bucket d g / gene_sum d)
      by (destruct g; reflexivity).
    apply Qc_div_nonneg; [apply accumulated_gene_nonneg | now rewrite Hg]. }
  assert (Tpos : forall b, 0 <= trait_bucket (scaled d) b).
  { intro b.
    replace (trait_bucket (scaled d) b)
      with (trait_bucket d b / trait_sum d) by (destruct b; reflexivity).
    apply Qc_div_nonneg; [apply accumulated_trait_nonneg | now rewrite Ht]. }
  assert (Gs := scaled_gene_sum Hgn). assert (Ts := scaled_trait_sum Htn).
  split; [exact Gs|]. split; [exact Ts|].
  rewrite gene_sum_Qc in Gs. rewrite trait_sum_Qc in Ts.
  destruct (@Qc_le_sum3 _ _ _ (Gpos G2) (Gpos G1) (Gpos G0) Gs)
    as [L2 [L1 L0]].
  assert (Ts' : traitT (scaled d) + traitF (scaled d) + 0 = 1)
    by (rewrite Qcplus_0_r; exact Ts).
  destruct (@Qc_le_sum3 _ _ _ (Tpos true) (Tpos false) (Qcle_refl 0) Ts')
    as [LT [LF _]].
  split.
  - intro g. split; [apply Gpos|]. destruct g; assumption.
  - intro b. split; [apply Tpos|]. destruct b; assumption.
Qed.

(** X15.  For every family with distinct names, whatever the evidence and
    the parent links, [main] returns a table with the persons of [people] in
    their order, in which each person's gene values and trait values are
    numbers between 0 and 1 that sum to 1.  Exact arithmetic. *)
Theorem main_returns_distributions (people : family) :
  NoDup (names people) ->
  exists table,
    main (F:=Qc) people = Ok table
    /\ Forall2 (fun kv entry =>
                  fst entry = fst kv /\ is_distribution (snd entry))
               people table.
Proof.
  intro Hnd. eexists. split; [now apply main_returns|].
  apply Forall2_map_in. intros kv _. cbn [fst snd].
  split; [reflexivity|].
  apply scaled_accumulated_distribution. now apply hypotheses_nonempty.
Qed.

Lemma main_returns_distributions_witness :
  exists table,
    main (F:=Qc) example_people = Ok table
    /\ Forall2 (fun kv entry =>
                  fst entry = fst kv /\ is_distribution (snd entry))
               example_people table.
Proof.
  apply (@main_returns_distributions example_people).
  exact example_people_nodup.
Defined.

Lemma Qsum_map_all_zero {A} (f : A -> Qc) (l : list A) :
  (forall x, In x l -> f x = 0) -> Qsum (map f l) = 0.
Proof.
  intro H. rewrite (@Qsum_map_ext_in _ f (fun _ => 0) l H).
  apply Qsum_map_zero.
Qed.

(** How certain the returned trait distribution of [kv] is: a recorded trait
    gets probability 1, its opposite 0. *)
Definition trait_is_evidence (kv : string * person)
    (entry : string * dist (F:=Qc)) : Prop :=
  fst entry = fst kv
  /\ forall known, trait (snd kv) = Some known ->
                   trait_bucket (snd entry) known = 1
                   /\ trait_bucket (snd entry) (negb known) = 0.

(** X16.  A person whose trait is recorded comes out with that trait at
    probability 1 and the opposite at 0: only hypotheses that agree with the
    record are accumulated.  Exact arithmetic, distinct names. *)
Theorem main_keeps_evidence (people : family) :
  NoDup (names people) ->
  exists table,
    main (F:=Qc) people = Ok table
    /\ Forall2 trait_is_evidence people table.
Proof.
  intro Hnd. eexists. split; [now apply main_returns|].
  apply Forall2_map_in. intros [k row] Hin. unfold trait_is_evidence.
  cbn [fst snd]. split; [reflexivity|]. intros known Hknown.
  set (hs := hypotheses people). set (d := accumulated people hs k).
  assert (Hne : hs <> []) by now apply hypotheses_nonempty.
  assert (Hm := mass_pos people Hne).
  assert (Ht : trait_sum d = mass people hs) by apply accumulated_trait_sum.
  assert (Htn : trait_sum d <> 0).
  { rewrite Ht. intro E. rewrite E in Hm. discriminate. }
  assert (Z : trait_bucket d (negb known) = 0).
  { unfold d. rewrite accumulated_trait. apply Qsum_map_all_zero.
    intros [[o t] h] Hh. unfold contrib_trait. cbn [fst snd].
    destruct (in_hypotheses _ _ Hh) as [Hf _]. cbn [snd] in Hf.
    rewrite (fails_evidence_false _ _ Hf _ _ Hin Hknown).
    destruct known; reflexivity. }
  assert (Z' : trait_bucket (scaled d) (negb known) = 0).
  { replace (trait_bucket (scaled d) (negb known))
      with (trait_bucket d (negb known) / trait_sum d)
      by (destruct known; reflexivity).
    rewrite Z. field. exact Htn. }
  split; [|exact Z'].
  assert (Ts := scaled_trait_sum Htn). rewrite trait_sum_Qc in Ts.
  destruct known; cbn [negb trait_bucket] in *.
  - rewrite Z', Qcplus_0_r in Ts. exact Ts.
  - rewrite Z', Qcplus_0_l in Ts. exact Ts.
Qed.

Lemma main_keeps_evidence_witness :
  exists table,
    main (F:=Qc) example_people = Ok table
    /\ Forall2 trait_is_evidence example_people table.
Proof.
  apply (@main_keeps_evidence example_people).
  exact example_people_nodup.
Defined.

(** ** load_data

    Opening the file and splitting its lines is the work of the [csv]
    module; the model starts from the rows [csv.DictReader] yields, each a
    dictionary from column name to field text (a line with as many cells as
    the header has columns). *)

Definition csv_row := list (string * string).

(** The exception of a dictionary lookup, or the value. *)
Inductive lookup (A : Type) :=
| Found (a : A)
| KeyError (key : string).
Arguments KeyError {A} key.

(** [row[k]] *)
Definition row_get (row : csv_row) (k : string) : lookup string :=
  match dict_get row k with
  | Some v => Found v
  | None => KeyError k
  end.

(** [s or None]: the empty string is falsy. *)
Definition or_none (s : string) : option string :=
  if String.eqb s "" then None else Some s.

(** [True if s == "1" else False if s == "0" else None] *)
Definition trait_of (s : string) : option bool :=
  if String.eqb s "1" then Some true
  else if String.eqb s "0" then Some false
  else None.

(** The value stored for a row: the name once more, and the three fields
    that [main] reads. *)
Record entry := {
  name : string;
  fields : person
}.

(** The body of the loop: [name] is looked up first, then the fields in the
    order of the dictionary display. *)
Definition load_row (row : csv_row) : lookup (string * entry) :=
  match row_get row "name" with
  | KeyError k => KeyError k
  | Found n =>
      match row_get row "mother" with
      | KeyError k => KeyError k
      | Found m =>
          match row_get row "father" with
          | KeyError k => KeyError k
          | Found f =>
              match row_get row "trait" with
              | KeyError k => KeyError k
              | Found t =>
                  Found (n, {| name := n;
                               fields := {| mother := or_none m;
                                            father := or_none f;
                                            trait := trait_of t |} |})
              end
          end
      end
  end.

(** [d[k] = v]: an existing key keeps its place and gets the new value, a
    new key goes to the end. *)
Fixpoint dict_set {A} (d : list (string * A)) (k : string) (v : A)
    : list (string * A) :=
  match d with
  | [] => [(k, v)]
  | kv :: d' =>
      if String.eqb (fst kv) k then (fst kv, v) :: d'
      else kv :: dict_set d' k v
  end.

Fixpoint load_rows (rows : list csv_row) (data : list (string * entry))
    : lookup (list (string * entry)) :=
  match rows with
  | [] => Found data
  | row :: rest =>
      match load_row row with
      | KeyError k => KeyError k
      | Found kv => load_rows rest (dict_set data (fst kv) (snd kv))
      end
  end.

Definition load_data (rows : list csv_row) : lookup (list (string * entry)) :=
  load_rows rows [].

(** The loaded dictionary as [main] reads it. *)
Definition people_of (data : list (string * entry)) : family :=
  map (fun kv => (fst kv, fields (snd kv))) data.

(** The rows of the three-person example, as a file would give them. *)
Definition example_rows : list csv_row :=
  [[("name", "Harry"); ("mother", "Lily"); ("father", "James");
    ("trait", "1")];
   [("name", "James"); ("mother", ""); ("father", ""); ("trait", "1")];
   [("name", "Lily"); ("mother", ""); ("father", ""); ("trait", "0")]].

Lemma dict_set_keys {A} (d : list (string * A)) k v :
  map fst (dict_set d k v)
  = if mem k (map fst d) then map fst d else map fst d ++ [k].
Proof.
  induction d as [|kv d IH]; [reflexivity|].
  cbn [dict_set map]. rewrite mem_cons, (String.eqb_sym k (fst kv)).
  destruct (String.eqb (fst kv) k) eqn:E; cbn [orb map fst].
  - reflexivity.
  - rewrite IH. destruct (mem k (map fst d)); reflexivity.
Qed.

Lemma dict_set_nodup {A} (d : list (string * A)) k v :
  NoDup (map fst d) -> NoDup (map fst (dict_set d k v)).
Proof.
  intro H. rewrite dict_set_keys.
  destruct (mem k (map fst d)) eqn:E; [exact H|].
  apply mem_not_In in E.
  apply NoDup_app; [exact H | repeat constructor; intros [] |].
  intros x Hx [<-|[]]. exact (E Hx).
Qed.

Lemma dict_get_set_same {A} (d : list (string * A)) k v :
  dict_get (dict_set d k v) k = Some v.
Proof.
  unfold dict_get. induction d as [|kv d IH]; cbn [dict_set find fst].
  - now rewrite String.eqb_refl.
  - destruct (String.eqb (fst kv) k) eqn:E; cbn [find fst].
    + apply String.eqb_eq in E. rewrite E, String.eqb_refl. reflexivity.
    + rewrite E. exact IH.
Qed.

Lemma dict_get_set_other {A} (d : list (string * A)) k k' v :
  k' <> k -> dict_get (dict_set d k v) k' = dict_get d k'.
Proof.
  intro Hk. unfold dict_get.
  induction d as [|kv d IH]; cbn [dict_set find fst].
  - destruct (String.eqb_spec k k'); [congruence | reflexivity].
  - destruct (String.eqb_spec (fst kv) k) as [E|E]; cbn [find fst].
    + destruct (String.eqb_spec (fst kv) k'); [congruence | reflexivity].
    + destruct (String.eqb (fst kv) k'); [reflexivity | exact IH].
Qed.

Lemma dict_set_in {A} (d : list (string * A)) k v kv :
  In kv (dict_set d k v) -> kv = (k, v) \/ In kv d.
Proof.
  induction d as [|kv0 d IH]; cbn [dict_set].
  - intros [<-|[]]. now left.
  - destruct (String.eqb_spec (fst kv0) k) as [E|_].
    + intros [<-|H]; [left; now rewrite E | right; now right].
    + intros [<-|H]; [right; now left|].
      destruct (IH H) as [->|H']; [now left | right; now right].
Qed.

Lemma load_row_name row kv :
  load_row row = Found kv ->
  dict_get row "name" = Some (fst kv) /\ name (snd kv) = fst kv.
Proof.
  unfold load_row, row_get.
  destruct (dict_get row "name") as [n|]; [|discriminate].
  destruct (dict_get row "mother") as [m|]; [|discriminate].
  destruct (dict_get row "father") as [f|]; [|discriminate].
  destruct (dict_get row "trait") as [t|]; [|discriminate].
  intro E. inversion E. split; reflexivity.
Qed.

Lemma load_rows_app rows1 rows2 data :
  load_rows (rows1 ++ rows2) data
  = match load_rows rows1 data with
    | Found data1 => load_rows rows2 data1
    | KeyError k => KeyError k
    end.
Proof.
  revert data. induction rows1 as [|row rows1 IH]; intro data;
    [reflexivity|].
  cbn [app load_rows]. destruct (load_row row); [apply IH | reflexivity].
Qed.

(** What the loop keeps true of [data] from one row to the next. *)
Lemma load_rows_invariant rows : forall data0 data,
  load_rows rows data0 = Found data ->
  NoDup (map fst data0) ->
  Forall (fun kv => name (snd kv) = fst kv) data0 ->
  NoDup (map fst data)
  /\ Forall (fun kv => name (snd kv) = fst kv) data
  /\ forall n, In n (map fst data)
               <-> In n (map fst data0)
                   \/ exists row, In row rows
                                  /\ dict_get row "name" = Some n.
Proof.
  induction rows as [|row rows IH]; intros data0 data E Hnd Hname.
  - inversion E; subst. repeat split; try assumption.
    + now left.
    + intros [H|[row [[] _]]]. exact H.
  - cbn [load_rows] in E. destruct (load_row row) as [kv|] eqn:Er;
      [|discriminate].
    destruct (load_row_name _ Er) as [Hn Hk].
    destruct (IH _ _ E) as [H1 [H2 H3]].
    + now apply dict_set_nodup.
    + apply Forall_forall. intros kv' Hin.
      destruct (dict_set_in _ _ _ _ Hin) as [->|Hin'].
      * exact Hk.
      * rewrite Forall_forall in Hname. now apply Hname.
    + split; [exact H1|]. split; [exact H2|].
      intro n. rewrite H3, dict_set_keys.
      destruct (mem (fst kv) (map fst data0)) eqn:Em.
      * apply mem_In in Em. split.
        -- intros [H|[r [Hr Hrn]]]; [now left|].
           right. exists r. split; [now right | exact Hrn].
        -- intros [H|[r [[<-|Hr] Hrn]]]; [now left | |].
           ++ left. congruence.
           ++ right. exists r. split; assumption.
      * rewrite in_app_iff. split.
        -- intros [[H|[<-|[]]]|[r [Hr Hrn]]].
           ++ now left.
           ++ right. exists row. split; [now left | exact Hn].
           ++ right. exists r. split; [now right | exact Hrn].
        -- intros [H|[r [[<-|Hr] Hrn]]].
           ++ left. now left.
           ++ left. right. left. congruence.
           ++ right. exists r. split; assumption.
Qed.

(** X17.  Whatever the rows, the dictionary that [load_data] returns has one
    entry per distinct name of the file (repeated names do not give repeated
    keys) and every entry carries its own key in its ["name"] field. *)
Theorem load_data_keys rows data :
  load_data rows = Found data ->
  NoDup (map fst data)
  /\ Forall (fun kv => name (snd kv) = fst kv) data
  /\ forall n, In n (map fst data)
               <-> exists row, In row rows /\ dict_get row "name" = Some n.
Proof.
  intro E.
  destruct (@load_rows_invariant rows [] data E) as [H1 [H2 H3]];
    [constructor | constructor |].
  split; [exact H1|]. split; [exact H2|].
  intro n. rewrite H3. split; [intros [[]|H]; exact H | now right].
Qed.

(** What [load_data] returns for the example rows. *)
Definition example_data : list (string * entry) :=
  [("Harry", {| name := "Harry";
                fields := {| mother := Some "Lily"; father := Some "James";
                             trait := Some true |} |});
   ("James", {| name := "James";
                fields := {| mother := None; father := None;
                             trait := Some true |} |});
   ("Lily", {| name := "Lily";
               fields := {| mother := None; father := None;
                            trait := Some false |} |})].

Lemma load_data_keys_witness :
  NoDup (map fst example_data)
  /\ Forall (fun kv => name (snd kv) = fst kv) example_data
  /\ forall n, In n (map fst example_data)
               <-> exists row, In row example_rows
                               /\ dict_get row "name" = Some n.
Proof.
  apply (@load_data_keys example_rows example_data). reflexivity.
Defined.

Lemma load_rows_other rows n : forall data0 data,
  load_rows rows data0 = Found data ->
  (forall row, In row rows -> dict_get row "name" <> Some n) ->
  dict_get data n = dict_get data0 n.
Proof.
  induction rows as [|row rows IH]; intros data0 data E Hn.
  - inversion E. reflexivity.
  - cbn [load_rows] in E. destruct (load_row row) as [kv|] eqn:Er;
      [|discriminate].
    rewrite (IH _ _ E) by (intros r Hr; apply Hn; now right).
    apply dict_get_set_other. intro Ek.
    destruct (load_row_name _ Er) as [Hrn _].
    apply (Hn row); [now left | congruence].
Qed.

(** X18.  When a name comes on several rows, the last of them decides: the
    entry stored under the name is the one built from the last row that
    carries it. *)
Theorem load_data_last_row_wins before row after data kv :
  load_data (before ++ row :: after) = Found data ->
  load_row row = Found kv ->
  (forall later, In later after -> dict_get later "name" <> Some (fst kv)) ->
  dict_get data (fst kv) = Some (snd kv).
Proof.
  unfold load_data. rewrite load_rows_app. intros E Er Hafter.
  destruct (load_rows before []) as [data1|]; [|discriminate].
  cbn [load_rows] in E. rewrite Er in E.
  rewrite (load_rows_other _ _ E Hafter).
  apply dict_get_set_same.
Qed.

Lemma load_data_last_row_wins_witness :
  dict_get
    [("Lily", {| name := "Lily";
                 fields := {| mother := Some "Ann"; father := None;
                              trait := Some false |} |});
     ("James", {| name := "James";
                  fields := {| mother := None; father := None;
                               trait := None |} |})]
    "Lily"
  = Some {| name := "Lily";
            fields := {| mother := Some "Ann"; father := None;
                         trait := Some false |} |}.
Proof.
  apply (@load_data_last_row_wins
           [[("name", "Lily"); ("mother", ""); ("father", ""); ("trait", "1")];
            [("name", "James"); ("mother", ""); ("father", ""); ("trait", "")]]
           [("name", "Lily"); ("mother", "Ann"); ("father", "");
            ("trait", "0")]
           []
           _
           ("Lily", {| name := "Lily";
                       fields := {| mother := Some "Ann"; father := None;
                                    trait := Some false |} |})).
  - reflexivity.
  - reflexivity.
  - intros later [].
Defined.

Lemma dict_set_new {A} (d : list (string * A)) k v :
  ~ In k (map fst d) -> dict_set d k v = d ++ [(k, v)].
Proof.
  induction d as [|kv d IH]; intro H; [reflexivity|].
  cbn [dict_set app]. cbn [map In] in H.
  destruct (String.eqb_spec (fst kv) k) as [E|_]; [tauto|].
  rewrite IH by tauto. reflexivity.
Qed.

Lemma load_rows_distinct rows : forall data0 data,
  load_rows rows data0 = Found data ->
  NoDup (map (fun row => dict_get row "name") rows) ->
  (forall row n, In row rows -> dict_get row "name" = Some n ->
                 ~ In n (map fst data0)) ->
  exists loaded,
    data = data0 ++ loaded
    /\ Forall2 (fun row kv => load_row row = Found kv) rows loaded.
Proof.
  induction rows as [|row rows IH]; intros data0 data E Hnd Hnew.
  - inversion E. exists []. split; [now rewrite app_nil_r | constructor].
  - cbn [load_rows] in E. destruct (load_row row) as [kv|] eqn:Er;
      [|discriminate].
    destruct (load_row_name _ Er) as [Hn _].
    cbn [map] in Hnd. inversion Hnd as [|? ? Hfirst Hrest]; subst.
    rewrite dict_set_new in E by (apply (Hnew row); [now left | exact Hn]).
    destruct (IH _ _ E Hrest) as [loaded [-> Hl]].
    + intros r n Hr Hrn Hin. rewrite map_app in Hin.
      apply in_app_or in Hin. destruct Hin as [Hin|[<-|[]]].
      * apply (Hnew r n); [now right | exact Hrn | exact Hin].
      * apply Hfirst. cbn [fst] in Hrn. rewrite Hn, <- Hrn.
        apply (in_map (fun row => dict_get row "name")), Hr.
    + exists (kv :: loaded). split.
      * rewrite <- app_assoc. destruct kv. reflexivity.
      * now constructor.
Qed.

(** X19.  When no name is repeated in the file, [load_data] returns the rows
    in the order of the file, each turned into its entry: a blank mother or
    father becomes [None], the trait is [True] for the text 1, [False] for
    the text 0 and [None] for anything else. *)
Theorem load_data_in_order rows data :
  load_data rows = Found data ->
  NoDup (map (fun row => dict_get row "name") rows) ->
  Forall2 (fun row kv =>
             exists n m f t,
               dict_get row "name" = Some n
               /\ dict_get row "mother" = Some m
               /\ dict_get row "father" = Some f
               /\ dict_get row "trait" = Some t
               /\ kv = (n, {| name := n;
                              fields := {| mother := or_none m;
                                           father := or_none f;
                                           trait := trait_of t |} |}))
          rows data.
Proof.
  intros E Hnd.
  destruct (@load_rows_distinct rows [] data E Hnd) as [loaded [-> Hl]].
  - intros row n _ _ [].
  - cbn [app]. clear -Hl. induction Hl as [|row kv rows loaded Hr _ IH];
      constructor; [|exact IH].
    unfold load_row, row_get in Hr.
    destruct (dict_get row "name") as [n|]; [|discriminate].
    destruct (dict_get row "mother") as [m|]; [|discriminate].
    destruct (dict_get row "father") as [f|]; [|discriminate].
    destruct (dict_get row "trait") as [t|]; [|discriminate].
    inversion Hr. exists n, m, f, t. repeat split; reflexivity.
Qed.

Lemma load_data_in_order_witness :
  Forall2 (fun row kv =>
             exists n m f t,
               dict_get row "name" = Some n
               /\ dict_get row "mother" = Some m
               /\ dict_get row "father" = Some f
               /\ dict_get row "trait" = Some t
               /\ kv = (n, {| name := n;
                              fields := {| mother := or_none m;
                                           father := or_none f;
                                           trait := trait_of t |} |}))
          example_rows example_data.
Proof.
  apply (@load_data_in_order example_rows example_data).
  - reflexivity.
  - repeat constructor; cbn; intuition discriminate.
Defined.

(** The columns that [load_data] reads. *)
Definition columns : list string := ["name"; "mother"; "father"; "trait"].

Definition has_columns (row : csv_row) : bool :=
  forallb (fun c => negb (is_none (dict_get row c))) columns.

Lemma load_row_columns row :
  match load_row row with
  | Found _ => has_columns row = true
  | KeyError k => In k columns /\ dict_get row k = None
  end.
Proof.
  unfold load_row, row_get, has_columns, columns. cbn [forallb].
  destruct (dict_get row "name") eqn:E1; [|split; [in_list | exact E1]].
  destruct (dict_get row "mother") eqn:E2; [|split; [in_list | exact E2]].
  destruct (dict_get row "father") eqn:E3; [|split; [in_list | exact E3]].
  destruct (dict_get row "trait") eqn:E4; [|split; [in_list | exact E4]].
  reflexivity.
Qed.

Lemma load_rows_columns rows : forall data0,
  match load_rows rows data0 with
  | Found _ => Forall (fun row => has_columns row = true) rows
  | KeyError k =>
      In k columns /\ exists row, In row rows /\ dict_get row k = None
  end.
Proof.
  induction rows as [|row rows IH]; intro data0; cbn [load_rows].
  - constructor.
  - assert (Hr := load_row_columns row).
    destruct (load_row row) as [kv|k].
    + specialize (IH (dict_set data0 (fst kv) (snd kv))).
      destruct (load_rows rows (dict_set data0 (fst kv) (snd kv))).
      * now constructor.
      * destruct IH as [Hk [r [Hin Hnone]]]. split; [exact Hk|].
        exists r. split; [now right | exact Hnone].
    + destruct Hr as [Hk Hnone]. split; [exact Hk|].
      exists row. split; [now left | exact Hnone].
Qed.

(** X20.  [load_data] fails only for a missing column: either it returns and
    every row has the four columns, or it raises [KeyError] for one of the
    four column names, which some row lacks.  Nothing else is checked: names
    of parents, one-sided parents and odd trait texts are all accepted. *)
Theorem load_data_key_error rows :
  match load_data rows with
  | Found _ => Forall (fun row => has_columns row = true) rows
  | KeyError k =>
      In k columns /\ exists row, In row rows /\ dict_get row k = None
  end.
Proof. unfold load_data. exact (load_rows_columns rows []). Qed.

Lemma load_rows_found rows :
  Forall (fun row => has_columns row = true) rows ->
  forall data0, exists data, load_rows rows data0 = Found data.
Proof.
  intros H data0. assert (Hc := load_rows_columns rows data0).
  destruct (load_rows rows data0) as [data|k]; [now exists data|].
  exfalso. destruct Hc as [Hk [row [Hin Hnone]]].
  rewrite Forall_forall in H. specialize (H row Hin).
  unfold has_columns in H. rewrite forallb_forall in H.
  specialize (H k Hk). now rewrite Hnone in H.
Qed.

(** X21.  From the rows to the result: for every file whose rows have the
    four columns, [load_data] returns and [main] on what it returns gives,
    for each loaded person, values between 0 and 1 that sum to 1, whatever
    the file says about parents and traits.  Exact arithmetic. *)
Theorem load_then_main_returns rows :
  Forall (fun row => has_columns row = true) rows ->
  exists data table,
    load_data rows = Found data
    /\ main (F:=Qc) (people_of data) = Ok table
    /\ Forall2 (fun kv entry =>
                  fst entry = fst kv /\ is_distribution (snd entry))
               data table.
Proof.
  intro H. destruct (load_rows_found H []) as [data E].
  destruct (@load_rows_invariant rows [] data E) as [Hnd _];
    [constructor | constructor |].
  assert (Hnames : names (people_of data) = map fst data).
  { unfold names, people_of. rewrite map_map. reflexivity. }
  assert (Hnd' : NoDup (names (people_of data))) by now rewrite Hnames.
  exists data. eexists. split; [exact E|].
  split; [now apply main_returns|].
  unfold people_of. rewrite map_map. cbn [fst].
  apply Forall2_map_in. intros kv _. cbn [fst snd].
  split; [reflexivity|].
  apply scaled_accumulated_distribution. now apply hypotheses_nonempty.
Qed.

Lemma load_then_main_returns_witness :
  exists data table,
    load_data example_rows = Found data
    /\ main (F:=Qc) (people_of data) = Ok table
    /\ Forall2 (fun kv entry =>
                  fst entry = fst kv /\ is_distribution (snd entry))
               data table.
Proof.
  apply (@load_then_main_returns example_rows).
  repeat constructor.
Defined.

(** ** Sets that overlap, hypotheses that repeat *)

Section Overlap.
Context {F : Type} {AF : Arith F}.

Lemma mem_set_diff x a b : mem x (set_diff a b) = mem x a && negb (mem x b).
Proof.
  unfold set_diff. induction a as [|y a IH]; [reflexivity|].
  cbn [filter]. destruct (mem y b) eqn:E; cbn [negb];
    rewrite ?mem_cons, IH;
    destruct (String.eqb_spec x y) as [->|_]; rewrite ?E;
    cbn [orb negb andb]; try reflexivity.
  destruct (mem y a); reflexivity.
Qed.

Lemma genes_of_set_diff one_gene two_genes x :
  genes_of (set_diff one_gene two_genes) two_genes x
  = genes_of one_gene two_genes x.
Proof.
  unfold genes_of. rewrite mem_set_diff.
  destruct (mem x two_genes); [reflexivity|].
  cbn [negb]. now rewrite andb_true_r.
Qed.

Lemma pass_parent_set_diff one_gene two_genes parent :
  pass_parent (F:=F) (set_diff one_gene two_genes) two_genes parent
  = pass_parent one_gene two_genes parent.
Proof.
  unfold pass_parent. destruct parent as [x|]; cbn [mem_opt]; [|reflexivity].
  rewrite mem_set_diff. destruct (mem x two_genes); [reflexivity|].
  cbn [negb]. now rewrite andb_true_r.
Qed.

Lemma fold_left_ext {A B} (f g : A -> B -> A) (l : list B) (a : A) :
  (forall a b, f a b = g a b) -> fold_left f l a = fold_left g l a.
Proof.
  intro H. revert a. induction l as [|b l IH]; intro a; [reflexivity|].
  cbn [fold_left]. now rewrite H, IH.
Qed.

(** X22.  A person listed in both [one_gene] and [two_genes] counts as
    carrying two copies, in [joint_probability] and in [update] alike: both
    give the result they give when that person is taken out of [one_gene].
    Any arithmetic. *)
Theorem two_genes_takes_precedence (people : family)
    (probabilities : table (F:=F)) one_gene two_genes have_trait p :
  joint_probability (F:=F) people one_gene two_genes have_trait
  = joint_probability people (set_diff one_gene two_genes) two_genes
      have_trait
  /\ update probabilities one_gene two_genes have_trait p
     = update probabilities (set_diff one_gene two_genes) two_genes
         have_trait p.
Proof.
  split.
  - unfold joint_probability. apply fold_left_ext. intros a kv.
    unfold joint_step, gene_probability.
    now rewrite genes_of_set_diff, !pass_parent_set_diff.
  - unfold update. apply map_ext. intro kv. unfold update_person.
    now rewrite genes_of_set_diff.
Qed.

End Overlap.

Lemma flat_map_nodup {A B} (f : A -> list B) (l : list A) :
  NoDup l ->
  (forall x, In x l -> NoDup (f x)) ->
  (forall x y b, In x l -> In y l -> In b (f x) -> In b (f y) -> x = y) ->
  NoDup (flat_map f l).
Proof.
  induction 1 as [|x l Hx Hnd IH]; intros Hf Hdis; cbn [flat_map].
  - constructor.
  - apply NoDup_app.
    + apply Hf. now left.
    + apply IH.
      * intros y Hy. apply Hf. now right.
      * intros y z b Hy Hz. apply Hdis; now right.
    + intros b Hb Hb'. apply in_flat_map in Hb'.
      destruct Hb' as [y [Hy Hby]].
      apply Hx. rewrite (Hdis x y b); auto; [now left | now right].
Qed.

Lemma map_pair_nodup {A B} (f : A -> B) (l : list A) :
  (forall a a', f a = f a' -> a = a') -> NoDup l -> NoDup (map f l).
Proof.
  intros Hinj. induction 1 as [|a l Ha _ IH]; cbn [map]; constructor;
    [|exact IH].
  intro H. apply in_map_iff in H. destruct H as [a' [E H]].
  apply Hinj in E. subst. exact (Ha H).
Qed.

Lemma set_diff_nodup a b : NoDup a -> NoDup (set_diff a b).
Proof. apply NoDup_filter. Qed.

Lemma gene_hypotheses_nodup l have_trait :
  NoDup l -> NoDup (gene_hypotheses l have_trait).
Proof.
  intro Hnd. unfold gene_hypotheses. apply flat_map_nodup.
  - apply (Permutation_NoDup
             (Permutation_sym (@powerset_subsets string l))).
    now apply subsets_nodup.
  - intros o _. apply map_pair_nodup.
    + intros a a' E. now inversion E.
    + apply (Permutation_NoDup
               (Permutation_sym
                  (@powerset_subsets string (set_diff l o)))).
      apply subsets_nodup. now apply set_diff_nodup.
  - intros o o' h _ _ Ho Ho'.
    apply in_map_iff in Ho. destruct Ho as [t [<- _]].
    apply in_map_iff in Ho'. destruct Ho' as [t' [E _]].
    now inversion E.
Qed.

(** X23.  With distinct names no hypothesis is evaluated twice: the triples
    that [main] passes to [joint_probability] and [update] are all
    different. *)
Theorem hypotheses_nodup (people : family) :
  NoDup (names people) -> NoDup (hypotheses people).
Proof.
  intro Hnd. unfold hypotheses. apply flat_map_nodup.
  - apply (Permutation_NoDup
             (Permutation_sym (@powerset_subsets string (names people)))).
    now apply subsets_nodup.
  - intros h _. destruct (fails_evidence people h); [constructor|].
    now apply gene_hypotheses_nodup.
  - intros h h' x _ _ Hx Hx'.
    destruct (fails_evidence people h); [destruct Hx|].
    destruct (fails_evidence people h'); [destruct Hx'|].
    destruct (in_gene_hypotheses _ _ _ Hx) as [E _].
    destruct (in_gene_hypotheses _ _ _ Hx') as [E' _].
    congruence.
Qed.

Lemma hypotheses_nodup_witness : NoDup (hypotheses example_people).
Proof.
  apply (@hypotheses_nodup example_people). exact example_people_nodup.
Defined.

Lemma in_powerset_subseq {A} (s t : list A) :
  In t (powerset s) <-> subseq t s.
Proof.
  rewrite <- subsets_subseq. split; apply Permutation_in.
  - apply powerset_subsets.
  - apply Permutation_sym, powerset_subsets.
Qed.

(** X24.  Which hypotheses [main] evaluates: exactly the triples whose trait
    set is a selection of the names that agrees with every recorded trait,
    whose one-gene set is a selection of the names, and whose two-gene set is
    a selection of the names left over. *)
Theorem hypotheses_members (people : family) one_gene two_genes have_trait :
  In (one_gene, two_genes, have_trait) (hypotheses people)
  <-> subseq have_trait (names people)
      /\ fails_evidence people have_trait = false
      /\ subseq one_gene (names people)
      /\ subseq two_genes (set_diff (names people) one_gene).
Proof.
  unfold hypotheses. rewrite in_flat_map. split.
  - intros [h [Hh Hin]].
    destruct (fails_evidence people h) eqn:Ef; [destruct Hin|].
    unfold gene_hypotheses in Hin. apply in_flat_map in Hin.
    destruct Hin as [o [Ho Hin]]. apply in_map_iff in Hin.
    destruct Hin as [t [E Ht]]. inversion E; subst.
    repeat split; try (now apply in_powerset_subseq). exact Ef.
  - intros [Hh [Hf [Ho Ht]]]. exists have_trait.
    split; [now apply in_powerset_subseq|]. rewrite Hf.
    unfold gene_hypotheses. apply in_flat_map. exists one_gene.
    split; [now apply in_powerset_subseq|].
    apply in_map_iff. exists two_genes.
    split; [reflexivity | now apply in_powerset_subseq].
Qed.
